(** * Marshaling between Luau tables and JSON, YAML, TOML and XML

    A shallow embedding of the four converter libraries of the VM
    (ljsonlib.cpp, lyamllib.cpp, ltomllib.cpp, lxmllib.cpp) and the
    properties their specification states about them.

    The host runtime (the Lua C API) and the format libraries
    (nlohmann::json, yaml-cpp, toml++, tinyxml2) are not part of the
    converters; what the converters use of them is modelled in [Lua] and at
    the head of each converter's module. *)

From Stdlib Require Import ZArith QArith String Ascii List Lia.
From stdpp Require Import gmap strings list pretty.

Set Warnings "-register-all".
Open Scope string_scope.

(** ** The host runtime *)

Module Lua.

(** A [lua_Number] is a double.  Finite doubles are rationals; the converters
    only compare, truncate and copy numbers, so a number is modelled as a
    rational (NaN and the infinities are outside the model). *)
Definition lua_Number : Type := Q.

(** The value a stack slot holds.  [LOpaque] stands for every type the
    converters do not handle (function, userdata, thread, vector, buffer). *)
Inductive lua_value : Type :=
| LNil
| LBoolean (b : bool)
| LNumber (n : lua_Number)
| LString (s : string)
| LTable (p : positive)
| LOpaque (p : positive).
Arguments LNumber n%_Q.
Arguments LTable p%_positive.

Inductive lua_Type : Type :=
| LUA_TNIL | LUA_TBOOLEAN | LUA_TNUMBER | LUA_TSTRING | LUA_TTABLE | LUA_TOTHER.

Definition lua_type (v : lua_value) : lua_Type :=
  match v with
  | LNil => LUA_TNIL
  | LBoolean _ => LUA_TBOOLEAN
  | LNumber _ => LUA_TNUMBER
  | LString _ => LUA_TSTRING
  | LTable _ => LUA_TTABLE
  | LOpaque _ => LUA_TOTHER
  end.

Definition lua_isnil (v : lua_value) : bool :=
  match v with LNil => true | _ => false end.

Definition lua_istable (v : lua_value) : bool :=
  match v with LTable _ => true | _ => false end.

(** [lua_isstring] accepts numbers too: they convert to strings. *)
Definition lua_isstring (v : lua_value) : bool :=
  match v with LString _ | LNumber _ => true | _ => false end.

Definition lua_toboolean (v : lua_value) : bool :=
  match v with LNil | LBoolean false => false | _ => true end.

(** Primitive equality of keys: numbers by value, tables by identity. *)
Definition lua_rawequal (a b : lua_value) : bool :=
  match a, b with
  | LNil, LNil => true
  | LBoolean x, LBoolean y => Bool.eqb x y
  | LNumber x, LNumber y => Qeq_bool x y
  | LString x, LString y => String.eqb x y
  | LTable x, LTable y => Pos.eqb x y
  | LOpaque x, LOpaque y => Pos.eqb x y
  | _, _ => false
  end.

(** The cast of a double to an integer truncates toward zero. *)
Definition num2int (n : lua_Number) : Z := Z.quot (Qnum n) (Zpos (Qden n)).

(** The cast of a 64-bit integer to a double keeps 53 significant bits: it
    rounds to the nearest double, a tie to the one whose last bit is 0. *)
Definition int2num (z : Z) : lua_Number :=
  let a := Z.abs z in
  let e := (Z.log2 a - 52)%Z in
  if (e <=? 0)%Z then inject_Z z
  else
    let q := Z.shiftr a e in
    let r := Z.land a (Z.ones e) in
    let half := Z.shiftl 1 (e - 1) in
    let q' := if (half <? r)%Z || ((half =? r)%Z && Z.odd q) then (q + 1)%Z else q in
    inject_Z (Z.sgn z * Z.shiftl q' e).

(** A C string ends at its first NUL byte. *)
Definition NUL : ascii := Ascii.zero.

Fixpoint c_str (s : string) : string :=
  match s with
  | EmptyString => EmptyString
  | String c r => if Ascii.eqb c NUL then EmptyString else String c (c_str r)
  end.

(** A table is the sequence of its entries in the order [lua_next] visits
    them.  The host never stores a nil value (assigning nil removes the key);
    the converters still test for it, so the model lets an entry hold one and
    reads it as an absent key. *)
Definition table : Type := list (lua_value * lua_value).

Fixpoint table_get (t : table) (k : lua_value) : lua_value :=
  match t with
  | [] => LNil
  | (k', v) :: r => if lua_rawequal k' k then v else table_get r k
  end.

Definition lua_rawgeti (t : table) (i : Z) : lua_value :=
  table_get t (LNumber (inject_Z i)).

(** Assignment [t[k] = v]: nil removes the key, an existing key keeps its
    place, a new key is visited last. *)
Fixpoint table_set (t : table) (k v : lua_value) : table :=
  match t with
  | [] => if lua_isnil v then [] else [(k, v)]
  | (k', v') :: r =>
      if lua_rawequal k' k
      then (if lua_isnil v then r else (k', v) :: r)
      else (k', v') :: table_set r k v
  end.

(** Modelled from the spec: [lua_objlen] belongs to the host runtime, which is
    not under src/.  Section 4.1 reads it as "the largest N such that keys
    1..N are all present with non-nil values": count upwards from 1 while the
    key is present.  A table of n entries has no more than n keys. *)
Fixpoint border (t : table) (i : Z) (fuel : nat) : Z :=
  match fuel with
  | O => i
  | S fuel' => if lua_isnil (lua_rawgeti t (i + 1)) then i else border t (i + 1) fuel'
  end.

Definition lua_objlen (t : table) : Z := border t 0 (length t).

(** The heap: tables by identity ([lua_topointer]).  A reference to a table
    the heap does not hold reads as an empty table. *)
Definition heap_table (h : gmap positive table) (p : positive) : table :=
  default [] (h !! p).

(** The host's conversions between numbers and strings ([lua_tostring] on a
    number, [lua_tointeger] on a string) are part of the runtime's number
    formatting and parsing; the converters are read against any such pair. *)
Class Host : Type := {
  lua_number2str : lua_Number -> string;
  lua_str2number : string -> option lua_Number;
}.

Section Conversions.
Context `{Host}.

(** [lua_tolstring]: the string and its length; a number converts. *)
Definition lua_tolstring (v : lua_value) : option string :=
  match v with
  | LString s => Some s
  | LNumber n => Some (lua_number2str n)
  | _ => None
  end.

(** [lua_tostring] as the converters use it: a [const char*] read up to its
    first NUL.  (NULL, which makes [std::string] undefined, is never reached:
    every use is guarded by [lua_isstring] or [lua_type].) *)
Definition lua_tostring (v : lua_value) : string :=
  match lua_tolstring v with
  | Some s => c_str s
  | None => EmptyString
  end.

(** [lua_tolstring] converts a number where it lies: what the slot of [v]
    holds after the call. *)
Definition after_tostring (v : lua_value) : lua_value :=
  match v with
  | LNumber n => LString (lua_number2str n)
  | _ => v
  end.

Definition lua_tonumber (v : lua_value) : lua_Number :=
  match v with
  | LNumber n => n
  | LString s => default 0%Q (lua_str2number s)
  | _ => 0%Q
  end.

Definition lua_tointeger (v : lua_value) : Z := num2int (lua_tonumber v).

End Conversions.

(** Outcome of a call: [luaL_error] aborts it with a message. *)
Inductive result (A : Type) : Type :=
| Ok (a : A)
| Error (msg : string)
| OutOfFuel.
Arguments Ok {A} a.
Arguments Error {A} msg.
Arguments OutOfFuel {A}.

(** The encoders thread one set of table identities, [seen], through their
    recursion and abort on an error. *)
Definition Enc (A : Type) : Type := gset positive -> result (A * gset positive).

Definition ret {A} (a : A) : Enc A := fun seen => Ok (a, seen).

Definition bind {A B} (m : Enc A) (k : A -> Enc B) : Enc B :=
  fun seen =>
    match m seen with
    | Ok (a, seen') => k a seen'
    | Error msg => Error msg
    | OutOfFuel => OutOfFuel
    end.

Definition luaL_error {A} (msg : string) : Enc A := fun _ => Error msg.
Definition out_of_fuel {A} : Enc A := fun _ => OutOfFuel.

Definition seen_count (p : positive) : Enc bool :=
  fun seen => Ok (bool_decide (p ∈ seen), seen).
Definition seen_insert (p : positive) : Enc unit :=
  fun seen => Ok (tt, seen ∪ {[p]}).
Definition seen_erase (p : positive) : Enc unit :=
  fun seen => Ok (tt, seen ∖ {[p]}).

(** [for (int i = from; i <= len; ++i)] collecting what the body pushes. *)
Fixpoint for_each {A B} (body : A -> Enc B) (l : list A) : Enc (list B) :=
  match l with
  | [] => ret []
  | x :: r => bind (body x) (fun y => bind (for_each body r) (fun ys => ret (y :: ys)))
  end.

(** [for (int i = 1; i <= n; ++i)] updating a container. *)
Fixpoint for_loop {A C} (body : C -> A -> Enc C) (acc : C) (l : list A) : Enc C :=
  match l with
  | [] => ret acc
  | x :: r => bind (body acc x) (fun acc' => for_loop body acc' r)
  end.

(** Modelled from the spec: [lua_next] belongs to the host runtime, an
    external collaborator (section 6) that is not under src/.  It pops the
    key in the slot below the top and pushes the entry that follows that key
    in the table; it finds the place by looking the key up, and raises
    "invalid key to 'next'" when the table does not hold it.  The runtime's
    manual warns of it: "while traversing a table, do not call lua_tolstring
    directly on a key, unless you know that the key is actually a string;
    lua_tolstring changes the value at the given index; this confuses the
    next call to lua_next".  [entries_after t k] is what remains to visit
    after the key [k]. *)
Fixpoint entries_after (t : table) (k : lua_value) : option table :=
  match t with
  | [] => None
  | e :: r => if lua_rawequal (fst e) k then Some r else entries_after r k
  end.

Section Traversal.
Context {C : Type}.
(** The body of the loop, on the container and the entry at -2 and -1: the
    container and the key it leaves in the slot at -2. *)
Variable body : C -> lua_value * lua_value -> Enc (C * lua_value).
Variable t : table.

(** The traversal from the entries [rest].  A key the body left as it was
    resumes at the next entry (the model's list may repeat a key, which a
    table does not: the place is the entry's own).  A key the body converted
    is looked up: the traversal resumes after the entry that has it, which
    may pass over entries or come back to one. *)
Fixpoint visit (resume : C -> table -> Enc C) (acc : C) (rest : table) : Enc C :=
  match rest with
  | [] => ret acc
  | e :: r =>
      bind (body acc e) (fun '(acc', k) =>
        if lua_rawequal (fst e) k then visit resume acc' r
        else match entries_after t k with
             | Some rest' => resume acc' rest'
             | None => luaL_error "invalid key to 'next'"
             end)
  end.

(** [fuel] bounds the number of times the traversal resumes at a converted
    key: such a traversal need not end. *)
Fixpoint next_from (fuel : nat) (acc : C) (rest : table) : Enc C :=
  visit (fun acc' rest' =>
           match fuel with
           | O => out_of_fuel
           | S fuel' => next_from fuel' acc' rest'
           end) acc rest.

End Traversal.

(** [lua_pushnil(L); while (lua_next(L, index))] over the entries of [t],
    updating a container. *)
Definition while_next {C} (body : C -> lua_value * lua_value -> Enc (C * lua_value))
    (fuel : nat) (acc : C) (t : table) : Enc C :=
  next_from body t fuel acc t.

End Lua.

Export Lua.

Notation "'let*' x ':=' m 'in' k" := (bind m (fun x => k))
  (at level 10, x pattern, m at level 100, k at level 200).

(** ** JSON (ljsonlib.cpp) *)

Module Json.

(** The tree [nlohmann::json] holds.  An object is a [std::map]: its keys are
    unique and kept in byte order. *)
Inductive json : Type :=
| JNull
| JBool (b : bool)
| JNumber (n : lua_Number)
| JString (s : string)
| JArray (l : list json)
| JObject (l : list (string * json)).

(** [obj[key] = value] on a [std::map]. *)
Fixpoint obj_set (k : string) (v : json) (o : list (string * json)) : list (string * json) :=
  match o with
  | [] => [(k, v)]
  | (k', v') :: r =>
      match String.compare k k' with
      | Eq => (k, v) :: r
      | Lt => (k, v) :: o
      | Gt => (k', v') :: obj_set k v r
      end
  end.

Section Encoder.
Context `{Host}.

Definition has_hole (t : table) (len : Z) : bool :=
  existsb (fun i => lua_isnil (lua_rawgeti t i)) (seqZ 1 len).

Definition key_in_range (len : Z) (e : lua_value * lua_value) : bool :=
  match lua_type (fst e) with
  | LUA_TNUMBER =>
      let k := lua_tointeger (fst e) in
      negb ((k <? 1)%Z || (k >? len)%Z)
  | _ => false
  end.

(** [is_array]: the returned flag and the [len] it leaves in its out
    parameter. *)
Definition is_array (t : table) : bool * Z :=
  let len := lua_objlen t in
  if (len =? 0)%Z && (match t with [] => true | _ => false end)
  then (false, len) (* empty object *)
  else if has_hole t len then (false, len)
  else (forallb (key_in_range len) t, len).

(** The body of the object loop: key at -2, value at -1.  [lua_tostring(L,
    -2)] converts a number key where it lies. *)
Definition object_entry (encode_value : lua_value -> Enc json)
    (obj : list (string * json)) (e : lua_value * lua_value)
    : Enc (list (string * json) * lua_value) :=
  if negb (lua_isstring (fst e))
  then luaL_error "json object keys must be strings"
  else
    let* j := encode_value (snd e) in
    ret (obj_set (lua_tostring (fst e)) j obj, after_tostring (fst e)).

Definition encode_table (fuel : nat) (encode_value : lua_value -> Enc json)
    (h : gmap positive table) (p : positive) : Enc json :=
  let* cyc := seen_count p in
  if cyc then luaL_error "cannot serialize cyclic table"
  else
    let* _ := seen_insert p in
    let t := heap_table h p in
    let '(arr, len) := is_array t in
    if arr then
      let* items := for_each (fun i => encode_value (lua_rawgeti t i)) (seqZ 1 len) in
      let* _ := seen_erase p in
      ret (JArray items)
    else
      let* obj := while_next (object_entry encode_value) fuel [] t in
      let* _ := seen_erase p in
      ret (JObject obj).

Fixpoint encode_value (fuel : nat) (h : gmap positive table) (v : lua_value) : Enc json :=
  match fuel with
  | O => out_of_fuel
  | S fuel' =>
      match v with
      | LNil => ret JNull
      | LBoolean _ => ret (JBool (lua_toboolean v))
      | LNumber _ => ret (JNumber (lua_tonumber v))
      | LString _ => ret (JString (lua_tostring v))
      | LTable p => encode_table fuel' (encode_value fuel' h) h p
      | LOpaque _ => luaL_error "unsupported lua type for json serialization"
      end
  end.

End Encoder.

(** The decoder's view of the Lua state: the heap and the stack, top first. *)
Record lua_State : Type := mkState {
  st_heap : gmap positive table;
  st_stack : list lua_value;
}.

(** [lua_createtable]: a table with a fresh identity, pushed. *)
Definition lua_createtable (L : lua_State) : lua_State :=
  let p := fresh (dom (st_heap L)) in
  mkState (<[p := []]> (st_heap L)) (LTable p :: st_stack L).

Definition lua_push (v : lua_value) (L : lua_State) : lua_State :=
  mkState (st_heap L) (v :: st_stack L).

(** [lua_rawseti(L, -2, n)]: [t[n] = v] for the value on top and the table
    below it; pops the value.  The API requires a table there: the parser
    reports events in document order, which puts one there. *)
Definition lua_rawseti (L : lua_State) (n : Z) : result lua_State :=
  match st_stack L with
  | v :: LTable p :: rest =>
      Ok (mkState (<[p := table_set (heap_table (st_heap L) p) (LNumber (inject_Z n)) v]> (st_heap L))
                  (LTable p :: rest))
  | _ => Error "attempt to index a non-table value"
  end.

(** [lua_settable(L, -3)]: [t[k] = v] for the value on top, the key below it
    and the table below that; pops both. *)
Definition lua_settable (L : lua_State) : result lua_State :=
  match st_stack L with
  | v :: k :: LTable p :: rest =>
      if lua_isnil k then Error "table index is nil"
      else Ok (mkState (<[p := table_set (heap_table (st_heap L) p) k v]> (st_heap L))
                       (LTable p :: rest))
  | _ => Error "attempt to index a non-table value"
  end.

(** The events [json::sax_parse] reports to its handler. *)
Inductive sax_event : Type :=
| start_object
| end_object
| start_array
| end_array
| key (k : string)
| null
| string_ (val : string)
| boolean (val : bool)
| number_integer (val : Z)
| number_unsigned (val : Z)
| number_float (val : lua_Number)
| binary
| parse_error (what : string).

(** [lua_Integer] is a 32-bit [int]: [lua_pushinteger] of a 64-bit parser
    integer keeps its low 32 bits, read as signed. *)
Definition to_int32 (z : Z) : Z := ((z + 2 ^ 31) mod 2 ^ 32 - 2 ^ 31)%Z.

Record Frame : Type := mkFrame {
  isArray : bool;
  index : Z; (* only for arrays *)
}.

(** [lua_sax]: the handler's state is the Lua state and the stack of open
    containers, innermost first. *)
Definition sax : Type := lua_State * list Frame.

Definition insert_value (s : sax) : result sax :=
  let '(L, stack) := s in
  match stack with
  | [] => Ok s (* root value stays on stack *)
  | f :: stack' =>
      if isArray f
      then match lua_rawseti L (index f + 1) with
           | Ok L' => Ok (L', mkFrame true (index f + 1) :: stack')
           | Error msg => Error msg
           | OutOfFuel => OutOfFuel
           end
      else match lua_settable L with
           | Ok L' => Ok (L', stack)
           | Error msg => Error msg
           | OutOfFuel => OutOfFuel
           end
  end.

Definition sax_handle (ev : sax_event) (s : sax) : result sax :=
  let '(L, stack) := s in
  match ev with
  | start_object => Ok (lua_createtable L, mkFrame false 0 :: stack)
  | end_object => insert_value (L, tail stack)
  | start_array => Ok (lua_createtable L, mkFrame true 0 :: stack)
  | end_array => insert_value (L, tail stack)
  | key k => Ok (lua_push (LString k) L, stack)
  | null => insert_value (lua_push LNil L, stack)
  | string_ val => insert_value (lua_push (LString val) L, stack)
  | boolean val => insert_value (lua_push (LBoolean val) L, stack)
  | number_integer val => insert_value (lua_push (LNumber (inject_Z (to_int32 val))) L, stack)
  | number_unsigned val => insert_value (lua_push (LNumber (inject_Z (to_int32 val))) L, stack)
  | number_float val => insert_value (lua_push (LNumber val) L, stack)
  | binary => Error "binary json values are not supported"
  | parse_error what => Error what
  end.

Fixpoint sax_run (evs : list sax_event) (s : sax) : result sax :=
  match evs with
  | [] => Ok s
  | ev :: evs' =>
      match sax_handle ev s with
      | Ok s' => sax_run evs' s'
      | Error msg => Error msg
      | OutOfFuel => OutOfFuel
      end
  end.

(** Modelled from the spec: the text side of nlohmann::json is not under
    src/ ("parsing/emission text mechanics are delegated to external format
    libraries").  [dump] is the compact text of a tree; the text of a number
    is the library's, [dump_float].  Control characters, the quote and the
    backslash are escaped.  The library reads a string as UTF-8 and throws
    [type_error] 316 on the first one that is not: [dump_error]. *)
Definition dquote : string := String (ascii_of_nat 34) EmptyString.
Definition backslash : string := String (ascii_of_nat 92) EmptyString.

Definition hex_digit (n : nat) : ascii :=
  ascii_of_nat (if (n <? 10)%nat then 48 + n else 87 + n).

Definition escape_char (c : ascii) : string :=
  let n := nat_of_ascii c in
  if (n =? 34)%nat then backslash ++ dquote
  else if (n =? 92)%nat then backslash ++ backslash
  else if (n =? 8)%nat then backslash ++ "b"
  else if (n =? 12)%nat then backslash ++ "f"
  else if (n =? 10)%nat then backslash ++ "n"
  else if (n =? 13)%nat then backslash ++ "r"
  else if (n =? 9)%nat then backslash ++ "t"
  else if (n <? 32)%nat
  then backslash ++ "u00" ++ String (hex_digit (n / 16)) (String (hex_digit (n mod 16)) EmptyString)
  else String c EmptyString.

Fixpoint escape_string (s : string) : string :=
  match s with
  | EmptyString => EmptyString
  | String c r => escape_char c ++ escape_string r
  end.

Definition quoted (s : string) : string := dquote ++ escape_string s ++ dquote.

Fixpoint join (sep : string) (l : list string) : string :=
  match l with
  | [] => EmptyString
  | [x] => x
  | x :: r => x ++ sep ++ join sep r
  end.

(** The states of the library's UTF-8 decoder: between characters, or
    inside one, with what its next byte may be. *)
Inductive utf8_state : Type :=
| utf8_accept | utf8_one | utf8_two | utf8_three
| utf8_E0 | utf8_ED | utf8_F0 | utf8_F4.

Definition within (lo hi b : nat) : bool := (lo <=? b)%nat && (b <=? hi)%nat.

Definition utf8_decode (st : utf8_state) (b : nat) : option utf8_state :=
  match st with
  | utf8_accept =>
      if (b <=? 127)%nat then Some utf8_accept
      else if within 194 223 b then Some utf8_one
      else if (b =? 224)%nat then Some utf8_E0
      else if within 225 236 b || within 238 239 b then Some utf8_two
      else if (b =? 237)%nat then Some utf8_ED
      else if (b =? 240)%nat then Some utf8_F0
      else if within 241 243 b then Some utf8_three
      else if (b =? 244)%nat then Some utf8_F4
      else None
  | utf8_one => if within 128 191 b then Some utf8_accept else None
  | utf8_two => if within 128 191 b then Some utf8_one else None
  | utf8_three => if within 128 191 b then Some utf8_two else None
  | utf8_E0 => if within 160 191 b then Some utf8_one else None
  | utf8_ED => if within 128 159 b then Some utf8_one else None
  | utf8_F0 => if within 144 191 b then Some utf8_two else None
  | utf8_F4 => if within 128 143 b then Some utf8_two else None
  end.

Definition hex_bytes (b : nat) : string :=
  let nibble n := ascii_of_nat (if (n <? 10)%nat then 48 + n else 55 + n) in
  String (nibble (b / 16)) (String (nibble (b mod 16)) EmptyString).

(** What the exception says of the string [s], read from byte [i] on in the
    state [st], [last] being the byte before; [None] when the string is
    UTF-8. *)
Fixpoint utf8_error (s : string) (st : utf8_state) (i : nat) (last : nat) : option string :=
  match s with
  | EmptyString =>
      match st with
      | utf8_accept => None
      | _ => Some ("incomplete UTF-8 string; last byte: 0x" ++ hex_bytes last)
      end
  | String c r =>
      match utf8_decode st (nat_of_ascii c) with
      | Some st' => utf8_error r st' (S i) (nat_of_ascii c)
      | None =>
          Some ("invalid UTF-8 byte at index " ++ pretty.pretty i ++ ": 0x"
                ++ hex_bytes (nat_of_ascii c))
      end
  end.

Definition string_error (s : string) : option string := utf8_error s utf8_accept 0 0.

(** The first string of a tree the emitter cannot write, in the order it
    writes them: the key of a member before its value. *)
Fixpoint dump_error (j : json) : option string :=
  match j with
  | JString s => string_error s
  | JArray l =>
      (fix items (l : list json) : option string :=
         match l with
         | [] => None
         | x :: r => match dump_error x with Some what => Some what | None => items r end
         end) l
  | JObject l =>
      (fix members (l : list (string * json)) : option string :=
         match l with
         | [] => None
         | (k, x) :: r =>
             match string_error k with
             | Some what => Some what
             | None => match dump_error x with Some what => Some what | None => members r end
             end
         end) l
  | _ => None
  end.

Section Text.
Variable dump_float : lua_Number -> string.

Fixpoint dump (j : json) : string :=
  match j with
  | JNull => "null"
  | JBool true => "true"
  | JBool false => "false"
  | JNumber n => dump_float n
  | JString s => quoted s
  | JArray l => "[" ++ join "," (map dump l) ++ "]"
  | JObject l => "{" ++ join "," (map (fun e => quoted (fst e) ++ ":" ++ dump (snd e)) l) ++ "}"
  end.

End Text.

(** Modelled from the spec: what the library's parser reports for the text
    its emitter wrote for a tree, in document order.  A number the emitter
    wrote from a double carries a fraction or an exponent and is reported as
    [number_float]. *)
Fixpoint sax_events (j : json) : list sax_event :=
  match j with
  | JNull => [null]
  | JBool b => [boolean b]
  | JNumber n => [number_float n]
  | JString s => [string_ s]
  | JArray l => start_array :: concat (map sax_events l) ++ [end_array]
  | JObject l => start_object :: concat (map (fun e => key (fst e) :: sax_events (snd e)) l) ++ [end_object]
  end.

Section Library.
Context `{Host}.
(** [j.dump()] and [json::sax_parse], the two library calls. *)
Variable dump_float : lua_Number -> string.
Variable sax_parse : string -> list sax_event.

(** [luaL_checktype(L, 1, LUA_TTABLE)] guards the call; the model runs the
    encoder with fuel. *)
Definition jsonserialize_tree (fuel : nat) (h : gmap positive table) (v : lua_value) : result json :=
  match lua_type v with
  | LUA_TTABLE =>
      match encode_value fuel h v ∅ with
      | Ok (j, _) => Ok j
      | Error msg => Error msg
      | OutOfFuel => OutOfFuel
      end
  | _ => Error "table expected"
  end.

(** [j.dump()] throws on a string that is not UTF-8; the converter has no
    handler, and the call ends with the exception's message. *)
Definition jsonserialize (fuel : nat) (h : gmap positive table) (v : lua_value) : result string :=
  match jsonserialize_tree fuel h v with
  | Ok j =>
      match dump_error j with
      | Some what => Error ("[json.exception.type_error.316] " ++ what)
      | None => Ok (dump dump_float j)
      end
  | Error msg => Error msg
  | OutOfFuel => OutOfFuel
  end.

(** The result is the heap after the call and the value left on top. *)
Definition jsondeserialize (h : gmap positive table) (s : string) : result (gmap positive table * lua_value) :=
  if (String.length s =? 0)%nat then Error "cannot deserialize empty string"
  else
    match sax_run (sax_parse s) (mkState h [], []) with
    | Ok (L, _) => Ok (st_heap L, hd LNil (st_stack L))
    | Error msg => Error msg
    | OutOfFuel => OutOfFuel
    end.

End Library.

End Json.

(** ** YAML (lyamllib.cpp) *)

Module Yaml.

(** Modelled from the spec: the node tree of yaml-cpp, which is not under
    src/.  A node is null, a scalar (its text), a sequence or a map from key
    nodes to nodes, in insertion order.  A node built from a [bool], a
    [double] or a [std::string] is kept as built: how the library writes it
    is the emitter's business. *)
Inductive Node : Type :=
| Null
| Scalar (text : string)
| OfBool (b : bool)
| OfDouble (n : lua_Number)
| Sequence (l : list Node)
| Map (l : list (Node * Node)).

Definition IsScalar (n : Node) : bool :=
  match n with Scalar _ | OfBool _ | OfDouble _ => true | _ => false end.

(** [map[key] = node] for a string key: an entry whose key is that scalar is
    overwritten, otherwise the entry is appended. *)
Fixpoint map_set (k : string) (v : Node) (m : list (Node * Node)) : list (Node * Node) :=
  match m with
  | [] => [(Scalar k, v)]
  | (Scalar k', v') :: r =>
      if String.eqb k' k then (Scalar k', v) :: r else (Scalar k', v') :: map_set k v r
  | e :: r => e :: map_set k v r
  end.

Section Encoder.
Context `{Host}.

Definition has_hole (t : table) (len : Z) : bool :=
  existsb (fun i => lua_isnil (lua_rawgeti t i)) (seqZ 1 len).

Definition key_in_range (len : Z) (e : lua_value * lua_value) : bool :=
  match lua_type (fst e) with
  | LUA_TNUMBER =>
      let kn := lua_tonumber (fst e) in
      let k := num2int kn in
      if negb (Qeq_bool (inject_Z k) kn) then false
      else negb ((k <? 1)%Z || (k >? len)%Z)
  | _ => false
  end.

Definition is_array (t : table) : bool * Z :=
  let len := lua_objlen t in
  match t with
  | [] => (true, len) (* empty map *)
  | _ =>
      if has_hole t len then (false, len)
      else (forallb (key_in_range len) t, len)
  end.

(** The body of the map loop: key at -2, value at -1.  [lua_tostring(L, -2)]
    converts a number key where it lies. *)
Definition map_entry (encode_lua_value : lua_value -> Enc Node)
    (map : list (Node * Node)) (e : lua_value * lua_value)
    : Enc (list (Node * Node) * lua_value) :=
  if negb (lua_isstring (fst e))
  then luaL_error "yaml mapping keys must be strings"
  else if lua_isnil (snd e) then ret (map, fst e) (* omit nil values *)
  else
    let key := lua_tostring (fst e) in
    let* n := encode_lua_value (snd e) in
    ret (map_set key n map, after_tostring (fst e)).

Definition encode_lua_table (fuel : nat) (encode_lua_value : lua_value -> Enc Node)
    (h : gmap positive table) (p : positive) : Enc Node :=
  let* cyc := seen_count p in
  if cyc then luaL_error "cannot serialize cyclic table to yaml"
  else
    let* _ := seen_insert p in
    let t := heap_table h p in
    let '(arr, len) := is_array t in
    if arr then
      let* seq := for_each (fun i => encode_lua_value (lua_rawgeti t i)) (seqZ 1 len) in
      let* _ := seen_erase p in
      ret (Sequence seq)
    else
      let* map := while_next (map_entry encode_lua_value) fuel [] t in
      let* _ := seen_erase p in
      ret (Map map).

Fixpoint encode_lua_value (fuel : nat) (h : gmap positive table) (v : lua_value) : Enc Node :=
  match fuel with
  | O => out_of_fuel
  | S fuel' =>
      match v with
      | LNil => ret Null
      | LBoolean _ => ret (OfBool (lua_toboolean v))
      | LNumber _ => ret (OfDouble (lua_tonumber v))
      | LString _ => ret (Scalar (lua_tostring v))
      | LTable p => encode_lua_table fuel' (encode_lua_value fuel' h) h p
      | LOpaque _ => luaL_error "unsupported Lua type for yaml serialization"
      end
  end.

(** [yamlserialize] up to the emitter: the node handed to [YAML::Emitter]. *)
Definition yamlserialize_node (fuel : nat) (h : gmap positive table) (v : lua_value) : result Node :=
  match lua_type v with
  | LUA_TTABLE =>
      match encode_lua_value fuel h v ∅ with
      | Ok (n, _) => Ok n
      | Error msg => Error msg
      | OutOfFuel => OutOfFuel
      end
  | _ => Error "table expected"
  end.

End Encoder.

(** The decoder works on the heap alone: what each [push_] leaves on the
    stack is its result. *)
Definition Dec (A : Type) : Type := gmap positive table -> result (A * gmap positive table).

Definition newtable : Dec positive :=
  fun h => let p := fresh (dom h) in Ok (p, <[p := []]> h).

Definition settable (p : positive) (k v : lua_value) : Dec unit :=
  fun h => Ok (tt, <[p := table_set (heap_table h p) k v]> h).

Definition dbind {A B} (m : Dec A) (k : A -> Dec B) : Dec B :=
  fun h =>
    match m h with
    | Ok (a, h') => k a h'
    | Error msg => Error msg
    | OutOfFuel => OutOfFuel
    end.

Definition dret {A} (a : A) : Dec A := fun h => Ok (a, h).
Definition derror {A} (msg : string) : Dec A := fun _ => Error msg.

(** [for (int i = 0; i < count; ++i) { push; lua_rawseti(L, -2, i + 1); }] *)
Fixpoint seq_loop {A} (push : A -> Dec lua_value) (p : positive) (i : Z) (l : list A) : Dec unit :=
  match l with
  | [] => dret tt
  | n :: r =>
      dbind (push n) (fun v =>
      dbind (settable p (LNumber (inject_Z (i + 1))) v) (fun _ =>
      seq_loop push p (i + 1) r))
  end.

Section Decoder.
(** [std::strtod] on a C string: the value and the number of characters it
    consumed (none when no conversion is possible). *)
Variable strtod : string -> lua_Number * nat.
(** The text of a node the library built from a [bool] or a [double]. *)
Variable scalar_text : Node -> string.

Definition Scalar_of (n : Node) : string :=
  match n with Scalar s => s | _ => scalar_text n end.

(** [parse_number]: [end] points [consumed] characters into [s.c_str()], a
    buffer that holds the bytes of [s] and a final NUL. *)
Definition parse_number (s : string) : option lua_Number :=
  let '(out, consumed) := strtod (c_str s) in
  match String.get consumed (s ++ String NUL EmptyString) with
  | Some c => if Ascii.eqb c NUL && negb (consumed =? 0)%nat then Some out else None
  | None => None
  end.

Definition push_scalar (s : string) : lua_value :=
  if String.eqb s "true" || String.eqb s "True" || String.eqb s "TRUE" then LBoolean true
  else if String.eqb s "false" || String.eqb s "False" || String.eqb s "FALSE" then LBoolean false
  else match parse_number s with
       | Some num => LNumber num
       | None => LString s
       end.

Fixpoint push_yaml_node (n : Node) : Dec lua_value :=
  match n with
  | Null => dret LNil
  | Sequence l =>
      dbind newtable (fun p =>
      dbind (seq_loop push_yaml_node p 0 l) (fun _ => dret (LTable p)))
  | Map l =>
      dbind newtable (fun p =>
      dbind ((fix map_loop (l : list (Node * Node)) : Dec unit :=
                match l with
                | [] => dret tt
                | (k, v) :: r =>
                    if negb (IsScalar k)
                    then derror "YAML mapping keys must be scalars (string/number/bool); got non-scalar key"
                    else
                      dbind (push_yaml_node v) (fun x =>
                      dbind (settable p (LString (Scalar_of k)) x) (fun _ => map_loop r))
                end) l) (fun _ => dret (LTable p)))
  | _ => dret (push_scalar (Scalar_of n))
  end.

(** [YAML::Load]: the document, or the message of the exception it threw. *)
Variable Load : string -> string + Node.

Definition yamldeserialize (s : string) : Dec lua_value :=
  if (String.length s =? 0)%nat then derror "cannot deserialize empty string"
  else
    match Load s with
    | inl what => derror what
    | inr doc => push_yaml_node doc
    end.

End Decoder.

End Yaml.

(** ** TOML (ltomllib.cpp) *)

Module Toml.

(** Modelled from the spec: the node tree of toml++, which is not under src/.
    A table keeps its keys unique and in byte order; [insert] leaves a key
    that is already there as it is. *)
Inductive node : Type :=
| string_value (s : string)
| integer_value (z : Z)
| float_value (n : lua_Number)
| boolean_value (b : bool)
| date_time_value (text : string)
| other_value
| array (l : list node)
| table_node (l : list (string * node)).

Fixpoint insert (k : string) (v : node) (tbl : list (string * node)) : list (string * node) :=
  match tbl with
  | [] => [(k, v)]
  | (k', v') :: r =>
      match String.compare k k' with
      | Eq => tbl
      | Lt => (k, v) :: tbl
      | Gt => (k', v') :: insert k v r
      end
  end.

Section Encoder.
Context `{Host}.

(** The test rejects a key that is a number, and any other key unless it
    converts to an integer in [1, len]. *)
Definition key_rejected (len : Z) (e : lua_value * lua_value) : bool :=
  match lua_type (fst e) with
  | LUA_TNUMBER => true
  | _ => (lua_tointeger (fst e) <? 1)%Z || (lua_tointeger (fst e) >? len)%Z
  end.

Definition is_array (t : table) : bool :=
  let len := lua_objlen t in
  negb (existsb (key_rejected len) t).

Definition encode_string (v : lua_value) : node := string_value (lua_tostring v).
Definition encode_number (v : lua_value) : node := float_value (lua_tonumber v).
Definition encode_boolean (v : lua_value) : node := boolean_value (lua_toboolean v).

(** One fuel for the two mutually recursive encoders: [encode_lua_array]
    enters no table in [seen]. *)
Definition array_item (encode_array encode_table : positive -> Enc node)
    (h : gmap positive table) (v : lua_value) : Enc node :=
  match v with
  | LString _ => ret (encode_string v)
  | LNumber _ => ret (encode_number v)
  | LBoolean _ => ret (encode_boolean v)
  | LTable q =>
      if is_array (heap_table h q) then encode_array q else encode_table q
  | _ => luaL_error "unsupported lua type for toml array"
  end.

Definition encode_lua_array (encode_array encode_table : positive -> Enc node)
    (h : gmap positive table) (p : positive) : Enc node :=
  let t := heap_table h p in
  let len := lua_objlen t in
  let* arr := for_each (fun i => array_item encode_array encode_table h (lua_rawgeti t i))
                (seqZ 1 len) in
  ret (array arr).

(** The body of the table loop: key at -2, value at -1.  [lua_tostring(L,
    -2)] converts a number key where it lies. *)
Definition table_entry (encode_array encode_table : positive -> Enc node)
    (h : gmap positive table)
    (tbl : list (string * node)) (e : lua_value * lua_value)
    : Enc (list (string * node) * lua_value) :=
  if negb (lua_isstring (fst e))
  then luaL_error "toml keys must be strings"
  else
    let key := lua_tostring (fst e) in
    let slot := after_tostring (fst e) in
    let v := snd e in
    match v with
    | LString _ => ret (insert key (encode_string v) tbl, slot)
    | LNumber _ => ret (insert key (encode_number v) tbl, slot)
    | LBoolean _ => ret (insert key (encode_boolean v) tbl, slot)
    | LTable q =>
        let* n := (if is_array (heap_table h q) then encode_array q else encode_table q) in
        ret (insert key n tbl, slot)
    | _ => luaL_error "unsupported lua type for toml table"
    end.

Definition encode_lua_table (fuel : nat) (encode_array encode_table : positive -> Enc node)
    (h : gmap positive table) (p : positive) : Enc node :=
  let* cyc := seen_count p in
  if cyc then luaL_error "cyclic tables not allowed in toml"
  else
    let* _ := seen_insert p in
    let* tbl := while_next (table_entry encode_array encode_table h) fuel [] (heap_table h p) in
    let* _ := seen_erase p in
    ret (table_node tbl).

Fixpoint encode (fuel : nat) (h : gmap positive table) (as_array : bool) (p : positive) : Enc node :=
  match fuel with
  | O => out_of_fuel
  | S fuel' =>
      if as_array
      then encode_lua_array (encode fuel' h true) (encode fuel' h false) h p
      else encode_lua_table fuel' (encode fuel' h true) (encode fuel' h false) h p
  end.

(** [tomlserialize] up to the text: the table streamed to the output. *)
Definition tomlserialize_node (fuel : nat) (h : gmap positive table) (v : lua_value) : result node :=
  match v with
  | LTable p =>
      match encode fuel h false p ∅ with
      | Ok (n, _) => Ok n
      | Error msg => Error msg
      | OutOfFuel => OutOfFuel
      end
  | _ => Error "table expected"
  end.

End Encoder.

Import Yaml.

(** Modelled from the spec: [node.value<std::string>()] is toml++'s, which
    is not under src/.  It is empty on a node that is no string, and
    [.value()] on the empty [std::optional] throws [std::bad_optional_access],
    which no handler of the converter catches: the call ends with the
    exception's message, here as libstdc++ spells it. *)
Definition bad_optional_access : string := "bad optional access".

(** [push_toml_value]; [lua_pushstring] reads a C string, and a 64-bit
    integer is cast to a [lua_Number]. *)
Fixpoint push_toml_value (n : node) : Dec lua_value :=
  match n with
  | string_value s => dret (LString (c_str s))
  | integer_value z => dret (LNumber (int2num z))
  | float_value x => dret (LNumber x)
  | boolean_value b => dret (LBoolean b)
  | date_time_value _ => derror bad_optional_access
  | array l =>
      dbind newtable (fun p =>
      dbind (seq_loop push_toml_value p 0 l) (fun _ => dret (LTable p)))
  | table_node l =>
      dbind newtable (fun p =>
      dbind ((fix table_loop (l : list (string * node)) : Dec unit :=
                match l with
                | [] => dret tt
                | (k, v) :: r =>
                    dbind (push_toml_value v) (fun x =>
                    dbind (settable p (LString k) x) (fun _ => table_loop r))
                end) l) (fun _ => dret (LTable p)))
  | other_value => dret LNil
  end.

Definition push_toml_table (tbl : list (string * node)) : Dec lua_value :=
  push_toml_value (table_node tbl).

Section Decoder.
(** [toml::parse]: the document's table, or the parse error's description. *)
Variable parse : string -> string + list (string * node).

Definition tomldeserialize (src : string) : Dec lua_value :=
  match parse src with
  | inr tbl => push_toml_table tbl
  | inl description => derror description
  end.

End Decoder.

End Toml.

(** ** XML (lxmllib.cpp) *)

Module Xml.

Import Yaml.

(** Modelled from the spec: the element tree of tinyxml2, which is not under
    src/: "an element tree with named children, attributes, and direct text
    access".  Its strings are C strings. *)
Inductive XMLElement : Type :=
| Element (Name : string) (attributes : list (string * string))
          (GetText : option string) (children : list XMLElement).

Fixpoint push_attrs (p : positive) (l : list (string * string)) : Dec unit :=
  match l with
  | [] => dret tt
  | (name, value) :: r =>
      dbind (settable p (LString (c_str name)) (LString (c_str value))) (fun _ => push_attrs p r)
  end.

Fixpoint push_xml_element (el : XMLElement) : Dec lua_value :=
  match el with
  | Element name attributes txt children =>
      dbind newtable (fun p =>
      dbind (settable p (LString "tag") (LString (c_str name))) (fun _ =>
      dbind newtable (fun pa =>
      dbind (push_attrs pa attributes) (fun _ =>
      dbind (settable p (LString "attr") (LTable pa)) (fun _ =>
      dbind (match txt with
             | Some s => if (String.length (c_str s) =? 0)%nat then dret tt
                         else settable p (LString "text") (LString (c_str s))
             | None => dret tt
             end) (fun _ =>
      dbind newtable (fun pc =>
      dbind (seq_loop push_xml_element pc 0 children) (fun _ =>
      dbind (settable p (LString "children") (LTable pc)) (fun _ =>
      dret (LTable p))))))))))
  end.

Section Decoder.
(** [XMLDocument::Parse] and [RootElement]: an error string, or the root
    element if the document has one. *)
Variable Parse : string -> string + option XMLElement.

Definition xmldeserialize (s : string) : Dec lua_value :=
  if (String.length s =? 0)%nat then derror "cannot deserialize empty string"
  else
    match Parse s with
    | inl ErrorStr => derror ("xml parse error: " ++ ErrorStr)
    | inr None => derror "xml has no root element"
    | inr (Some root) => push_xml_element root
    end.

End Decoder.

Definition xml_escape_char (c : ascii) : string :=
  if Ascii.eqb c "&" then "&amp;"
  else if Ascii.eqb c "<" then "&lt;"
  else if Ascii.eqb c ">" then "&gt;"
  else if Ascii.eqb c (ascii_of_nat 34) then "&quot;"
  else if Ascii.eqb c "'" then "&apos;"
  else String c EmptyString.

(** The loop runs to the first NUL of [s]. *)
Fixpoint escape_loop (s : string) : string :=
  match s with
  | EmptyString => EmptyString
  | String c r => if Ascii.eqb c NUL then EmptyString else xml_escape_char c ++ escape_loop r
  end.

Definition xml_escape_append (out s : string) : string := out ++ escape_loop s.

Fixpoint tabs (depth : nat) : string :=
  match depth with
  | O => EmptyString
  | S d => String (ascii_of_nat 9) (tabs d)
  end.

Definition emit_indent (out : string) (depth : nat) : string := out ++ tabs depth.

Definition newline : string := String (ascii_of_nat 10) EmptyString.

Section Encoder.
Context `{Host}.

(** The string and its length, [None] for a nil field. *)
Definition get_field_string (t : table) (key : string) : Enc (option string) :=
  let v := table_get t (LString key) in
  if lua_isnil v then ret None
  else
    match lua_tolstring v with
    | Some s => ret (Some s)
    | None => luaL_error ("xml." ++ key ++ " must be a string")
    end.

(** The body of the attribute loop: key at -2, value at -1.
    [lua_tostring(L, -2)] converts a number key where it lies. *)
Definition attribute (out : string) (e : lua_value * lua_value) : Enc (string * lua_value) :=
  if negb (lua_isstring (fst e)) then luaL_error "xml.attr keys must be strings"
  else if negb (lua_isstring (snd e)) then luaL_error "xml.attr values must be strings"
  else
    let k := lua_tostring (fst e) in
    let out := out ++ " " ++ k ++ "=" ++ Json.dquote in
    let out := xml_escape_append out (default EmptyString (lua_tolstring (snd e))) in
    ret (out ++ Json.dquote, after_tostring (fst e)).

Definition emit_attributes (fuel : nat) (attr : table) (out : string) : Enc string :=
  while_next attribute fuel out attr.

Definition child (emit_element : positive -> string -> nat -> Enc string)
    (depth : nat) (out : string) (v : lua_value) : Enc string :=
  match v with
  | LTable q => emit_element q out depth
  | _ => luaL_error "xml.children entries must be tables"
  end.

Definition emit_children (emit_element : positive -> string -> nat -> Enc string)
    (children : table) (out : string) (depth : nat) : Enc string :=
  let n := lua_objlen children in
  for_loop (fun out i => child emit_element depth out (lua_rawgeti children i)) out (seqZ 1 n).

Definition emit_element_body (fuel : nat) (emit_element : positive -> string -> nat -> Enc string)
    (h : gmap positive table) (p : positive) (out : string) (depth : nat) : Enc string :=
  let* cyc := seen_count p in
  if cyc then luaL_error "cannot serialize cyclic table to xml"
  else
    let* _ := seen_insert p in
    let t := heap_table h p in
    let* tag := get_field_string t "tag" in
    match tag with
    | None => luaL_error "xml element missing non-empty .tag"
    | Some tag =>
    if (String.length tag =? 0)%nat then luaL_error "xml element missing non-empty .tag"
    else
    let attr := table_get t (LString "attr") in
    if negb (lua_isnil attr) && negb (lua_istable attr)
    then luaL_error "xml.attr must be a table or nil"
    else
    let* text := get_field_string t "text" in
    let children := table_get t (LString "children") in
    if negb (lua_isnil children) && negb (lua_istable children)
    then luaL_error "xml.children must be a table or nil"
    else
    let out := emit_indent out depth in
    let out := out ++ "<" ++ tag in
    let* out := match attr with
                | LTable pa => emit_attributes fuel (heap_table h pa) out
                | _ => ret out
                end in
    let hasChildren := match children with
                       | LTable pc => (lua_objlen (heap_table h pc) >? 0)%Z
                       | _ => false
                       end in
    let hasText := match text with
                   | Some s => negb (String.length s =? 0)%nat
                   | None => false
                   end in
    let* out :=
      if negb hasChildren && negb hasText then ret (out ++ "/>" ++ newline)
      else
        let out := out ++ ">" in
        let out := if hasText then xml_escape_append out (default EmptyString text) else out in
        let* out :=
          if hasChildren then
            let out := out ++ newline in
            let* out := match children with
                        | LTable pc => emit_children emit_element (heap_table h pc) out (S depth)
                        | _ => ret out
                        end in
            ret (emit_indent out depth)
          else ret out in
        ret (out ++ "</" ++ tag ++ ">" ++ newline) in
    let* _ := seen_erase p in
    ret out
    end.

Fixpoint emit_element (fuel : nat) (h : gmap positive table) (p : positive)
    (out : string) (depth : nat) : Enc string :=
  match fuel with
  | O => out_of_fuel
  | S fuel' => emit_element_body fuel' (emit_element fuel' h) h p out depth
  end.

Definition xmlserialize (fuel : nat) (h : gmap positive table) (v : lua_value) : result string :=
  match v with
  | LTable p =>
      match emit_element fuel h p EmptyString 0 ∅ with
      | Ok (out, _) => Ok out
      | Error msg => Error msg
      | OutOfFuel => OutOfFuel
      end
  | _ => Error "table expected"
  end.

End Encoder.

End Xml.

(** ** A host for the examples *)

Module Sample.

(** Integral numbers print in decimal; the examples use no other number. *)
Definition number2str (n : lua_Number) : string :=
  if Qeq_bool (inject_Z (num2int n)) n then pretty.pretty (num2int n)
  else pretty.pretty (Qnum n) ++ "/" ++ pretty.pretty (Zpos (Qden n)).

(** The double nearest to a rational, a tie going to the one whose last bit
    is 0; [None] when it is beyond the largest double. *)
Definition round_double (q : Q) : option Q :=
  let a := Z.abs (Qnum q) in
  let d := Zpos (Qden q) in
  if (a =? 0)%Z then Some 0%Q
  else
    let e0 := (Z.log2 a - Z.log2 d - 52)%Z in
    let below := if (0 <=? e0 + 52)%Z then (a <? d * 2 ^ (e0 + 52))%Z
                 else (a * 2 ^ (- (e0 + 52)) <? d)%Z in
    let e := Z.max (if below then e0 - 1 else e0)%Z (-1074) in
    let num := if (0 <=? e)%Z then a else (a * 2 ^ (- e))%Z in
    let den := if (0 <=? e)%Z then (d * 2 ^ e)%Z else d in
    let m := (num / den)%Z in
    let r := (num mod den)%Z in
    let m := if (den <? 2 * r)%Z || ((den =? 2 * r)%Z && Z.odd m) then (m + 1)%Z else m in
    if (971 <? e)%Z || ((e =? 971)%Z && (2 ^ 53 <=? m)%Z) then None
    else
      let v := if (0 <=? e)%Z then inject_Z (m * 2 ^ e)
               else Qred (Qmake m (Z.to_pos (2 ^ (- e)))) in
      Some (if (Qnum q <? 0)%Z then Qopp v else v).

Definition isspace (c : ascii) : bool :=
  let n := nat_of_ascii c in (n =? 32)%nat || ((9 <=? n)%nat && (n <=? 13)%nat).

Definition digit (c : ascii) : option Z :=
  let n := nat_of_ascii c in
  if (48 <=? n)%nat && (n <=? 57)%nat then Some (Z.of_nat (n - 48)) else None.

Definition xdigit (c : ascii) : option Z :=
  let n := nat_of_ascii c in
  if (48 <=? n)%nat && (n <=? 57)%nat then Some (Z.of_nat (n - 48))
  else if (97 <=? n)%nat && (n <=? 102)%nat then Some (Z.of_nat (n - 87))
  else if (65 <=? n)%nat && (n <=? 70)%nat then Some (Z.of_nat (n - 55))
  else None.

Definition tolower (c : ascii) : ascii :=
  let n := nat_of_ascii c in
  if (65 <=? n)%nat && (n <=? 90)%nat then ascii_of_nat (n + 32) else c.

(** The longest run of digits: their value after [acc], their number, and
    what follows. *)
Fixpoint digits (dig : ascii -> option Z) (base : Z) (s : string) (acc : Z) (n : nat)
    : Z * nat * string :=
  match s with
  | EmptyString => (acc, n, s)
  | String c r =>
      match dig c with
      | Some d => digits dig base r (acc * base + d)%Z (S n)
      | None => (acc, n, s)
      end
  end.

Fixpoint spaces (s : string) (n : nat) : nat * string :=
  match s with
  | String c r => if isspace c then spaces r (S n) else (n, s)
  | EmptyString => (n, s)
  end.

(** [prefix] (in lower case) at the head of [s], whatever the case: what
    follows it. *)
Fixpoint after (prefix s : string) : option string :=
  match prefix, s with
  | EmptyString, _ => Some s
  | String a p, String c r => if Ascii.eqb a (tolower c) then after p r else None
  | _, EmptyString => None
  end.

(** Digits with at most one radix point and at least one digit: their value
    as an integer, the number of digits after the point, the length, and
    what follows. *)
Definition mantissa (dig : ascii -> option Z) (base : Z) (s : string)
    : option (Z * nat * nat * string) :=
  let '(v, n1, s1) := digits dig base s 0 0 in
  match s1 with
  | String "." r =>
      let '(v, n2, s2) := digits dig base r v 0 in
      if (n1 + n2 =? 0)%nat then None else Some (v, n2, (n1 + 1 + n2)%nat, s2)
  | _ => if (n1 =? 0)%nat then None else Some (v, 0%nat, n1, s1)
  end.

(** An exponent after its letter: a sign and at least one digit; its value
    and its length with the letter, or none. *)
Definition exponent (letter : ascii) (s : string) : Z * nat :=
  match s with
  | String c r =>
      if Ascii.eqb (tolower c) letter then
        let '(neg, sg, r') :=
          match r with
          | String "-" r' => (true, 1%nat, r')
          | String "+" r' => (false, 1%nat, r')
          | _ => (false, 0%nat, r)
          end in
        let '(v, n, _) := digits digit 10 r' 0 0 in
        if (n =? 0)%nat then (0%Z, 0%nat) else ((if neg then - v else v)%Z, (1 + sg + n)%nat)
      else (0%Z, 0%nat)
  | EmptyString => (0%Z, 0%nat)
  end.

Definition scaled (v : Z) (base : Z) (e : Z) : Q :=
  if (0 <=? e)%Z then inject_Z (v * base ^ e) else Qmake v (Z.to_pos (base ^ (- e))).

Fixpoint n_char_sequence (s : string) (n : nat) : option nat :=
  match s with
  | String c r =>
      let k := nat_of_ascii (tolower c) in
      if Ascii.eqb c ")" then Some (S n)
      else if ((48 <=? k) && (k <=? 57) || (97 <=? k) && (k <=? 122) || (k =? 95))%nat
      then n_char_sequence r (S n)
      else None
  | EmptyString => None
  end.

(** The number at the head of [s], after the sign: the rational it spells,
    when it spells one, and its length. *)
Definition subject (s : string) : option (option Q * nat) :=
  match after "infinity" s, after "inf" s, after "nan" s with
  | Some _, _, _ => Some (None, 8%nat)
  | None, Some _, _ => Some (None, 3%nat)
  | None, None, Some r =>
      match r with
      | String "(" r' => Some (None, (3 + default 0 (n_char_sequence r' 1))%nat)
      | _ => Some (None, 3%nat)
      end
  | None, None, None =>
      let hex := match after "0x" s with
                 | Some r =>
                     match mantissa xdigit 16 r with
                     | Some (v, frac, n, r') =>
                         let '(e, ne) := exponent "p" r' in
                         Some (Some (scaled v 2 (e - 4 * Z.of_nat frac)), (2 + n + ne)%nat)
                     | None => None
                     end
                 | None => None
                 end in
      match hex with
      | Some r => Some r
      | None =>
          match mantissa digit 10 s with
          | Some (v, frac, n, r') =>
              let '(e, ne) := exponent "e" r' in
              Some (Some (scaled v 10 (e - Z.of_nat frac)), (n + ne)%nat)
          | None => None
          end
      end
  end.

(** [std::strtod] in the "C" locale: white space, a sign, and a decimal or
    hexadecimal number, an infinity or a NaN; the double nearest to it and
    the number of characters read, none when there is no number.  The model
    has no number for an infinity, a NaN or a value beyond the largest
    double: such a text is given its length and the value 0. *)
Definition strtod (s : string) : lua_Number * nat :=
  let '(ws, s1) := spaces s 0 in
  let '(neg, sg, s2) :=
    match s1 with
    | String "-" r => (true, 1%nat, r)
    | String "+" r => (false, 1%nat, r)
    | _ => (false, 0%nat, s1)
    end in
  match subject s2 with
  | Some (q, n) =>
      let v := default 0%Q (q ≫= round_double) in
      (if neg then Qopp v else v, (ws + sg + n)%nat)
  | None => (0%Q, 0%nat)
  end.

Definition str2number (s : string) : option lua_Number :=
  let '(v, n) := strtod s in
  if (n =? String.length s)%nat && negb (n =? 0)%nat then Some v else None.

Definition host : Host :=
  {| lua_number2str := number2str; lua_str2number := str2number |}.

End Sample.

(** * Properties *)

(** ** The length of a table *)

Section ObjLen.

Lemma border_ge t f : forall i, (i <= border t i f)%Z.
Proof.
  induction f as [|f IH]; intros i; simpl; [lia|].
  destruct (lua_isnil _); [lia|]. specialize (IH (i + 1)%Z). lia.
Qed.

Lemma border_present t f : forall i j,
  (i < j <= border t i f)%Z -> lua_isnil (lua_rawgeti t j) = false.
Proof.
  induction f as [|f IH]; intros i j Hj; simpl in Hj; [lia|].
  destruct (lua_isnil (lua_rawgeti t (i + 1))) eqn:E; [lia|].
  destruct (decide (j = i + 1)%Z) as [->|Hne]; [exact E|].
  apply (IH (i + 1)%Z). lia.
Qed.

(** Every index up to the length holds a value. *)
Lemma objlen_present t i :
  (1 <= i <= lua_objlen t)%Z -> lua_isnil (lua_rawgeti t i) = false.
Proof. intros Hi. apply (border_present t (length t) 0). unfold lua_objlen in Hi. lia. Qed.

Lemma objlen_nonneg t : (0 <= lua_objlen t)%Z.
Proof. apply border_ge. Qed.

Lemma table_get_entry t k :
  lua_isnil (table_get t k) = false ->
  exists e, e ∈ t /\ lua_rawequal (fst e) k = true /\ snd e = table_get t k.
Proof.
  induction t as [|[k' v] r IH]; simpl; [discriminate|].
  destruct (lua_rawequal k' k) eqn:E; intros Hv.
  - exists (k', v). split; [left|]. by split.
  - destruct (IH Hv) as (e & He & Hk & Hs). exists e. split; [by right|]. by split.
Qed.

Lemma rawequal_index k i :
  lua_rawequal k (LNumber (inject_Z i)) = true ->
  exists n, k = LNumber n /\ num2int n = i /\ Qeq_bool (inject_Z (num2int n)) n = true.
Proof.
  destruct k as [| |n| | |]; simpl; try discriminate.
  intros E. apply Qeq_bool_eq in E. exists n.
  assert (Hi : num2int n = i).
  { unfold num2int. unfold Qeq in E. simpl in E.
    rewrite Z.mul_1_r in E. rewrite E. by apply Z.quot_mul. }
  split; [done|]. split; [done|].
  rewrite Hi. apply Qeq_eq_bool. by symmetry.
Qed.

End ObjLen.

Section Pigeonhole.

Definition key_index (k : lua_value) : option Z :=
  match k with
  | LNumber n => if Qeq_bool (inject_Z (num2int n)) n then Some (num2int n) else None
  | _ => None
  end.

Lemma omap_length_le {A B} (f : A -> option B) (l : list A) :
  (length (omap f l) <= length l)%nat.
Proof. induction l as [|a l IH]; csimpl; [lia|]. destruct (f a); csimpl; lia. Qed.

Lemma present_key_index t i :
  lua_isnil (lua_rawgeti t i) = false -> i ∈ omap key_index (t.*1).
Proof.
  intros Hp. destruct (table_get_entry t _ Hp) as ([k v] & He & Hk & _).
  simpl in Hk. destruct (rawequal_index _ _ Hk) as (n & -> & Hn & Hq).
  apply list_elem_of_omap. exists (LNumber n). split.
  - apply list_elem_of_fmap. by exists (LNumber n, v).
  - simpl. by rewrite Hq, Hn.
Qed.

(** A table holding a value at each of 1..n has at least n entries. *)
Lemma present_length t n :
  (forall i, (1 <= i <= n)%Z -> lua_isnil (lua_rawgeti t i) = false) ->
  (n <= Z.of_nat (length t))%Z.
Proof.
  intros Hall.
  assert (Hsub : seqZ 1 n ⊆+ omap key_index (t.*1)).
  { apply NoDup_submseteq; [apply NoDup_seqZ|].
    intros i Hi. apply elem_of_seqZ in Hi. apply present_key_index, Hall. lia. }
  apply submseteq_length in Hsub.
  rewrite length_seqZ in Hsub.
  pose proof (omap_length_le key_index (t.*1)) as Hl. rewrite length_fmap in Hl. lia.
Qed.

Lemma border_stop t f : forall i,
  (0 <= i)%Z -> (Z.to_nat i + f)%nat = length t ->
  (forall j, (1 <= j <= i)%Z -> lua_isnil (lua_rawgeti t j) = false) ->
  lua_isnil (lua_rawgeti t (border t i f + 1)) = true.
Proof.
  induction f as [|f IH]; intros i Hi Hlen Hall; simpl.
  - destruct (lua_isnil (lua_rawgeti t (i + 1))) eqn:E; [done|].
    assert (i + 1 <= Z.of_nat (length t))%Z; [|lia].
    apply present_length. intros j Hj.
    destruct (decide (j = i + 1)%Z) as [->|]; [done|]. apply Hall. lia.
  - destruct (lua_isnil (lua_rawgeti t (i + 1))) eqn:E; [done|].
    apply IH; [lia|lia|]. intros j Hj.
    destruct (decide (j = i + 1)%Z) as [->|]; [done|]. apply Hall. lia.
Qed.

(** The length is the largest N such that keys 1..N all hold a value. *)
Lemma objlen_stop t : lua_isnil (lua_rawgeti t (lua_objlen t + 1)) = true.
Proof. apply border_stop; [lia|simpl; lia|lia]. Qed.

Lemma objlen_unique t n :
  (0 <= n)%Z ->
  (forall i, (1 <= i <= n)%Z -> lua_isnil (lua_rawgeti t i) = false) ->
  lua_isnil (lua_rawgeti t (n + 1)) = true ->
  lua_objlen t = n.
Proof.
  intros Hn Hall Hstop.
  pose proof (objlen_stop t) as Hs. pose proof (objlen_nonneg t) as H0.
  destruct (Z.lt_trichotomy (lua_objlen t) n) as [Hlt|[Heq|Hgt]]; [|done|].
  - rewrite Hall in Hs; [done|lia].
  - rewrite objlen_present in Hstop; [done|lia].
Qed.

End Pigeonhole.

(** ** Classification (section 4.1) *)

Lemma forallb_agree {A} (f g : A -> bool) (l : list A) :
  (forall x, In x l -> f x = g x) -> forallb f l = forallb g l.
Proof.
  induction l as [|a l IH]; simpl; intros Hfg; [done|].
  rewrite (Hfg a), IH; auto.
Qed.

Section Classifier.
Context `{Host}.

(** Section 4.1 in its own words: "every key present in the table is an
    integer within [1, len]". *)
Definition integer_within (len : Z) (k : lua_value) : bool :=
  match k with
  | LNumber n =>
      Qeq_bool (inject_Z (num2int n)) n && (1 <=? num2int n)%Z && (num2int n <=? len)%Z
  | _ => false
  end.

Definition classifies_as_sequence (t : table) : bool :=
  forallb (fun e => integer_within (lua_objlen t) (fst e)) t.

Lemma json_no_hole t : Json.has_hole t (lua_objlen t) = false.
Proof.
  unfold Json.has_hole. destruct (existsb _ _) eqn:E; [|done].
  apply existsb_exists in E as (i & Hi & Hnil).
  apply list_elem_of_In, elem_of_seqZ in Hi.
  rewrite objlen_present in Hnil; [done|lia].
Qed.

Lemma yaml_no_hole t : Yaml.has_hole t (lua_objlen t) = false.
Proof. apply json_no_hole. Qed.

(** The YAML classifier applies the rule of section 4.1 to a table that has
    a key. *)
Lemma yaml_is_array_rule e t :
  Yaml.is_array (e :: t) = (classifies_as_sequence (e :: t), lua_objlen (e :: t)).
Proof.
  unfold Yaml.is_array. rewrite yaml_no_hole. f_equal.
  unfold classifies_as_sequence. apply forallb_agree. intros [k v] _.
  unfold Yaml.key_in_range, integer_within. destruct k as [| |n| | |]; simpl; try done.
  destruct (Qeq_bool _ n); simpl; [|done].
  rewrite Z.gtb_ltb.
  destruct (Z.ltb_spec (num2int n) 1), (Z.leb_spec 1 (num2int n)),
    (Z.ltb_spec (lua_objlen (e :: t)) (num2int n)),
    (Z.leb_spec (num2int n) (lua_objlen (e :: t))); simpl; try lia; done.
Qed.

(** The JSON classifier truncates a number key before it compares it. *)
Definition truncates_within (len : Z) (k : lua_value) : bool :=
  match k with
  | LNumber n => (1 <=? num2int n)%Z && (num2int n <=? len)%Z
  | _ => false
  end.

Lemma json_is_array_rule e t :
  Json.is_array (e :: t) =
    (forallb (fun e' => truncates_within (lua_objlen (e :: t)) (fst e')) (e :: t),
     lua_objlen (e :: t)).
Proof.
  unfold Json.is_array. rewrite andb_false_r, json_no_hole. f_equal.
  apply forallb_agree. intros [k v] _.
  unfold Json.key_in_range, truncates_within. destruct k as [| |n| | |]; simpl; try done.
  unfold lua_tointeger; simpl.
  rewrite Z.gtb_ltb.
  destruct (Z.ltb_spec (num2int n) 1), (Z.leb_spec 1 (num2int n)),
    (Z.ltb_spec (lua_objlen (e :: t)) (num2int n)),
    (Z.leb_spec (num2int n) (lua_objlen (e :: t))); simpl; try lia; done.
Qed.

(** On a table whose number keys are all integers the two classifiers
    agree. *)
Definition integral_keys (t : table) : bool :=
  forallb (fun e => match fst e with
                    | LNumber n => Qeq_bool (inject_Z (num2int n)) n
                    | _ => true
                    end) t.

Lemma json_yaml_agree e t :
  integral_keys (e :: t) = true -> Json.is_array (e :: t) = Yaml.is_array (e :: t).
Proof.
  intros Hint. rewrite json_is_array_rule, yaml_is_array_rule. f_equal.
  unfold classifies_as_sequence. unfold integral_keys in Hint.
  rewrite forallb_forall in Hint.
  apply forallb_agree. intros [k v] Hin. specialize (Hint _ Hin). simpl in Hint.
  unfold truncates_within, integer_within. destruct k; simpl; try done.
  by rewrite Hint.
Qed.

End Classifier.

Lemma heap_table_insert (h : gmap positive table) p t : heap_table (<[p := t]> h) p = t.
Proof. unfold heap_table. by rewrite lookup_insert_eq. Qed.

Lemma heap_table_insert_ne (h : gmap positive table) p q t :
  p <> q -> heap_table (<[p := t]> h) q = heap_table h q.
Proof. intros Hne. unfold heap_table. by rewrite lookup_insert_ne. Qed.

(** ** The empty table (C3) *)

Section EmptyTable.
Context `{Host}.

(** C3, as the code has it: an empty table is an empty Sequence for the YAML
    encoder, and an empty object for the JSON encoder, whose text for it is
    the two braces. *)
Theorem empty_table_encoding (dump_float : lua_Number -> string)
    (h : gmap positive table) (p : positive) (fuel : nat) :
  Yaml.is_array [] = (true, 0%Z) /\
  Json.is_array [] = (false, 0%Z) /\
  Yaml.yamlserialize_node (S fuel) (<[p := []]> h) (LTable p) = Ok (Yaml.Sequence []) /\
  Json.jsonserialize_tree (S fuel) (<[p := []]> h) (LTable p) = Ok (Json.JObject []) /\
  Json.jsonserialize dump_float (S fuel) (<[p := []]> h) (LTable p) = Ok "{}".
Proof.
  assert (Hj : Json.jsonserialize_tree (S fuel) (<[p := []]> h) (LTable p) = Ok (Json.JObject [])).
  { unfold Json.jsonserialize_tree. simpl.
    unfold Json.encode_table, bind, seen_count. simpl.
    rewrite heap_table_insert. by destruct fuel. }
  repeat split; try done.
  - unfold Yaml.yamlserialize_node. simpl.
    unfold Yaml.encode_lua_table, bind, seen_count. simpl.
    by rewrite heap_table_insert.
  - unfold Json.jsonserialize. by rewrite Hj.
Qed.

End EmptyTable.

(** The claim's text for the empty table, an empty array, is not what the
    JSON encoder writes. *)
Lemma empty_table_json_text :
  @Json.jsonserialize Sample.host Sample.number2str 1 {[1%positive := []]} (LTable 1) = Ok "{}" /\
  Json.dump Sample.number2str (Json.JArray []) = "[]".
Proof. split; vm_compute; reflexivity. Qed.

(** ** Empty input (C4) *)

Section EmptyInput.

(** C4, as the code has it: the JSON, YAML and XML decoders refuse the empty
    string before they call their parser; the TOML decoder has no such test
    and returns what its parser makes of the empty document. *)
Theorem empty_input (sax_parse : string -> list Json.sax_event)
    (strtod : string -> lua_Number * nat) (scalar_text : Yaml.Node -> string)
    (Load : string -> string + Yaml.Node)
    (Parse : string -> string + option Xml.XMLElement)
    (parse : string -> string + list (string * Toml.node))
    (h : gmap positive table) :
  Json.jsondeserialize sax_parse h "" = Error "cannot deserialize empty string" /\
  Yaml.yamldeserialize strtod scalar_text Load "" h = Error "cannot deserialize empty string" /\
  Xml.xmldeserialize Parse "" h = Error "cannot deserialize empty string" /\
  Toml.tomldeserialize parse "" h =
    match parse "" with
    | inr tbl => Toml.push_toml_table tbl h
    | inl description => Error description
    end.
Proof.
  repeat split. unfold Toml.tomldeserialize. by destruct (parse "").
Qed.

End EmptyInput.

(** The empty document is a TOML document: its table has no key. *)
Lemma toml_empty_input :
  Toml.tomldeserialize (fun _ => inr []) "" ∅ = Ok (LTable 1, {[1%positive := []]}).
Proof. vm_compute. reflexivity. Qed.

(** ** One rule for JSON and YAML (C2) *)

Definition abc_table : table :=
  [(LNumber 1, LString "a"); (LNumber 2, LString "b"); (LNumber 3, LString "c")].
Definition hole_table : table :=
  [(LNumber 1, LString "a"); (LNumber 3, LString "c")].
(** [{[1]="a", [1.5]="b"}] *)
Definition fractional_key_table : table :=
  [(LNumber 1, LString "a"); (LNumber (3 # 2), LString "b")].

Section FractionalKey.
Context `{Host}.

(** C2 at [{[1]="a", [1.5]="b"}]: the key 1.5 is no integer, so section 4.1
    makes the table a Mapping, and the YAML classifier does; the JSON
    classifier truncates 1.5 to 1, finds it within [1, 1], and the encoder
    writes the array of the one element at index 1. *)
Theorem fractional_key_classification :
  classifies_as_sequence fractional_key_table = false /\
  Yaml.is_array fractional_key_table = (false, 1%Z) /\
  Json.is_array fractional_key_table = (true, 1%Z) /\
  Json.jsonserialize_tree 2 {[1%positive := fractional_key_table]} (LTable 1)
    = Ok (Json.JArray [Json.JString "a"]).
Proof. repeat split; vm_compute; reflexivity. Qed.

End FractionalKey.

(** The spec's two examples, in both encoders: [{"a", "b", "c"}] is written
    as a sequence; [{[1]="a", [3]="c"}] is taken for a mapping, and the
    traversal of its number keys fails. *)
Lemma classification_examples :
  @Json.jsonserialize Sample.host Sample.number2str 2 {[1%positive := abc_table]} (LTable 1)
    = Ok ("[" ++ Json.quoted "a" ++ "," ++ Json.quoted "b" ++ "," ++ Json.quoted "c" ++ "]") /\
  @Yaml.yamlserialize_node Sample.host 2 {[1%positive := abc_table]} (LTable 1)
    = Ok (Yaml.Sequence [Yaml.Scalar "a"; Yaml.Scalar "b"; Yaml.Scalar "c"]) /\
  @Json.is_array Sample.host hole_table = (false, 1%Z) /\
  @Yaml.is_array Sample.host hole_table = (false, 1%Z) /\
  @Json.jsonserialize Sample.host Sample.number2str 2 {[1%positive := hole_table]} (LTable 1)
    = Error "invalid key to 'next'" /\
  @Yaml.yamlserialize_node Sample.host 2 {[1%positive := hole_table]} (LTable 1)
    = Error "invalid key to 'next'".
Proof. repeat split; vm_compute; reflexivity. Qed.

(** ** The TOML classifier (C5) *)

(** [{x = {"a"}}] *)
Definition nested_list_heap : gmap positive table :=
  {[1%positive := [(LString "x", LTable 2)]; 2%positive := [(LNumber 1, LString "a")]]}.

Section TomlClassifier.
Context `{Host}.

Lemma toml_first_rejected e t :
  existsb (Toml.key_rejected (lua_objlen (e :: t))) (e :: t) = true.
Proof.
  set (len := lua_objlen (e :: t)).
  destruct (Z.ltb_spec len 1) as [Hlt|Hge].
  - simpl. apply orb_true_iff. left.
    unfold Toml.key_rejected. destruct (lua_type (fst e)); try done;
      rewrite Z.gtb_ltb;
      destruct (Z.ltb_spec (lua_tointeger (fst e)) 1),
        (Z.ltb_spec len (lua_tointeger (fst e))); simpl; try done; lia.
  - assert (Hp : lua_isnil (lua_rawgeti (e :: t) 1) = false).
    { apply objlen_present. fold len. lia. }
    destruct (table_get_entry _ _ Hp) as ([k v] & Hin & Hk & _).
    simpl in Hk. destruct (rawequal_index _ _ Hk) as (n & -> & _).
    apply existsb_exists. exists (LNumber n, v). split; [by apply list_elem_of_In|done].
Qed.

Lemma toml_is_array_nil t : Toml.is_array t = match t with [] => true | _ => false end.
Proof.
  destruct t as [|e t]; [reflexivity|].
  unfold Toml.is_array. by rewrite toml_first_rejected.
Qed.

(** C5 on the code: the test [lua_type(L, -2) == LUA_TNUMBER] rejects every
    number key, so the classifier accepts a table only when it has no key;
    the list nested in [{x = {"a"}}] is traversed as a table, and the
    traversal fails on its number key. *)
Theorem toml_is_array_empty_only :
  (forall t, Toml.is_array t = match t with [] => true | _ => false end) /\
  Toml.is_array [(LNumber 1, LString "a")] = false /\
  Toml.tomlserialize_node 3 nested_list_heap (LTable 1) = Error "invalid key to 'next'".
Proof.
  split; [apply toml_is_array_nil|split; vm_compute; reflexivity].
Qed.

End TomlClassifier.

(** ** YAML scalars (C8) *)

(** The text of the scalar ["1\0x"]. *)
Definition one_nul_x : string := String "1" (String NUL (String "x" EmptyString)).

Section YamlScalar.
Variable strtod : string -> lua_Number * nat.

Lemma get_end_of_c_str s :
  String.get (String.length (c_str s)) (s ++ String NUL EmptyString) = Some NUL.
Proof.
  induction s as [|c r IH]; simpl; [done|].
  destruct (Ascii.eqb_spec c NUL) as [->|Hc]; simpl; done.
Qed.

Lemma get_c_string s n :
  c_str s = s ->
  match String.get n (s ++ String NUL EmptyString) with
  | Some c => Ascii.eqb c NUL
  | None => false
  end = (n =? String.length s)%nat.
Proof.
  revert n. induction s as [|c r IH]; intros n; simpl.
  - intros _. destruct n as [|n]; simpl; [done|]. by destruct n.
  - destruct (Ascii.eqb_spec c NUL) as [->|Hc]; [discriminate|].
    intros Hr. injection Hr as Hr. destruct n as [|n]; simpl.
    + by apply Ascii.eqb_neq.
    + by apply IH.
Qed.

(** C8 on the code: [parse_number] hands [std::strtod] the C string and
    accepts when the parse stops at a NUL, so a text whose bytes before its
    first NUL are a number is typed as that Number, whatever follows the
    NUL. *)
Theorem number_before_nul s out :
  strtod (c_str s) = (out, String.length (c_str s)) ->
  (0 < String.length (c_str s))%nat ->
  Yaml.parse_number strtod s = Some out.
Proof.
  intros Hparse Hlen. unfold Yaml.parse_number. rewrite Hparse, get_end_of_c_str.
  rewrite Ascii.eqb_refl. simpl.
  destruct (String.length (c_str s)); [lia|done].
Qed.

(** On a text without NUL the decoder types a scalar as the spec says:
    the six boolean spellings, then a numeric parse of the whole text, then
    the text itself. *)
Lemma scalar_typing s :
  c_str s = s ->
  Yaml.push_scalar strtod s =
    if String.eqb s "true" || String.eqb s "True" || String.eqb s "TRUE" then LBoolean true
    else if String.eqb s "false" || String.eqb s "False" || String.eqb s "FALSE" then LBoolean false
    else if (snd (strtod s) =? String.length s)%nat && negb (snd (strtod s) =? 0)%nat
         then LNumber (fst (strtod s))
         else LString s.
Proof.
  intros Hs. unfold Yaml.push_scalar, Yaml.parse_number. rewrite Hs.
  destruct (strtod s) as [out n]; simpl.
  pose proof (get_c_string s n Hs) as Hg.
  destruct (String.get n _) as [c|]; rewrite <- Hg; [|done].
  by destruct (Ascii.eqb c NUL), (n =? 0)%nat.
Qed.

End YamlScalar.

Lemma number_before_nul_witness :
  Yaml.parse_number Sample.strtod one_nul_x = Some 1%Q /\
  Yaml.push_scalar Sample.strtod one_nul_x = LNumber 1 /\
  String.length one_nul_x = 3%nat.
Proof.
  split; [|split; vm_compute; reflexivity].
  apply (number_before_nul Sample.strtod one_nul_x 1%Q); [reflexivity|vm_compute; lia].
Defined.

(** ** Loops *)

Lemma for_each_lookup {A B} (f : A -> Enc B) (l : list A) : forall seen ys seen',
  for_each f l seen = Ok (ys, seen') ->
  forall i x, l !! i = Some x ->
  exists s1 s2 y, f x s1 = Ok (y, s2) /\ ys !! i = Some y.
Proof.
  induction l as [|a l IH]; intros seen ys seen' Hrun i x Hi; [done|].
  simpl in Hrun. unfold bind in Hrun.
  destruct (f a seen) as [[y s1]| |] eqn:Ea; try done.
  destruct (for_each f l s1) as [[ys' s2]| |] eqn:El; try done.
  unfold ret in Hrun. injection Hrun as <- <-.
  destruct i as [|i]; simpl in Hi.
  - injection Hi as <-. by exists seen, s1, y.
  - destruct (IH _ _ _ El i x Hi) as (t1 & t2 & y' & Hy & Hl). by exists t1, t2, y'.
Qed.

(** What holds of every result of the body holds of what the loop
    collects. *)
Lemma for_each_results {A B} (f : A -> Enc B) (Q : B -> Prop) (l : list A) :
  (forall x s y s', x ∈ l -> f x s = Ok (y, s') -> Q y) ->
  forall seen ys seen', for_each f l seen = Ok (ys, seen') -> Forall Q ys.
Proof.
  induction l as [|a l IH]; intros Hf seen ys seen' Hrun; simpl in Hrun.
  - unfold ret in Hrun. injection Hrun as <- _. constructor.
  - unfold bind in Hrun. destruct (f a seen) as [[y s1]| |] eqn:Ea; try done.
    destruct (for_each f l s1) as [[ys' s2]| |] eqn:El; try done.
    unfold ret in Hrun. injection Hrun as <- _. constructor.
    + apply (Hf a seen y s1); [by left|done].
    + apply (IH (fun x s y0 s' Hx => Hf x s y0 s' (proj2 (elem_of_cons _ _ _) (or_intror Hx))) _ _ _ El).
Qed.

Lemma rawequal_refl k : lua_rawequal k k = true.
Proof.
  destruct k as [|b|n|s|p|p]; simpl; try done.
  - by destruct b.
  - apply Qeq_eq_bool. reflexivity.
  - apply String.eqb_refl.
  - apply Pos.eqb_refl.
  - apply Pos.eqb_refl.
Qed.

Lemma rawequal_sym a b : lua_rawequal a b = lua_rawequal b a.
Proof.
  destruct a as [|x|x|x|x|x], b as [|y|y|y|y|y]; simpl; try done.
  - by destruct x, y.
  - destruct (Qeq_bool x y) eqn:E1, (Qeq_bool y x) eqn:E2; try done.
    + apply Qeq_bool_eq in E1. symmetry in E1. apply Qeq_eq_bool in E1. congruence.
    + apply Qeq_bool_eq in E2. symmetry in E2. apply Qeq_eq_bool in E2. congruence.
  - apply String.eqb_sym.
  - apply Pos.eqb_sym.
  - apply Pos.eqb_sym.
Qed.

Lemma rawequal_trans a b c :
  lua_rawequal a b = true -> lua_rawequal b c = true -> lua_rawequal a c = true.
Proof.
  destruct a as [|x|x|x|x|x], b as [|y|y|y|y|y]; simpl; try done;
    destruct c as [|z|z|z|z|z]; simpl; try done.
  - by destruct x, y, z.
  - intros E1 E2. apply Qeq_bool_eq in E1, E2. apply Qeq_eq_bool. by rewrite E1.
  - intros E1 E2. apply String.eqb_eq in E1, E2. subst. apply String.eqb_refl.
  - intros E1 E2. apply Pos.eqb_eq in E1, E2. subst. apply Pos.eqb_refl.
  - intros E1 E2. apply Pos.eqb_eq in E1, E2. subst. apply Pos.eqb_refl.
Qed.

(** Equal keys look the same to every other key. *)
Lemma rawequal_same a b c : lua_rawequal a b = true -> lua_rawequal a c = lua_rawequal b c.
Proof.
  intros Hab. destruct (lua_rawequal a c) eqn:Hac, (lua_rawequal b c) eqn:Hbc; try done.
  - rewrite rawequal_sym in Hab. by rewrite (rawequal_trans _ _ _ Hab Hac) in Hbc.
  - by rewrite (rawequal_trans _ _ _ Hab Hbc) in Hac.
Qed.

(** ** The traversal of a table *)

(** A table in which no number key has, among the keys, the string it
    converts to. *)
Definition has_key (t : table) (k : lua_value) : bool :=
  existsb (fun e => lua_rawequal (fst e) k) t.

Definition twin_free `{Host} (t : table) : bool :=
  forallb (fun e => match fst e with
                    | LNumber _ => negb (has_key t (after_tostring (fst e)))
                    | _ => true
                    end) t.

(** The tables whose keys are all strings. *)
Definition string_keys (t : table) : Prop :=
  Forall (fun e => exists k, fst e = LString k) t.

Section Traversal.
Context `{Host}.
Context {C : Type}.
Variable body : C -> lua_value * lua_value -> Enc (C * lua_value).

(** An iteration followed by [lua_next] in such a table: the traversal goes
    on at the next entry when the key is as it was, and ends with the error
    of [lua_next] when it was converted. *)
Definition entry_step (acc : C) (e : lua_value * lua_value) : Enc C :=
  let* r := body acc e in
  if lua_rawequal (fst e) (snd r) then ret (fst r) else luaL_error "invalid key to 'next'".

(** The body leaves in the slot the key it was given, or what
    [lua_tostring] made of it. *)
Definition keeps_slot : Prop :=
  forall acc e s acc' k s',
    body acc e s = Ok ((acc', k), s') -> k = fst e \/ k = after_tostring (fst e).

Lemma entries_after_absent t k : has_key t k = false -> entries_after t k = None.
Proof.
  induction t as [|e t IH]; simpl; [done|].
  destruct (lua_rawequal (fst e) k); [done|]. exact IH.
Qed.

Lemma visit_twin_free t resume : keeps_slot -> forall rest acc s,
  (forall e, e ∈ rest -> match fst e with
                        | LNumber _ => has_key t (after_tostring (fst e)) = false
                        | _ => True
                        end) ->
  visit body t resume acc rest s = for_loop entry_step acc rest s.
Proof.
  intros Hslot. induction rest as [|e rest IH]; intros acc s Hfree; [done|].
  cbn [visit for_loop]. unfold entry_step at 1. unfold bind.
  destruct (body acc e s) as [[[acc' k] s']| |] eqn:Eb; [|done|done].
  cbn [fst snd].
  destruct (lua_rawequal (fst e) k) eqn:Ek.
  - unfold ret. apply IH. intros e' He'. apply Hfree. by right.
  - destruct (Hslot _ _ _ _ _ _ Eb) as [->| ->]; [by rewrite rawequal_refl in Ek|].
    pose proof (Hfree e (proj2 (elem_of_cons _ _ _) (or_introl eq_refl))) as Hno.
    destruct (fst e) as [| |n| | |] eqn:Ee; try (by rewrite rawequal_refl in Ek).
    by rewrite (entries_after_absent _ _ Hno).
Qed.

(** In such a table the traversal is a loop over the entries, in order. *)
Lemma while_next_twin_free fuel t acc s :
  keeps_slot -> twin_free t = true ->
  while_next body fuel acc t s = for_loop entry_step acc t s.
Proof.
  intros Hslot Hfree. unfold while_next.
  assert (Hall : forall e, e ∈ t -> match fst e with
                                    | LNumber _ => has_key t (after_tostring (fst e)) = false
                                    | _ => True
                                    end).
  { intros e He. unfold twin_free in Hfree. rewrite forallb_forall in Hfree.
    specialize (Hfree e (proj1 (list_elem_of_In _ _) He)).
    destruct (fst e); try done. by apply negb_true_iff in Hfree. }
  destruct fuel; simpl; by apply visit_twin_free.
Qed.

(** What every iteration keeps, the traversal keeps, whatever the keys. *)
Lemma visit_invariant (P : C -> gset positive -> Prop) t resume :
  (forall acc e s acc' k s', P acc s -> body acc e s = Ok ((acc', k), s') -> P acc' s') ->
  (forall acc r s acc' s', P acc s -> resume acc r s = Ok (acc', s') -> P acc' s') ->
  forall rest acc s acc' s',
    P acc s -> visit body t resume acc rest s = Ok (acc', s') -> P acc' s'.
Proof.
  intros Hbody Hres. induction rest as [|e rest IH]; intros acc s acc' s' Hacc; cbn [visit].
  - unfold ret. by intros [= <- <-].
  - unfold bind. destruct (body acc e s) as [[[acc1 k] s1]| |] eqn:Eb; try done.
    pose proof (Hbody _ _ _ _ _ _ Hacc Eb) as H1.
    destruct (lua_rawequal (fst e) k); [by apply IH|].
    destruct (entries_after t k) as [r|]; [by apply Hres|done].
Qed.

Lemma next_from_invariant (P : C -> gset positive -> Prop) t :
  (forall acc e s acc' k s', P acc s -> body acc e s = Ok ((acc', k), s') -> P acc' s') ->
  forall fuel rest acc s acc' s',
    P acc s -> next_from body t fuel acc rest s = Ok (acc', s') -> P acc' s'.
Proof.
  intros Hbody. induction fuel as [|fuel IH]; intros rest acc s acc' s' Hacc Hrun;
    simpl in Hrun; revert Hrun; apply visit_invariant; try done.
  intros a r s0 a' s0' Ha Hr. by apply (IH r a s0).
Qed.

Lemma while_next_invariant (P : C -> gset positive -> Prop) fuel t acc s acc' s' :
  (forall acc e s acc' k s', P acc s -> body acc e s = Ok ((acc', k), s') -> P acc' s') ->
  P acc s -> while_next body fuel acc t s = Ok (acc', s') -> P acc' s'.
Proof. intros Hbody. apply next_from_invariant. exact Hbody. Qed.

End Traversal.

Lemma string_keys_twin_free `{Host} t : string_keys t -> twin_free t = true.
Proof.
  intros Hkeys. unfold twin_free. apply forallb_forall. intros e He.
  apply list_elem_of_In in He.
  destruct (proj1 (Forall_forall _ _) Hkeys _ He) as (k & ->). done.
Qed.

(** ** Nil in the YAML encoder (C7) *)

(** [{a = nil, b = true}], as the encoder's loop would meet it, and
    [{[1] = true, [3] = false}], the sequence [true, nil, false]. *)
Definition nil_entry_table : table := [(LString "a", LNil); (LString "b", LBoolean true)].
Definition holed_heap : gmap positive table :=
  {[1%positive := [(LNumber 1, LBoolean true); (LNumber 3, LBoolean false)]]}.

(** A node with no null in it. *)
Fixpoint null_free (n : Yaml.Node) : bool :=
  match n with
  | Yaml.Null => false
  | Yaml.Sequence l => forallb null_free l
  | Yaml.Map l => forallb (fun kv => null_free (fst kv) && null_free (snd kv)) l
  | _ => true
  end.

Section YamlNil.
Context `{Host}.

(** The node of a boolean, a number or a string. *)
Definition scalar_node (v : lua_value) : option Yaml.Node :=
  match v with
  | LBoolean b => Some (Yaml.OfBool b)
  | LNumber n => Some (Yaml.OfDouble n)
  | LString s => Some (Yaml.Scalar (c_str s))
  | _ => None
  end.

(** Section 4.3 in its own words, on a table of string keys and of values
    that are no tables: "Nil as a Mapping value is instead omitted (the key
    is dropped)", and every other entry is set under its key. *)
Fixpoint mapping_of (t : table) (m : list (Yaml.Node * Yaml.Node)) : list (Yaml.Node * Yaml.Node) :=
  match t with
  | [] => m
  | e :: r =>
      match scalar_node (snd e) with
      | Some n => mapping_of r (Yaml.map_set (lua_tostring (fst e)) n m)
      | None => mapping_of r m
      end
  end.

Definition flat_entry (e : lua_value * lua_value) : bool :=
  match fst e, snd e with
  | LString _, (LNil | LBoolean _ | LNumber _ | LString _) => true
  | _, _ => false
  end.

Lemma yaml_keeps_slot enc : keeps_slot (Yaml.map_entry enc).
Proof.
  intros acc e s acc' k s'. unfold Yaml.map_entry.
  destruct (negb (lua_isstring (fst e))); [done|].
  destruct (lua_isnil (snd e)); [unfold ret; intros [= _ <- _]; by left|].
  unfold bind. destruct (enc (snd e) s) as [[n s1]| |]; try done.
  unfold ret. intros [= _ <- _]. by right.
Qed.

Lemma flat_entry_string_keys t : forallb flat_entry t = true -> string_keys t.
Proof.
  intros Hflat. apply Forall_forall. intros e He.
  apply list_elem_of_In in He. rewrite forallb_forall in Hflat. specialize (Hflat e He).
  unfold flat_entry in Hflat. destruct (fst e); try done. by eexists.
Qed.

Lemma flat_loop fuel h t : forall m s,
  forallb flat_entry t = true ->
  for_loop (entry_step (Yaml.map_entry (Yaml.encode_lua_value (S fuel) h))) m t s
  = Ok (mapping_of t m, s).
Proof.
  induction t as [|[k v] t IH]; intros m s Hflat; [done|].
  simpl in Hflat. apply andb_prop in Hflat as [He Ht].
  unfold flat_entry in He. simpl in He.
  destruct k as [| | |k| |]; try done.
  cbn [for_loop mapping_of fst snd]. unfold bind at 1.
  unfold entry_step, Yaml.map_entry, bind. cbn [fst snd lua_isstring negb].
  destruct v as [|b|n|x| |]; try done; cbn; rewrite ?String.eqb_refl; cbn.
  - by apply IH.
  - rewrite (IH _ _ Ht). by destruct b.
  - by rewrite (IH _ _ Ht).
  - by rewrite (IH _ _ Ht).
Qed.

Lemma map_set_null_free k n m :
  null_free n = true ->
  forallb (fun kv => null_free (fst kv) && null_free (snd kv)) m = true ->
  forallb (fun kv => null_free (fst kv) && null_free (snd kv)) (Yaml.map_set k n m) = true.
Proof.
  intros Hn. induction m as [|[k' v'] m IH]; simpl; [by rewrite Hn|].
  intros Hm. apply andb_prop in Hm as [Hkv Hm].
  destruct k' as [|k'| | | |]; simpl in *; try done;
    try (by rewrite Hkv, IH).
  destruct (String.eqb k' k); simpl; [by rewrite Hn, Hm|by rewrite Hkv, IH].
Qed.

(** The encoder writes no null for a value that is not nil. *)
Lemma yaml_never_null h fuel : forall v seen n s,
  lua_isnil v = false ->
  Yaml.encode_lua_value fuel h v seen = Ok (n, s) -> null_free n = true.
Proof.
  induction fuel as [|fuel IH]; intros v seen n s Hv; [done|].
  destruct v as [|b|x|x|p|]; cbn [Yaml.encode_lua_value]; try done;
    try (unfold ret; by intros [= <- _]).
  unfold Yaml.encode_lua_table, bind, seen_count, seen_insert.
  destruct (bool_decide (p ∈ seen)); [done|].
  destruct (Yaml.is_array (heap_table h p)) as [[] len] eqn:Earr.
  - destruct (for_each _ _ _) as [[ys s1]| |] eqn:El; try done.
    unfold seen_erase, ret. intros [= <- _]. simpl.
    apply forallb_forall. intros y Hy. apply list_elem_of_In in Hy.
    revert y Hy. apply Forall_forall.
    refine (for_each_results _ (fun y => null_free y = true) _ _ _ _ _ El).
    intros i s0 y s0' Hi Hrun. apply elem_of_seqZ in Hi.
    assert (Hlen : len = lua_objlen (heap_table h p)).
    { unfold Yaml.is_array in Earr. destruct (heap_table h p); [by injection Earr|].
      destruct (Yaml.has_hole _ _); by injection Earr. }
    assert (Hpres : lua_isnil (lua_rawgeti (heap_table h p) i) = false)
      by (apply objlen_present; lia).
    apply (IH _ _ _ _ Hpres Hrun).
  - destruct (while_next _ _ _ _ _) as [[m s1]| |] eqn:El; try done.
    unfold seen_erase, ret. intros [= <- _]. simpl.
    revert El.
    apply (while_next_invariant _
             (fun m _ => forallb (fun kv => null_free (fst kv) && null_free (snd kv)) m = true));
      [|done].
    intros acc e s0 acc' k s0' Hacc. unfold Yaml.map_entry.
    destruct (negb (lua_isstring (fst e))); [done|].
    destruct (lua_isnil (snd e)) eqn:En; [unfold ret; by intros [= <- _ _]|].
    unfold bind. destruct (Yaml.encode_lua_value fuel h (snd e) s0) as [[y s2]| |] eqn:Ey; try done.
    unfold ret. intros [= <- _ _]. apply map_set_null_free; [|done].
    by apply (IH _ _ _ _ En Ey).
Qed.


End YamlNil.


(** ** Strings with an embedded NUL (C10) *)

Definition truncate (v : lua_value) : lua_value :=
  match v with
  | LString s => LString (c_str s)
  | _ => v
  end.

Definition truncate_table (t : table) : table :=
  map (fun e => (truncate (fst e), truncate (snd e))) t.

Definition truncate_heap (h : gmap positive table) : gmap positive table :=
  truncate_table <$> h.

(** [{tag = "a\0b"}] *)
Definition nul_tag_heap : gmap positive table :=
  {[1%positive := [(LString "tag", LString (String "a" (String NUL (String "b" EmptyString))))]]}.

Lemma for_each_ext {A B} (f g : A -> Enc B) (l : list A) :
  (forall x seen, f x seen = g x seen) ->
  forall seen, for_each f l seen = for_each g l seen.
Proof.
  intros Hfg. induction l as [|a l IH]; intros seen; simpl; [done|].
  unfold bind. rewrite Hfg. destruct (g a seen) as [[y s]| |]; [|done|done].
  by rewrite IH.
Qed.

Lemma for_loop_fmap {A A' C} (f : C -> A -> Enc C) (g : C -> A' -> Enc C)
    (m : A' -> A) (l : list A') :
  (forall acc x seen, f acc (m x) seen = g acc x seen) ->
  forall acc seen, for_loop f acc (map m l) seen = for_loop g acc l seen.
Proof.
  intros Hfg. induction l as [|a l IH]; intros acc seen; simpl; [done|].
  unfold bind. rewrite Hfg. destruct (g acc a seen) as [[y s]| |]; [|done|done].
  apply IH.
Qed.

Lemma forallb_of_map {A A'} (f : A -> bool) (m : A' -> A) (l : list A') :
  forallb f (map m l) = forallb (fun x => f (m x)) l.
Proof. induction l as [|a l IH]; simpl; [done|]. by rewrite IH. Qed.

(** The tables in which no number key has the string it converts to among
    the keys, before or after the strings are cut. *)
Definition cut_safe `{Host} (t : table) : bool :=
  twin_free t && twin_free (truncate_table t).

(** The element records cutting leaves as they are read: no key is cut to
    the name of a field, no tag has a NUL, no text begins with one. *)
Definition field_names : list string := ["tag"; "attr"; "text"; "children"].

Definition is_c_str (s : string) : bool := String.eqb (c_str s) s.

Definition record_cut_safe (t : table) : bool :=
  forallb (fun e =>
    match fst e with
    | LString k =>
        (if existsb (String.eqb (c_str k)) field_names then is_c_str k else true) &&
        match snd e with
        | LString s =>
            if String.eqb k "tag" then is_c_str s
            else if String.eqb k "text"
                 then negb (String.length (c_str s) =? 0)%nat || (String.length s =? 0)%nat
                 else true
        | _ => true
        end
    | _ => true
    end) t.

Section Truncation.
Context `{Host}.

Lemma c_str_idem s : c_str (c_str s) = c_str s.
Proof.
  induction s as [|c r IH]; simpl; [done|].
  destruct (Ascii.eqb c NUL) eqn:E; simpl; [done|]. by rewrite E, IH.
Qed.

Lemma tostring_truncate v : lua_tostring (truncate v) = lua_tostring v.
Proof. destruct v; simpl; try done. unfold lua_tostring. simpl. apply c_str_idem. Qed.

Lemma isstring_truncate v : lua_isstring (truncate v) = lua_isstring v.
Proof. by destruct v. Qed.

Lemma isnil_truncate v : lua_isnil (truncate v) = lua_isnil v.
Proof. by destruct v. Qed.

(** Whether [lua_tostring] leaves a key as it was. *)
Lemma slot_kept k :
  lua_rawequal k (after_tostring k) = match k with LNumber _ => false | _ => true end.
Proof. destruct k; try apply rawequal_refl. done. Qed.

Lemma slot_kept_truncate k :
  lua_rawequal (truncate k) (after_tostring (truncate k)) = lua_rawequal k (after_tostring k).
Proof. rewrite !slot_kept. by destruct k. Qed.

Lemma table_get_truncate t n :
  table_get (truncate_table t) (LNumber n) = truncate (table_get t (LNumber n)).
Proof.
  induction t as [|[k v] t IH]; simpl; [done|].
  replace (lua_rawequal (truncate k) (LNumber n)) with (lua_rawequal k (LNumber n))
    by (by destruct k).
  by destruct (lua_rawequal k (LNumber n)).
Qed.

Lemma rawgeti_truncate t i : lua_rawgeti (truncate_table t) i = truncate (lua_rawgeti t i).
Proof. apply table_get_truncate. Qed.

Lemma border_truncate t f : forall i, border (truncate_table t) i f = border t i f.
Proof.
  induction f as [|f IH]; intros i; simpl; [done|].
  by rewrite rawgeti_truncate, isnil_truncate, IH.
Qed.

Lemma objlen_truncate t : lua_objlen (truncate_table t) = lua_objlen t.
Proof. unfold lua_objlen, truncate_table. rewrite length_map. apply border_truncate. Qed.

Lemma heap_table_truncate h p :
  heap_table (truncate_heap h) p = truncate_table (heap_table h p).
Proof.
  unfold heap_table, truncate_heap. rewrite lookup_fmap. by destruct (h !! p).
Qed.

Lemma existsb_agree {A} (f g : A -> bool) (l : list A) :
  (forall x, f x = g x) -> existsb f l = existsb g l.
Proof. intros Hfg. induction l as [|a l IH]; simpl; [done|]. by rewrite Hfg, IH. Qed.

Lemma json_is_array_truncate t : Json.is_array (truncate_table t) = Json.is_array t.
Proof.
  unfold Json.is_array. rewrite objlen_truncate.
  replace (match truncate_table t with [] => true | _ => false end)
    with (match t with [] => true | _ => false end) by (by destruct t).
  replace (Json.has_hole (truncate_table t) (lua_objlen t))
    with (Json.has_hole t (lua_objlen t)).
  2:{ unfold Json.has_hole. apply existsb_agree. intros i.
      by rewrite rawgeti_truncate, isnil_truncate. }
  replace (forallb (Json.key_in_range (lua_objlen t)) (truncate_table t))
    with (forallb (Json.key_in_range (lua_objlen t)) t); [done|].
  unfold truncate_table. rewrite forallb_of_map. apply forallb_agree. intros [k v] _.
  unfold Json.key_in_range. simpl. by destruct k.
Qed.

Lemma yaml_is_array_truncate t : Yaml.is_array (truncate_table t) = Yaml.is_array t.
Proof.
  unfold Yaml.is_array. rewrite objlen_truncate.
  replace (Yaml.has_hole (truncate_table t) (lua_objlen t))
    with (Yaml.has_hole t (lua_objlen t)).
  2:{ unfold Yaml.has_hole. apply existsb_agree. intros i.
      by rewrite rawgeti_truncate, isnil_truncate. }
  replace (forallb (Yaml.key_in_range (lua_objlen t)) (truncate_table t))
    with (forallb (Yaml.key_in_range (lua_objlen t)) t); [by destruct t|].
  unfold truncate_table. rewrite forallb_of_map. apply forallb_agree. intros [k v] _.
  unfold Yaml.key_in_range. simpl. by destruct k.
Qed.

Lemma json_keeps_slot enc : keeps_slot (Json.object_entry enc).
Proof.
  intros acc e s acc' k s'. unfold Json.object_entry.
  destruct (negb (lua_isstring (fst e))); [done|].
  unfold bind. destruct (enc (snd e) s) as [[n s1]| |]; try done.
  unfold ret. intros [= _ <- _]. by right.
Qed.

(** The traversal of a table and of the table cut, when the bodies agree. *)
Lemma while_next_truncate {C} (f g : C -> lua_value * lua_value -> Enc (C * lua_value))
    fuel t acc s :
  keeps_slot f -> keeps_slot g -> cut_safe t = true ->
  (forall acc e s, entry_step f acc (truncate (fst e), truncate (snd e)) s = entry_step g acc e s) ->
  while_next f fuel acc (truncate_table t) s = while_next g fuel acc t s.
Proof.
  intros Hf Hg Hsafe Hfg. apply andb_prop in Hsafe as [Ht Hc].
  rewrite (while_next_twin_free f), (while_next_twin_free g) by done.
  unfold truncate_table. by apply for_loop_fmap.
Qed.

Definition heap_cut_safe (h : gmap positive table) : Prop :=
  forall p, cut_safe (heap_table h p) = true.

Lemma json_truncate h fuel : heap_cut_safe h -> forall v seen,
  Json.encode_value fuel (truncate_heap h) (truncate v) seen = Json.encode_value fuel h v seen.
Proof.
  intros Hsafe. induction fuel as [|fuel IH]; intros v seen; [done|].
  destruct v as [| | |s|p|]; simpl; try done.
  - unfold ret. pose proof (tostring_truncate (LString s)) as E. simpl in E. by rewrite E.
  - unfold Json.encode_table, bind, seen_count. simpl.
    destruct (bool_decide (p ∈ seen)); [done|].
    rewrite heap_table_truncate, json_is_array_truncate.
    destruct (Json.is_array (heap_table h p)) as [[] len].
    + rewrite (for_each_ext _ (fun i => Json.encode_value fuel h (lua_rawgeti (heap_table h p) i)));
        [done|].
      intros i s. by rewrite rawgeti_truncate, IH.
    + rewrite (while_next_truncate _ (Json.object_entry (Json.encode_value fuel h)));
        [done|apply json_keeps_slot|apply json_keeps_slot|apply Hsafe|].
      intros acc [k v] s. unfold entry_step, Json.object_entry, bind. cbn [fst snd].
      rewrite isstring_truncate, tostring_truncate. destruct (lua_isstring k); simpl; [|done].
      rewrite IH. destruct (Json.encode_value fuel h v s) as [[j s1]| |]; try done.
      unfold ret. cbn [fst snd]. by rewrite slot_kept_truncate.
Qed.

Lemma yaml_truncate h fuel : heap_cut_safe h -> forall v seen,
  Yaml.encode_lua_value fuel (truncate_heap h) (truncate v) seen
  = Yaml.encode_lua_value fuel h v seen.
Proof.
  intros Hsafe. induction fuel as [|fuel IH]; intros v seen; [done|].
  destruct v as [| | |s|p|]; simpl; try done.
  - unfold ret. pose proof (tostring_truncate (LString s)) as E. simpl in E. by rewrite E.
  - unfold Yaml.encode_lua_table, bind, seen_count. simpl.
    destruct (bool_decide (p ∈ seen)); [done|].
    rewrite heap_table_truncate, yaml_is_array_truncate.
    destruct (Yaml.is_array (heap_table h p)) as [[] len].
    + rewrite (for_each_ext _
        (fun i => Yaml.encode_lua_value fuel h (lua_rawgeti (heap_table h p) i))); [done|].
      intros i s. by rewrite rawgeti_truncate, IH.
    + rewrite (while_next_truncate _ (Yaml.map_entry (Yaml.encode_lua_value fuel h)));
        [done|apply yaml_keeps_slot|apply yaml_keeps_slot|apply Hsafe|].
      intros acc [k v] s. unfold entry_step, Yaml.map_entry, bind. cbn [fst snd].
      rewrite isstring_truncate, tostring_truncate, isnil_truncate.
      destruct (lua_isstring k) eqn:Ek, (lua_isnil v); simpl; try done.
      * unfold ret. cbn [fst snd]. rewrite !rawequal_refl. done.
      * rewrite IH. destruct (Yaml.encode_lua_value fuel h v s) as [[j s1]| |]; try done.
        unfold ret. cbn [fst snd]. by rewrite slot_kept_truncate.
Qed.

End Truncation.

Section TruncationMore.
Context `{Host}.

Lemma toml_is_array_truncate t : Toml.is_array (truncate_table t) = Toml.is_array t.
Proof. rewrite !toml_is_array_nil. by destruct t. Qed.

Lemma toml_keeps_slot ea et h : keeps_slot (Toml.table_entry ea et h).
Proof.
  intros acc e s acc' k s'. unfold Toml.table_entry.
  destruct (negb (lua_isstring (fst e))); [done|].
  destruct (snd e) as [| | | |q|]; try done; unfold ret; try (intros [= _ <- _]; by right).
  unfold bind. destruct ((if Toml.is_array (heap_table h q) then ea q else et q) s) as [[n s1]| |];
    try done.
  intros [= _ <- _]. by right.
Qed.

Lemma toml_truncate h fuel : heap_cut_safe h -> forall b p seen,
  Toml.encode fuel (truncate_heap h) b p seen = Toml.encode fuel h b p seen.
Proof.
  intros Hsafe. induction fuel as [|fuel IH]; intros b p seen; [done|].
  assert (Hnested : forall q s,
    (if Toml.is_array (heap_table (truncate_heap h) q)
     then Toml.encode fuel (truncate_heap h) true q
     else Toml.encode fuel (truncate_heap h) false q) s
    = (if Toml.is_array (heap_table h q)
       then Toml.encode fuel h true q else Toml.encode fuel h false q) s).
  { intros q s. rewrite heap_table_truncate, toml_is_array_truncate.
    destruct (Toml.is_array _); apply IH. }
  destruct b; simpl.
  - unfold Toml.encode_lua_array, bind.
    rewrite heap_table_truncate, objlen_truncate.
    rewrite (for_each_ext _ (fun i => Toml.array_item (Toml.encode fuel h true)
       (Toml.encode fuel h false) h (lua_rawgeti (heap_table h p) i))); [done|].
    intros i s. rewrite rawgeti_truncate.
    destruct (lua_rawgeti (heap_table h p) i) as [| | |x|q|]; simpl;
      try done; try apply Hnested.
    unfold ret, Toml.encode_string.
    pose proof (tostring_truncate (LString x)) as E. simpl in E. by rewrite E.
  - unfold Toml.encode_lua_table, bind, seen_count. simpl.
    destruct (bool_decide (p ∈ seen)); [done|].
    rewrite heap_table_truncate.
    rewrite (while_next_truncate _ (Toml.table_entry (Toml.encode fuel h true)
       (Toml.encode fuel h false) h));
      [done|apply toml_keeps_slot|apply toml_keeps_slot|apply Hsafe|].
    intros acc [k v] s. unfold entry_step, Toml.table_entry, bind. cbn [fst snd].
    rewrite isstring_truncate, tostring_truncate. destruct (lua_isstring k); simpl; [|done].
    destruct v as [| | |x|q|]; simpl; try done;
      unfold ret; cbn [fst snd]; rewrite ?slot_kept_truncate; try done.
    + unfold Toml.encode_string.
      pose proof (tostring_truncate (LString x)) as E. simpl in E. by rewrite E.
    + rewrite (Hnested q s).
      destruct ((if Toml.is_array (heap_table h q)
                 then Toml.encode fuel h true q else Toml.encode fuel h false q) s)
        as [[n s1]| |]; try done.
      cbn [fst snd]. by rewrite slot_kept_truncate.
Qed.

Lemma escape_loop_c_str s : Xml.escape_loop (c_str s) = Xml.escape_loop s.
Proof.
  induction s as [|c r IH]; simpl; [done|].
  destruct (Ascii.eqb c NUL) eqn:E; simpl; [done|]. by rewrite E, IH.
Qed.

Lemma xml_keeps_slot : keeps_slot Xml.attribute.
Proof.
  intros acc e s acc' k s'. unfold Xml.attribute.
  destruct (negb (lua_isstring (fst e))); [done|].
  destruct (negb (lua_isstring (snd e))); [done|].
  unfold ret. intros [= _ <- _]. by right.
Qed.

Lemma attributes_truncate fuel attr : cut_safe attr = true -> forall out seen,
  Xml.emit_attributes fuel (truncate_table attr) out seen = Xml.emit_attributes fuel attr out seen.
Proof.
  intros Hsafe out seen. unfold Xml.emit_attributes.
  apply while_next_truncate; [apply xml_keeps_slot|apply xml_keeps_slot|done|].
  clear. intros acc [k v] s. unfold entry_step, Xml.attribute, bind. cbn [fst snd].
  rewrite !isstring_truncate, tostring_truncate.
  destruct (lua_isstring k), (lua_isstring v) eqn:Ev; simpl; try done.
  unfold ret. cbn [fst snd]. rewrite slot_kept_truncate.
  destruct v as [| | |x| |]; simpl; try done.
  unfold Xml.xml_escape_append. by rewrite escape_loop_c_str.
Qed.

End TruncationMore.

Lemma for_loop_ext {A C} (f g : C -> A -> Enc C) (l : list A) :
  (forall acc x seen, f acc x seen = g acc x seen) ->
  forall acc seen, for_loop f acc l seen = for_loop g acc l seen.
Proof.
  intros Hfg. induction l as [|a l IH]; intros acc seen; simpl; [done|].
  unfold bind. rewrite Hfg. destruct (g acc a seen) as [[y s]| |]; [|done|done].
  apply IH.
Qed.

Lemma field_name_c_str f : f ∈ field_names -> c_str f = f.
Proof.
  unfold field_names. intros Hf.
  repeat (apply elem_of_cons in Hf as [->|Hf]; [reflexivity|]). by apply elem_of_nil in Hf.
Qed.

Lemma field_name_listed f : f ∈ field_names -> existsb (String.eqb f) field_names = true.
Proof.
  unfold field_names. intros Hf.
  repeat (apply elem_of_cons in Hf as [->|Hf]; [reflexivity|]). by apply elem_of_nil in Hf.
Qed.

(** Cutting the keys of such a record changes none of its fields. *)
Lemma field_get_truncate t f :
  f ∈ field_names -> record_cut_safe t = true ->
  table_get (truncate_table t) (LString f) = truncate (table_get t (LString f)).
Proof.
  intros Hf. induction t as [|[k v] t IH]; [done|].
  unfold record_cut_safe. cbn [forallb fst snd]. fold (record_cut_safe t).
  intros Hsafe. apply andb_prop in Hsafe as [He Ht].
  unfold truncate_table. cbn [map table_get fst snd]. fold (truncate_table t).
  destruct k as [| | |k| |]; cbn [truncate lua_rawequal]; try (by apply IH).
  assert (Hk : String.eqb (c_str k) f = String.eqb k f).
  { destruct (String.eqb_spec k f) as [->|Hne].
    - rewrite (field_name_c_str _ Hf). apply String.eqb_refl.
    - destruct (String.eqb_spec (c_str k) f) as [Heq|]; [|done].
      rewrite Heq, (field_name_listed _ Hf) in He.
      apply andb_prop in He as [Hc _]. apply String.eqb_eq in Hc. congruence. }
  rewrite Hk. destruct (String.eqb k f); [done|by apply IH].
Qed.

Lemma tag_cut_safe t s :
  record_cut_safe t = true -> table_get t (LString "tag") = LString s -> c_str s = s.
Proof.
  induction t as [|[k v] t IH]; simpl; [done|].
  intros Hsafe. apply andb_prop in Hsafe as [He Ht]. simpl in He.
  destruct k as [| | |k| |]; simpl; try (by apply IH).
  destruct (String.eqb_spec k "tag") as [->|Hne]; [|by apply IH].
  intros ->. simpl in He. by apply String.eqb_eq in He.
Qed.

Lemma text_cut_safe t s :
  record_cut_safe t = true -> table_get t (LString "text") = LString s ->
  (String.length (c_str s) =? 0)%nat = (String.length s =? 0)%nat.
Proof.
  induction t as [|[k v] t IH]; simpl; [done|].
  intros Hsafe. apply andb_prop in Hsafe as [He Ht]. simpl in He.
  destruct k as [| | |k| |]; simpl; try (by apply IH).
  destruct (String.eqb_spec k "text") as [->|Hne]; [|by apply IH].
  intros ->. simpl in He.
  destruct s as [|c s]; [done|]. simpl in *.
  by destruct (Ascii.eqb c NUL).
Qed.

Lemma get_field_read `{Host} t f :
  Xml.get_field_string t f
  = match table_get t (LString f) with
    | LNil => ret None
    | LString x => ret (Some x)
    | LNumber n => ret (Some (lua_number2str n))
    | _ => luaL_error ("xml." ++ f ++ " must be a string")
    end.
Proof. unfold Xml.get_field_string. by destruct (table_get t (LString f)). Qed.

Section XmlTruncation.
Context `{Host}.
Variable h : gmap positive table.
Hypothesis Hsafe : heap_cut_safe h.
Hypothesis Hrec : forall p, record_cut_safe (heap_table h p) = true.

Lemma children_truncate fuel tc depth :
  (forall p out depth seen,
     Xml.emit_element fuel (truncate_heap h) p out depth seen
     = Xml.emit_element fuel h p out depth seen) ->
  forall out seen,
  Xml.emit_children (Xml.emit_element fuel (truncate_heap h)) (truncate_table tc) out depth seen
  = Xml.emit_children (Xml.emit_element fuel h) tc out depth seen.
Proof.
  intros IH out seen. unfold Xml.emit_children. rewrite objlen_truncate.
  apply for_loop_ext. intros acc i s. rewrite rawgeti_truncate.
  destruct (lua_rawgeti tc i); simpl; done.
Qed.

Lemma bind_ext {A B} (m1 m2 : Enc A) (k1 k2 : A -> Enc B) s :
  m1 s = m2 s -> (forall a s', k1 a s' = k2 a s') -> bind m1 k1 s = bind m2 k2 s.
Proof. intros Hm Hk. unfold bind. rewrite Hm. by destruct (m2 s) as [[a s']| |]. Qed.

Lemma bind_ret {A B} (a : A) (k : A -> Enc B) s : bind (ret a) k s = k a s.
Proof. reflexivity. Qed.

Lemma bind_error {A B} msg (k : A -> Enc B) s : bind (luaL_error msg) k s = Error msg.
Proof. reflexivity. Qed.

Lemma xml_truncate fuel : forall p out depth seen,
  Xml.emit_element fuel (truncate_heap h) p out depth seen
  = Xml.emit_element fuel h p out depth seen.
Proof.
  induction fuel as [|fuel IH]; intros p out depth seen; [done|].
  cbn [Xml.emit_element]. unfold Xml.emit_element_body.
  rewrite heap_table_truncate.
  pose proof (Hrec p) as Hp. set (t := heap_table h p) in *.
  rewrite !get_field_read.
  rewrite !(field_get_truncate t) by (try done; unfold field_names; set_solver).
  apply bind_ext; [done|intros cyc s1]. destruct cyc; [done|].
  apply bind_ext; [done|intros ? s2]. cbv zeta.
  destruct (table_get t (LString "tag")) as [| |n|tag| |] eqn:Etag; cbn [truncate];
    rewrite ?bind_ret, ?bind_error; try done;
    try rewrite (tag_cut_safe _ _ Hp Etag);
    (destruct (String.length _ =? 0)%nat; [done|]);
    (destruct (table_get t (LString "attr")) as [| | | |pa|] eqn:Eattr;
     cbn [truncate lua_isnil lua_istable negb andb]; try done);
    (destruct (table_get t (LString "text")) as [| |m|text| |] eqn:Etext; cbn [truncate];
     rewrite ?bind_ret, ?bind_error; try done);
    (destruct (table_get t (LString "children")) as [| | | |pc|] eqn:Ech;
     cbn [truncate lua_isnil lua_istable negb andb]; try done).
  all: rewrite ?heap_table_truncate, ?objlen_truncate.
  all: try rewrite (text_cut_safe _ _ Hp Etext).
  all: cbn [default from_option id]; unfold Xml.xml_escape_append; rewrite ?escape_loop_c_str.
  all: (apply bind_ext; [first [done|apply attributes_truncate, Hsafe]|intros o s3]).
  all: repeat (destruct (_ >? 0)%Z); repeat (destruct (String.length _ =? 0)%nat).
  all: cbn [negb andb]; try done.
  all: (apply bind_ext; [|done]); (apply bind_ext; [|done]).
  all: (apply bind_ext; [by apply children_truncate|done]).
Qed.

End XmlTruncation.

Section NulTruncation.
Context `{Host}.


End NulTruncation.

(** [{"a\0b", {["x\0y"] = "c\0d"}}] and [{tag = "a", text = "\0y"}] *)
Definition nul_strings_heap : gmap positive table :=
  {[1%positive := [(LNumber 1, LString (String "a" (String NUL (String "b" EmptyString))));
                   (LNumber 2, LTable 2)];
    2%positive := [(LString (String "x" (String NUL (String "y" EmptyString))),
                    LString (String "c" (String NUL (String "d" EmptyString))))]]}.
Definition nul_text_heap : gmap positive table :=
  {[1%positive := [(LString "tag", LString "a");
                   (LString "text", LString (String NUL (String "y" EmptyString)))]]}.

Lemma heap_table_cases (P : table -> Prop) (h : gmap positive table) :
  P [] -> map_Forall (fun _ t => P t) h -> forall p, P (heap_table h p).
Proof.
  intros Hnil Hall p. unfold heap_table. destruct (h !! p) as [t|] eqn:E; [|done].
  by apply (Hall p t).
Qed.



(** An element has text when the length of its [text] is not 0, though the
    text is escaped up to its first NUL. *)
Lemma xml_text_counts_nul :
  @Xml.xmlserialize Sample.host 1 nul_text_heap (LTable 1)
    = Ok ("<a></a>" ++ Xml.newline) /\
  @Xml.xmlserialize Sample.host 1 (truncate_heap nul_text_heap) (truncate (LTable 1))
    = Ok ("<a/>" ++ Xml.newline).
Proof. split; vm_compute; reflexivity. Qed.

(** ** XML text (C9) *)

(** Section 4.6 in its own words: the element record and the text the
    encoder emits for it. *)
Inductive element : Type :=
| Elem (tag : string) (attr : list (string * string)) (text : option string)
       (children : list element).

Definition entity (c : ascii) : option string :=
  if Ascii.eqb c "&" then Some "&amp;"
  else if Ascii.eqb c "<" then Some "&lt;"
  else if Ascii.eqb c ">" then Some "&gt;"
  else if Ascii.eqb c (ascii_of_nat 34) then Some "&quot;"
  else if Ascii.eqb c "'" then Some "&apos;"
  else None.

Fixpoint escaped (s : string) : string :=
  match s with
  | EmptyString => EmptyString
  | String c r => default (String c EmptyString) (entity c) ++ escaped r
  end.

Fixpoint concat_all (l : list string) : string :=
  match l with
  | [] => EmptyString
  | x :: r => x ++ concat_all r
  end.

Definition attribute_text (kv : string * string) : string :=
  " " ++ fst kv ++ "=" ++ Json.dquote ++ escaped (snd kv) ++ Json.dquote.

Definition has_text (text : option string) : bool :=
  match text with
  | Some s => negb (String.length s =? 0)%nat
  | None => false
  end.

(** "One tab character per depth", and the newline. *)
Definition indent (depth : nat) : string := string_of_list_ascii (repeat "009"%char depth).
Definition line_feed : string := String "010"%char EmptyString.

Fixpoint emit_spec (depth : nat) (e : element) : string :=
  match e with
  | Elem tag attr text children =>
      indent depth ++ "<" ++ tag ++ concat_all (map attribute_text attr) ++
      match has_text text, children with
      | false, [] => "/>" ++ line_feed
      | _, _ =>
          ">" ++ (if has_text text then escaped (default EmptyString text) else "") ++
          match children with
          | [] => ""
          | _ => line_feed ++ concat_all (map (emit_spec (S depth)) children)
                   ++ indent depth
          end ++
          "</" ++ tag ++ ">" ++ line_feed
      end
  end.

Fixpoint height (e : element) : nat :=
  match e with
  | Elem _ _ _ children => S (list_max (map height children))
  end.

(** [{tag="a"}], [{tag="a", text="x"}] and
    [{tag="a", attr={id="1"}, children={{tag="b"}}}] *)
Definition xml_a : gmap positive table := {[1%positive := [(LString "tag", LString "a")]]}.
Definition xml_ax : gmap positive table :=
  {[1%positive := [(LString "tag", LString "a"); (LString "text", LString "x")]]}.
Definition xml_ab : gmap positive table :=
  {[1%positive := [(LString "tag", LString "a"); (LString "attr", LTable 2);
                   (LString "children", LTable 3)];
    2%positive := [(LString "id", LString "1")];
    3%positive := [(LNumber 1, LTable 4)];
    4%positive := [(LString "tag", LString "b")]]}.
Definition elem_ab : element := Elem "a" [("id", "1")] None [Elem "b" [] None []].

Lemma xml_examples :
  @Xml.xmlserialize Sample.host 1 xml_a (LTable 1) = Ok ("<a/>" ++ line_feed) /\
  @Xml.xmlserialize Sample.host 1 xml_ax (LTable 1) = Ok ("<a>x</a>" ++ line_feed) /\
  @Xml.xmlserialize Sample.host 2 xml_ab (LTable 1)
    = Ok ("<a id=" ++ Json.dquote ++ "1" ++ Json.dquote ++ ">" ++ line_feed
          ++ indent 1 ++ "<b/>" ++ line_feed ++ "</a>" ++ line_feed) /\
  emit_spec 0 elem_ab
    = "<a id=" ++ Json.dquote ++ "1" ++ Json.dquote ++ ">" ++ line_feed
          ++ indent 1 ++ "<b/>" ++ line_feed ++ "</a>" ++ line_feed.
Proof. repeat split; vm_compute; reflexivity. Qed.

Lemma append_cons (x : ascii) (a b : string) : String x a ++ b = String x (a ++ b).
Proof. reflexivity. Qed.

Lemma append_assoc (a b c : string) : (a ++ b) ++ c = a ++ (b ++ c).
Proof. induction a as [|x a IH]; [done|]. by rewrite !append_cons, IH. Qed.

Lemma append_nil_r (a : string) : a ++ "" = a.
Proof. induction a as [|x a IH]; [done|]. by rewrite append_cons, IH. Qed.

Lemma element_induction (P : element -> Prop) :
  (forall tag attr text children, Forall P children -> P (Elem tag attr text children)) ->
  forall e, P e.
Proof.
  intros Hstep. fix IH 1. intros [tag attr text children]. apply Hstep.
  induction children as [|c cs IHcs]; constructor; [apply IH|apply IHcs].
Qed.

Section XmlText.
Context `{Host}.

(** The entries [i], [i+1], ... of the children table are tables that hold
    the records [cs]. *)
Fixpoint items_at (R : positive -> element -> Prop) (tc : table) (i : Z)
    (cs : list element) : Prop :=
  match cs with
  | [] => True
  | c :: cs' =>
      (exists q, lua_rawgeti tc i = LTable q /\ R q c) /\ items_at R tc (i + 1)%Z cs'
  end.

(** An entry of an attribute table: its key is a string, its value a string
    or a number, which is written as [lua_tostring] converts it. *)
Definition attribute_of (e : lua_value * lua_value) (kv : string * string) : Prop :=
  fst e = LString (fst kv) /\ c_str (fst kv) = fst kv /\
  lua_tolstring (snd e) = Some (snd kv) /\ c_str (snd kv) = snd kv.

(** The table [p] of the heap holds the record [e]: its fields are the
    record's, an absent field being an empty one; its attribute and text
    strings are C strings; and no record is found again below itself
    ([path] holds the tables from the root down to [p]'s parent). *)
Fixpoint represents (h : gmap positive table) (path : gset positive) (p : positive)
    (e : element) {struct e} : Prop :=
  match e with
  | Elem tag attr text children =>
      let t := heap_table h p in
      (p ∉ path) /\
      lua_tolstring (table_get t (LString "tag")) = Some tag /\
      String.length tag <> 0%nat /\
      match table_get t (LString "attr") with
      | LNil => attr = []
      | LTable pa => Forall2 attribute_of (heap_table h pa) attr
      | _ => False
      end /\
      match text with
      | None => table_get t (LString "text") = LNil
      | Some s => lua_tolstring (table_get t (LString "text")) = Some s /\ c_str s = s
      end /\
      match table_get t (LString "children") with
      | LNil => children = []
      | LTable pc =>
          lua_objlen (heap_table h pc) = Z.of_nat (length children) /\
          items_at (represents h (path ∪ {[p]})) (heap_table h pc) 1 children
      | _ => False
      end
  end.

Lemma escape_char_entity c :
  Xml.xml_escape_char c = default (String c EmptyString) (entity c).
Proof.
  unfold Xml.xml_escape_char, entity.
  repeat (destruct (Ascii.eqb c _); [done|]). done.
Qed.

(** On a C string the loop escapes every character. *)
Lemma escape_loop_escaped s : c_str s = s -> Xml.escape_loop s = escaped s.
Proof.
  induction s as [|c r IH]; simpl; [done|].
  destruct (Ascii.eqb c NUL); [discriminate|].
  intros Hr. injection Hr as Hr. by rewrite escape_char_entity, IH.
Qed.

Lemma tolstring_isstring v s : lua_tolstring v = Some s -> lua_isstring v = true.
Proof. by destruct v. Qed.

Lemma tolstring_not_nil v s : lua_tolstring v = Some s -> lua_isnil v = false.
Proof. by destruct v. Qed.

Lemma attributes_text fuel attr : forall kvs out seen,
  Forall2 attribute_of attr kvs ->
  Xml.emit_attributes fuel attr out seen
  = Ok (out ++ concat_all (map attribute_text kvs), seen).
Proof.
  intros kvs out seen Hall. unfold Xml.emit_attributes.
  rewrite while_next_twin_free; [|apply xml_keeps_slot|].
  2:{ apply string_keys_twin_free. clear -Hall.
      induction Hall as [|e kv attr kvs (Hk & _) _ IH]; constructor; [by eexists|done]. }
  revert kvs out seen Hall.
  induction attr as [|e attr IH]; intros kvs out seen Hall; inversion Hall as [|? kv ? kvs' Hh Ht]; subst.
  - simpl. unfold ret. by rewrite append_nil_r.
  - destruct Hh as (Hk & Hkc & Hv & Hvc). simpl for_loop. unfold bind at 1.
    unfold entry_step, Xml.attribute, bind.
    rewrite Hk, (tolstring_isstring _ _ Hv). cbn [lua_isstring negb].
    unfold ret. cbn [fst snd after_tostring lua_rawequal]. rewrite String.eqb_refl.
    rewrite (IH kvs'); [|done]. do 2 f_equal.
    unfold lua_tostring. cbn [lua_tolstring]. rewrite Hv, Hkc. simpl default.
    unfold Xml.xml_escape_append. rewrite (escape_loop_escaped _ Hvc).
    simpl concat_all. unfold attribute_text. by rewrite !append_assoc.
Qed.

Lemma get_field_present t key s seen :
  lua_tolstring (table_get t (LString key)) = Some s ->
  Xml.get_field_string t key seen = Ok (Some s, seen).
Proof.
  intros Hs. unfold Xml.get_field_string. by rewrite (tolstring_not_nil _ _ Hs), Hs.
Qed.

Lemma get_field_absent t key seen :
  table_get t (LString key) = LNil ->
  Xml.get_field_string t key seen = Ok (None, seen).
Proof. intros Hs. unfold Xml.get_field_string. by rewrite Hs. Qed.

Lemma children_text h fuel tc depth path cs :
  Forall (fun c => forall path p out depth,
            represents h path p c ->
            Xml.emit_element fuel h p out depth path = Ok (out ++ emit_spec depth c, path)) cs ->
  forall i out,
  items_at (represents h path) tc i cs ->
  for_loop (fun out i => Xml.child (Xml.emit_element fuel h) depth out (lua_rawgeti tc i))
    out (seqZ i (Z.of_nat (length cs))) path
  = Ok (out ++ concat_all (map (emit_spec depth) cs), path).
Proof.
  induction 1 as [|c cs Hc _ IH]; intros i out Hitems.
  - simpl. unfold ret. by rewrite append_nil_r.
  - destruct Hitems as ((q & Hq & Hrep) & Hrest).
    rewrite seqZ_cons by (simpl; lia). simpl for_loop. unfold bind.
    rewrite Hq. simpl Xml.child. rewrite (Hc _ _ _ _ Hrep). cbv beta iota.
    replace (Z.pred (Z.of_nat (S (length cs)))) with (Z.of_nat (length cs)) by lia.
    rewrite (IH (Z.succ i)); [|by replace (Z.succ i) with (i + 1)%Z by lia].
    simpl concat_all. by rewrite append_assoc.
Qed.

Lemma tabs_indent depth : Xml.tabs depth = indent depth.
Proof. induction depth as [|d IH]; [done|]. simpl. by rewrite IH. Qed.

Lemma restore_path (path : gset positive) (p : positive) :
  p ∉ path -> (path ∪ {[p]}) ∖ {[p]} = path.
Proof. set_solver. Qed.

Lemma emit_element_refines h : forall e path p out depth fuel,
  represents h path p e -> (height e <= fuel)%nat ->
  Xml.emit_element fuel h p out depth path = Ok (out ++ emit_spec depth e, path).
Proof.
  induction e as [tag attr text children IH] using element_induction.
  intros path p out depth fuel Hrep Hfuel.
  destruct fuel as [|fuel]; [simpl in Hfuel; lia|].
  simpl in Hfuel. apply le_S_n in Hfuel.
  simpl in Hrep. destruct Hrep as (Hp & Htag & Hlen & Hattr & Htext & Hch).
  simpl Xml.emit_element. unfold Xml.emit_element_body.
  unfold bind at 1. unfold seen_count. rewrite bool_decide_eq_false_2 by done.
  unfold bind at 1. unfold seen_insert.
  unfold bind at 1. rewrite (get_field_present _ _ _ _ Htag).
  destruct (Nat.eqb_spec (String.length tag) 0) as [|_]; [done|].
  set (t := heap_table h p) in *.
  assert (Hkids : Forall (fun c => forall path p out depth,
            represents h path p c ->
            Xml.emit_element fuel h p out depth path = Ok (out ++ emit_spec depth c, path))
            children).
  { apply Forall_forall. intros c Hc path' p' out' depth' Hrep.
    rewrite Forall_forall in IH. apply (IH c Hc); [done|].
    apply list_max_le in Hfuel. rewrite Forall_forall in Hfuel.
    apply Hfuel. by apply list_elem_of_fmap_2. }
  clear IH Hfuel.
  assert (Htext' : Xml.get_field_string t "text" (path ∪ {[p]}) = Ok (text, path ∪ {[p]})
                   /\ default EmptyString text = c_str (default EmptyString text)).
  { destruct text as [s|].
    - destruct Htext as [Hs Hc]. split; [by apply get_field_present|by simpl].
    - split; [by apply get_field_absent|done]. }
  destruct Htext' as [Hget Hcstr]. clear Htext.
  assert (Hattr' : negb (lua_isnil (table_get t (LString "attr")))
                   && negb (lua_istable (table_get t (LString "attr"))) = false /\
    forall o, match table_get t (LString "attr") with
              | LTable pa => Xml.emit_attributes fuel (heap_table h pa) o
              | _ => ret o
              end (path ∪ {[p]})
              = Ok (o ++ concat_all (map attribute_text attr), path ∪ {[p]})).
  { destruct (table_get t (LString "attr")) as [| | | |pa|]; try done.
    - subst attr. split; [done|]. intros o. unfold ret. simpl. by rewrite append_nil_r.
    - split; [done|]. intros o. by apply attributes_text. }
  destruct Hattr' as [Hattr1 Hattr2]. rewrite Hattr1. clear Hattr Hattr1.
  unfold bind at 1. rewrite Hget.
  assert (Hch' : negb (lua_isnil (table_get t (LString "children")))
                 && negb (lua_istable (table_get t (LString "children"))) = false /\
    match table_get t (LString "children") with
    | LTable pc => (lua_objlen (heap_table h pc) >? 0)%Z
    | _ => false
    end = match children with [] => false | _ => true end /\
    forall o d, children <> [] ->
      match table_get t (LString "children") with
      | LTable pc => Xml.emit_children (Xml.emit_element fuel h) (heap_table h pc) o d
      | _ => ret o
      end (path ∪ {[p]})
      = Ok (o ++ concat_all (map (emit_spec d) children), path ∪ {[p]})).
  { destruct (table_get t (LString "children")) as [| | | |pc|]; try done.
    - subst children. by repeat split.
    - destruct Hch as [Hn Hitems]. split; [done|]. split.
      + rewrite Hn. by destruct children.
      + intros o d _. unfold Xml.emit_children. rewrite Hn.
        by apply children_text. }
  destruct Hch' as (Hch1 & Hch2 & Hch3). rewrite Hch1, Hch2. clear Hch Hch1 Hch2.
  unfold bind at 1. rewrite Hattr2.
  unfold bind at 1.
  simpl emit_spec. fold (has_text text).
  destruct (has_text text) eqn:Etext, children as [|c cs]; cbn [negb andb]; cbv iota;
    unfold bind; rewrite ?Hch3 by done;
    unfold ret, seen_erase, Xml.emit_indent, Xml.xml_escape_append; cbv beta iota;
    rewrite restore_path by done;
    rewrite ?(escape_loop_escaped _ (eq_sym Hcstr));
    rewrite !tabs_indent; change Xml.newline with line_feed;
    do 2 f_equal; rewrite ?append_assoc; reflexivity.
Qed.

Lemma emit_spec_head depth e :
  exists rest, emit_spec depth e = indent depth ++ "<" ++ rest.
Proof. destruct e as [tag attr text children]. simpl. eauto. Qed.


End XmlText.


(** ** The cycle guard (C6) *)

(** What the loops do with the set of visited tables when every iteration
    leaves it as it found it. *)
Definition restores {A B} (body : A -> Enc B) : Prop :=
  forall x s y s', body x s = Ok (y, s') -> s' = s.

Lemma for_each_inv {A B} (body : A -> Enc B) (l : list A) :
  restores body ->
  forall s ys s', for_each body l s = Ok (ys, s') ->
  s' = s /\ forall x, x ∈ l -> exists y, body x s = Ok (y, s).
Proof.
  intros Hres. induction l as [|a l IH]; intros s ys s' Hrun; simpl in Hrun.
  - unfold ret in Hrun. injection Hrun as _ <-. split; [done|]. by intros x Hx%elem_of_nil.
  - unfold bind in Hrun. destruct (body a s) as [[y s1]| |] eqn:Ea; try done.
    pose proof (Hres _ _ _ _ Ea) as ->.
    destruct (for_each body l s) as [[ys' s2]| |] eqn:El; try done.
    unfold ret in Hrun. injection Hrun as _ <-.
    destruct (IH _ _ _ El) as [-> Hall]. split; [done|].
    intros x [->|Hx]%elem_of_cons; [by exists y|by apply Hall].
Qed.

Lemma for_each_fuel {A B} (body : A -> Enc B) (l : list A) :
  restores body ->
  forall s, for_each body l s = OutOfFuel -> exists x, x ∈ l /\ body x s = OutOfFuel.
Proof.
  intros Hres. induction l as [|a l IH]; intros s Hrun; simpl in Hrun; [done|].
  unfold bind in Hrun. destruct (body a s) as [[y s1]| |] eqn:Ea; try done.
  - pose proof (Hres _ _ _ _ Ea) as ->.
    destruct (for_each body l s) as [[ys' s2]| |] eqn:El; try done.
    destruct (IH _ El) as (x & Hx & Hx'). exists x. split; [by right|done].
  - exists a. split; [by left|done].
Qed.

Lemma for_loop_inv {A C} (body : C -> A -> Enc C) (l : list A) :
  (forall acc, restores (body acc)) ->
  forall acc s acc' s', for_loop body acc l s = Ok (acc', s') ->
  s' = s /\ forall x, x ∈ l -> exists a a', body a x s = Ok (a', s).
Proof.
  intros Hres. induction l as [|a l IH]; intros acc s acc' s' Hrun; simpl in Hrun.
  - unfold ret in Hrun. injection Hrun as _ <-. split; [done|]. by intros x Hx%elem_of_nil.
  - unfold bind in Hrun. destruct (body acc a s) as [[y s1]| |] eqn:Ea; try done.
    pose proof (Hres _ _ _ _ _ Ea) as ->.
    destruct (IH _ _ _ _ Hrun) as [-> Hall]. split; [done|].
    intros x [->|Hx]%elem_of_cons; [by exists acc, y|by apply Hall].
Qed.

Lemma for_loop_fuel {A C} (body : C -> A -> Enc C) (l : list A) :
  (forall acc, restores (body acc)) ->
  forall acc s, for_loop body acc l s = OutOfFuel ->
  exists x a, x ∈ l /\ body a x s = OutOfFuel.
Proof.
  intros Hres. induction l as [|a l IH]; intros acc s Hrun; simpl in Hrun; [done|].
  unfold bind in Hrun. destruct (body acc a s) as [[y s1]| |] eqn:Ea; try done.
  - pose proof (Hres _ _ _ _ _ Ea) as ->.
    destruct (IH _ _ Hrun) as (x & a' & Hx & Hx'). exists x, a'. split; [by right|done].
  - exists a, acc. split; [by left|done].
Qed.

(** A traversal whose iterations leave the set of visited tables as they
    found it leaves it so, whatever the keys. *)
Lemma while_next_restores {C} (body : C -> lua_value * lua_value -> Enc (C * lua_value))
    fuel acc t s acc' s' :
  (forall acc, restores (body acc)) ->
  while_next body fuel acc t s = Ok (acc', s') -> s' = s.
Proof.
  intros Hres.
  apply (while_next_invariant body (fun _ s0 => s0 = s)); [|done].
  intros a e s0 a' k s0' -> Hrun. by apply (Hres _ _ _ _ _ Hrun).
Qed.

Lemma entry_step_restores {C} (body : C -> lua_value * lua_value -> Enc (C * lua_value)) acc :
  restores (body acc) -> restores (entry_step body acc).
Proof.
  intros Hres e s y s'. unfold entry_step, bind.
  destruct (body acc e s) as [[[a k] s1]| |] eqn:E; try done.
  cbn [fst snd]. destruct (lua_rawequal (fst e) k); [|done].
  unfold ret. intros [= _ <-]. by apply (Hres _ _ _ _ E).
Qed.

(** A heap in which no table has a number key together with the string the
    number converts to: every traversal visits the entries in order. *)
Definition twin_free_heap `{Host} (h : gmap positive table) : Prop :=
  forall p, twin_free (heap_table h p) = true.

(** An encoder that enters a table only when it is not being visited, and
    visits its children while it is. *)
Section GuardedTraversal.
Context {X A : Type}.
Variable enc : nat -> X -> positive -> Enc A.
Variable kids : positive -> list positive.
Variable tables : gset positive.

Hypothesis enc_guard : forall f x p s r, enc f x p s = Ok r -> p ∉ s.
Hypothesis enc_kids : forall f x p s r, enc (S f) x p s = Ok r ->
  forall q, q ∈ kids p -> exists x' r', enc f x' q (s ∪ {[p]}) = Ok r'.
Hypothesis enc_fuel : forall f x p s, enc (S f) x p s = OutOfFuel ->
  (p ∉ s) /\ (p ∈ tables) /\ exists x' q, enc f x' q (s ∪ {[p]}) = OutOfFuel.
Hypothesis enc_zero : forall x p s r, enc 0 x p s <> Ok r.

(** [q] is met below [p]. *)
Inductive reaches : positive -> positive -> Prop :=
| reaches_here p : reaches p p
| reaches_kid p q r : q ∈ kids p -> reaches q r -> reaches p r.

Lemma success_visits_once f : forall x p s r q,
  enc f x p s = Ok r -> reaches p q -> q ∉ s.
Proof.
  induction f as [|f IH]; intros x p s r q Hok Hreach.
  - by apply enc_zero in Hok.
  - destruct Hreach as [p|p k q Hk Hreach]; [by eapply enc_guard|].
    destruct (enc_kids _ _ _ _ _ Hok k Hk) as (x' & r' & Hkid).
    pose proof (IH _ _ _ _ _ Hkid Hreach). set_solver.
Qed.

(** No table that is met again below itself is encoded. *)
Lemma cycle_never_ok f x p s k :
  k ∈ kids p -> reaches k p ->
  match enc f x p s with Ok _ => False | _ => True end.
Proof.
  intros Hk Hreach. destruct (enc f x p s) as [r| |] eqn:Hok; [|done|done].
  destruct f as [|f]; [by apply enc_zero in Hok|].
  destruct (enc_kids _ _ _ _ _ Hok k Hk) as (x' & r' & Hkid).
  pose proof (success_visits_once _ _ _ _ _ _ Hkid Hreach). set_solver.
Qed.

(** The guard bounds the depth of the recursion by the number of tables. *)
Lemma enough_fuel f : forall x p s,
  (size (tables ∖ s) < f)%nat ->
  match enc f x p s with OutOfFuel => False | _ => True end.
Proof.
  induction f as [|f IH]; intros x p s Hsize; [lia|].
  destruct (enc (S f) x p s) as [r| |] eqn:Hrun; [done|done|].
  destruct (enc_fuel _ _ _ _ Hrun) as (Hp & Hin & x' & q & Hkid).
  assert (Hlt : (size (tables ∖ (s ∪ {[p]})) < size (tables ∖ s))%nat).
  { apply subset_size. set_solver. }
  specialize (IH x' q (s ∪ {[p]})). rewrite Hkid in IH. apply IH. lia.
Qed.

(** A table met again below itself: never a result, and an error as soon as
    the fuel exceeds the number of tables. *)
Lemma cycle_outcome f x p s k :
  k ∈ kids p -> reaches k p ->
  match enc f x p s with
  | Ok _ => False
  | Error _ => True
  | OutOfFuel => (f <= size (tables ∖ s))%nat
  end.
Proof.
  intros Hk Hreach. pose proof (cycle_never_ok f x p s k Hk Hreach) as Hok.
  destruct (enc f x p s) eqn:Hrun; [done|done|].
  destruct (le_lt_dec f (size (tables ∖ s))) as [|Hlt]; [done|].
  pose proof (enough_fuel f x p s Hlt) as Hf. by rewrite Hrun in Hf.
Qed.

End GuardedTraversal.

Definition as_table (v : lua_value) : option positive :=
  match v with LTable q => Some q | _ => None end.

Lemma heap_table_dom (h : gmap positive table) p e : e ∈ heap_table h p -> p ∈ dom h.
Proof.
  unfold heap_table. intros He. apply elem_of_dom.
  destruct (h !! p); [done|]. by apply elem_of_nil in He.
Qed.

Section JsonGuard.
Context `{Host}.
Variable h : gmap positive table.

(** The values the JSON encoder encodes for a table. *)
Definition json_traversed (t : table) : list lua_value :=
  let '(arr, len) := Json.is_array t in
  if arr then map (lua_rawgeti t) (seqZ 1 len) else map snd t.

Definition json_kids (p : positive) : list positive :=
  omap as_table (json_traversed (heap_table h p)).

Lemma json_object_entry_restores enc acc :
  restores enc -> restores (Json.object_entry enc acc).
Proof.
  intros Hres e s y s'. unfold Json.object_entry.
  destruct (negb (lua_isstring (fst e))); [done|]. unfold bind.
  destruct (enc (snd e) s) as [[j s1]| |] eqn:E; try done.
  unfold ret. intros [= _ <-]. by eapply Hres.
Qed.

Lemma json_restores fuel : restores (Json.encode_value fuel h).
Proof.
  induction fuel as [|fuel IH]; intros v s j s' Hrun; [done|].
  destruct v; simpl in Hrun; try (by injection Hrun as _ <-); try done.
  unfold Json.encode_table, bind, seen_count, seen_insert in Hrun.
  destruct (bool_decide (p ∈ s)) eqn:Hp; [done|]. apply bool_decide_eq_false in Hp.
  destruct (Json.is_array (heap_table h p)) as [[] len].
  - destruct (for_each _ _ _) as [[ys s1]| |] eqn:El; try done.
    unfold seen_erase, ret in Hrun. injection Hrun as _ <-.
    destruct (for_each_inv _ _ (fun i => IH _) _ _ _ El) as [-> _]. by apply restore_path.
  - destruct (while_next _ _ _ _ _) as [[o s1]| |] eqn:El; try done.
    unfold seen_erase, ret in Hrun. injection Hrun as _ <-.
    rewrite (while_next_restores _ _ _ _ _ _ _
               (fun acc => json_object_entry_restores _ acc IH) El).
    by apply restore_path.
Qed.

Hypothesis Htwin : twin_free_heap h.

Lemma json_encode_table_ok fuel enc p s j s' :
  restores enc ->
  Json.encode_table fuel enc h p s = Ok (j, s') ->
  (p ∉ s) /\ s' = s /\
  forall v, v ∈ json_traversed (heap_table h p) ->
    lua_isnil v = false -> exists j', enc v (s ∪ {[p]}) = Ok (j', s ∪ {[p]}).
Proof.
  intros Hres. unfold Json.encode_table, json_traversed, bind, seen_count, seen_insert.
  destruct (bool_decide (p ∈ s)) eqn:Hp; [done|]. apply bool_decide_eq_false in Hp.
  destruct (Json.is_array (heap_table h p)) as [[] len].
  - destruct (for_each _ _ _) as [[ys s1]| |] eqn:El; try done.
    unfold seen_erase, ret. intros [= <- <-].
    destruct (for_each_inv (fun i => enc (lua_rawgeti (heap_table h p) i)) _
                (fun i => Hres _) _ _ _ El) as [-> Hall].
    split; [done|]. split; [by apply restore_path|].
    intros v (i & -> & Hi)%list_elem_of_fmap _. by apply Hall.
  - rewrite while_next_twin_free by (try apply json_keeps_slot; apply Htwin).
    destruct (for_loop _ _ _ _) as [[o s1]| |] eqn:El; try done.
    unfold seen_erase, ret. intros [= <- <-].
    destruct (for_loop_inv (entry_step (Json.object_entry enc)) _
                (fun acc => entry_step_restores _ acc (json_object_entry_restores enc acc Hres))
                _ _ _ _ El) as [-> Hall].
    split; [done|]. split; [by apply restore_path|].
    intros v (e & -> & He)%list_elem_of_fmap _.
    destruct (Hall e He) as (a & a' & Hbody). unfold entry_step, Json.object_entry, bind in Hbody.
    destruct (negb (lua_isstring (fst e))); [done|].
    destruct (enc (snd e) (s ∪ {[p]})) as [[j' s2]| |] eqn:E; try done.
    pose proof (Hres _ _ _ _ E) as ->. by exists j'.
Qed.

Lemma json_encode_table_fuel fuel enc p s :
  restores enc ->
  Json.encode_table fuel enc h p s = OutOfFuel ->
  (p ∉ s) /\ (p ∈ dom h) /\ exists v, enc v (s ∪ {[p]}) = OutOfFuel.
Proof.
  intros Hres. unfold Json.encode_table, bind, seen_count, seen_insert.
  destruct (bool_decide (p ∈ s)) eqn:Hp; [done|]. apply bool_decide_eq_false in Hp.
  destruct (Json.is_array (heap_table h p)) as [[] len] eqn:Earr.
  - destruct (for_each _ _ _) as [[ys s1]| |] eqn:El; try done. intros _.
    destruct (for_each_fuel (fun i => enc (lua_rawgeti (heap_table h p) i)) _
                (fun i => Hres _) _ El) as (i & Hi & Hrun).
    split; [done|]. split; [|by eexists].
    destruct (heap_table h p) as [|e t] eqn:Et; [done|].
    apply (heap_table_dom h p e). rewrite Et. by left.
  - rewrite while_next_twin_free by (try apply json_keeps_slot; apply Htwin).
    destruct (for_loop _ _ _ _) as [[o s1]| |] eqn:El; try done. intros _.
    destruct (for_loop_fuel (entry_step (Json.object_entry enc)) _
                (fun acc => entry_step_restores _ acc (json_object_entry_restores enc acc Hres))
                _ _ El)
      as (e & a & He & Hrun).
    split; [done|]. split; [by apply (heap_table_dom h p e)|].
    unfold entry_step, Json.object_entry, bind in Hrun.
    destruct (negb (lua_isstring (fst e))); [done|].
    destruct (enc (snd e) (s ∪ {[p]})) as [[j' s2]| |] eqn:E; try done; [|by eexists].
    unfold ret in Hrun. cbn [fst snd] in Hrun. by destruct (lua_rawequal _ _) in Hrun.
Qed.

Definition json_enc (fuel : nat) (_ : unit) (p : positive) : Enc Json.json :=
  Json.encode_value fuel h (LTable p).

Lemma json_enc_guard f x p s r : json_enc f x p s = Ok r -> p ∉ s.
Proof.
  destruct f as [|f]; [done|]. destruct r as [j s']. unfold json_enc. simpl. intros Hrun.
  by destruct (json_encode_table_ok _ _ _ _ _ _ (json_restores f) Hrun) as (Hp & _).
Qed.

Lemma json_enc_kids f x p s r : json_enc (S f) x p s = Ok r ->
  forall q, q ∈ json_kids p -> exists x' r', json_enc f x' q (s ∪ {[p]}) = Ok r'.
Proof.
  destruct r as [j s']. unfold json_enc. simpl. intros Hrun q Hq.
  destruct (json_encode_table_ok _ _ _ _ _ _ (json_restores f) Hrun) as (_ & _ & Hall).
  apply list_elem_of_omap in Hq as (v & Hv & Hvq). destruct v; try done.
  injection Hvq as ->. destruct (Hall _ Hv eq_refl) as (j' & Hj). by exists tt, (j', s ∪ {[p]}).
Qed.

Lemma json_enc_fuel f x p s : json_enc (S f) x p s = OutOfFuel ->
  (p ∉ s) /\ (p ∈ dom h) /\ exists x' q, json_enc f x' q (s ∪ {[p]}) = OutOfFuel.
Proof.
  unfold json_enc. simpl. intros Hrun.
  destruct (json_encode_table_fuel _ _ _ _ (json_restores f) Hrun) as (Hp & Hd & v & Hv).
  split; [done|]. split; [done|]. exists tt.
  destruct f as [|f]; [by exists p|].
  destruct v; try done. by eexists.
Qed.

End JsonGuard.

Section YamlGuard.
Context `{Host}.
Variable h : gmap positive table.

(** The values the YAML encoder encodes for a table. *)
Definition yaml_traversed (t : table) : list lua_value :=
  let '(arr, len) := Yaml.is_array t in
  if arr then map (lua_rawgeti t) (seqZ 1 len) else map snd t.

Definition yaml_kids (p : positive) : list positive :=
  omap as_table (yaml_traversed (heap_table h p)).

Lemma yaml_map_entry_restores enc acc :
  restores enc -> restores (Yaml.map_entry enc acc).
Proof.
  intros Hres e s y s'. unfold Yaml.map_entry.
  destruct (negb (lua_isstring (fst e))); [done|].
  destruct (lua_isnil (snd e)); [by intros [= _ <-]|]. unfold bind.
  destruct (enc (snd e) s) as [[j s1]| |] eqn:E; try done.
  unfold ret. intros [= _ <-]. by eapply Hres.
Qed.

Lemma yaml_restores fuel : restores (Yaml.encode_lua_value fuel h).
Proof.
  induction fuel as [|fuel IH]; intros v s j s' Hrun; [done|].
  destruct v; simpl in Hrun; try (by injection Hrun as _ <-); try done.
  unfold Yaml.encode_lua_table, bind, seen_count, seen_insert in Hrun.
  destruct (bool_decide (p ∈ s)) eqn:Hp; [done|]. apply bool_decide_eq_false in Hp.
  destruct (Yaml.is_array (heap_table h p)) as [[] len].
  - destruct (for_each _ _ _) as [[ys s1]| |] eqn:El; try done.
    unfold seen_erase, ret in Hrun. injection Hrun as _ <-.
    destruct (for_each_inv _ _ (fun i => IH _) _ _ _ El) as [-> _]. by apply restore_path.
  - destruct (while_next _ _ _ _ _) as [[o s1]| |] eqn:El; try done.
    unfold seen_erase, ret in Hrun. injection Hrun as _ <-.
    rewrite (while_next_restores _ _ _ _ _ _ _
               (fun acc => yaml_map_entry_restores _ acc IH) El).
    by apply restore_path.
Qed.

Hypothesis Htwin : twin_free_heap h.

Lemma yaml_encode_table_ok fuel enc p s j s' :
  restores enc ->
  Yaml.encode_lua_table fuel enc h p s = Ok (j, s') ->
  (p ∉ s) /\ s' = s /\
  forall v, v ∈ yaml_traversed (heap_table h p) ->
    lua_isnil v = false -> exists j', enc v (s ∪ {[p]}) = Ok (j', s ∪ {[p]}).
Proof.
  intros Hres. unfold Yaml.encode_lua_table, yaml_traversed, bind, seen_count, seen_insert.
  destruct (bool_decide (p ∈ s)) eqn:Hp; [done|]. apply bool_decide_eq_false in Hp.
  destruct (Yaml.is_array (heap_table h p)) as [[] len].
  - destruct (for_each _ _ _) as [[ys s1]| |] eqn:El; try done.
    unfold seen_erase, ret. intros [= <- <-].
    destruct (for_each_inv (fun i => enc (lua_rawgeti (heap_table h p) i)) _
                (fun i => Hres _) _ _ _ El) as [-> Hall].
    split; [done|]. split; [by apply restore_path|].
    intros v (i & -> & Hi)%list_elem_of_fmap _. by apply Hall.
  - rewrite while_next_twin_free by (try apply yaml_keeps_slot; apply Htwin).
    destruct (for_loop _ _ _ _) as [[o s1]| |] eqn:El; try done.
    unfold seen_erase, ret. intros [= <- <-].
    destruct (for_loop_inv (entry_step (Yaml.map_entry enc)) _
                (fun acc => entry_step_restores _ acc (yaml_map_entry_restores enc acc Hres))
                _ _ _ _ El) as [-> Hall].
    split; [done|]. split; [by apply restore_path|].
    intros v (e & -> & He)%list_elem_of_fmap Hnil.
    destruct (Hall e He) as (a & a' & Hbody). unfold entry_step, Yaml.map_entry, bind in Hbody.
    destruct (negb (lua_isstring (fst e))); [done|]. rewrite Hnil in Hbody.
    destruct (enc (snd e) (s ∪ {[p]})) as [[j' s2]| |] eqn:E; try done.
    pose proof (Hres _ _ _ _ E) as ->. by exists j'.
Qed.

Lemma yaml_encode_table_fuel fuel enc p s :
  restores enc ->
  Yaml.encode_lua_table fuel enc h p s = OutOfFuel ->
  (p ∉ s) /\ (p ∈ dom h) /\ exists v, enc v (s ∪ {[p]}) = OutOfFuel.
Proof.
  intros Hres. unfold Yaml.encode_lua_table, bind, seen_count, seen_insert.
  destruct (bool_decide (p ∈ s)) eqn:Hp; [done|]. apply bool_decide_eq_false in Hp.
  destruct (Yaml.is_array (heap_table h p)) as [[] len] eqn:Earr.
  - destruct (for_each _ _ _) as [[ys s1]| |] eqn:El; try done. intros _.
    destruct (for_each_fuel (fun i => enc (lua_rawgeti (heap_table h p) i)) _
                (fun i => Hres _) _ El) as (i & Hi & Hrun).
    split; [done|]. split; [|by eexists].
    destruct (heap_table h p) as [|e t] eqn:Et.
    + unfold Yaml.is_array in Earr. injection Earr as <-. by apply elem_of_nil in Hi.
    + apply (heap_table_dom h p e). rewrite Et. by left.
  - rewrite while_next_twin_free by (try apply yaml_keeps_slot; apply Htwin).
    destruct (for_loop _ _ _ _) as [[o s1]| |] eqn:El; try done. intros _.
    destruct (for_loop_fuel (entry_step (Yaml.map_entry enc)) _
                (fun acc => entry_step_restores _ acc (yaml_map_entry_restores enc acc Hres))
                _ _ El)
      as (e & a & He & Hrun).
    split; [done|]. split; [by apply (heap_table_dom h p e)|].
    unfold entry_step, Yaml.map_entry, bind in Hrun.
    destruct (negb (lua_isstring (fst e))); [done|].
    destruct (lua_isnil (snd e)).
    { unfold ret in Hrun. cbn [fst snd] in Hrun. by rewrite rawequal_refl in Hrun. }
    destruct (enc (snd e) (s ∪ {[p]})) as [[j' s2]| |] eqn:E; try done; [|by eexists].
    unfold ret in Hrun. cbn [fst snd] in Hrun. by destruct (lua_rawequal _ _) in Hrun.
Qed.

Definition yaml_enc (fuel : nat) (_ : unit) (p : positive) : Enc Yaml.Node :=
  Yaml.encode_lua_value fuel h (LTable p).

Lemma yaml_enc_guard f x p s r : yaml_enc f x p s = Ok r -> p ∉ s.
Proof.
  destruct f as [|f]; [done|]. destruct r as [j s']. unfold yaml_enc. simpl. intros Hrun.
  by destruct (yaml_encode_table_ok _ _ _ _ _ _ (yaml_restores f) Hrun) as (Hp & _).
Qed.

Lemma yaml_enc_kids f x p s r : yaml_enc (S f) x p s = Ok r ->
  forall q, q ∈ yaml_kids p -> exists x' r', yaml_enc f x' q (s ∪ {[p]}) = Ok r'.
Proof.
  destruct r as [j s']. unfold yaml_enc. simpl. intros Hrun q Hq.
  destruct (yaml_encode_table_ok _ _ _ _ _ _ (yaml_restores f) Hrun) as (_ & _ & Hall).
  apply list_elem_of_omap in Hq as (v & Hv & Hvq). destruct v; try done.
  injection Hvq as ->. destruct (Hall _ Hv eq_refl) as (j' & Hj). by exists tt, (j', s ∪ {[p]}).
Qed.

Lemma yaml_enc_fuel f x p s : yaml_enc (S f) x p s = OutOfFuel ->
  (p ∉ s) /\ (p ∈ dom h) /\ exists x' q, yaml_enc f x' q (s ∪ {[p]}) = OutOfFuel.
Proof.
  unfold yaml_enc. simpl. intros Hrun.
  destruct (yaml_encode_table_fuel _ _ _ _ (yaml_restores f) Hrun) as (Hp & Hd & v & Hv).
  split; [done|]. split; [done|]. exists tt.
  destruct f as [|f]; [by exists p|].
  destruct v; try done. by eexists.
Qed.

End YamlGuard.

Section TomlGuard.
Context `{Host}.
Variable h : gmap positive table.

(** The tables the TOML encoder enters from a table: the values it encodes
    as tables. *)
Definition toml_kid (v : lua_value) : option positive :=
  match v with
  | LTable q => if Toml.is_array (heap_table h q) then None else Some q
  | _ => None
  end.

Definition toml_kids (p : positive) : list positive :=
  omap toml_kid (map snd (heap_table h p)).

Definition toml_nested (fuel : nat) (q : positive) : Enc Toml.node :=
  if Toml.is_array (heap_table h q) then Toml.encode fuel h true q
  else Toml.encode fuel h false q.

Lemma toml_array_item_restores fuel :
  (forall b p, restores (fun _ : unit => Toml.encode fuel h b p)) ->
  restores (Toml.array_item (Toml.encode fuel h true) (Toml.encode fuel h false) h).
Proof.
  intros Hres v s y s'. unfold Toml.array_item.
  destruct v as [| | | |q|]; try done; try (by intros [= _ <-]).
  destruct (Toml.is_array (heap_table h q)); intros Hrun; by apply (Hres _ _ tt _ _ _ Hrun).
Qed.

Lemma toml_table_entry_restores fuel acc :
  (forall b p, restores (fun _ : unit => Toml.encode fuel h b p)) ->
  restores (Toml.table_entry (Toml.encode fuel h true) (Toml.encode fuel h false) h acc).
Proof.
  intros Hres e s y s'. unfold Toml.table_entry.
  destruct (negb (lua_isstring (fst e))); [done|].
  destruct (snd e) as [| | | |q|]; try done; try (by intros [= _ <-]).
  unfold bind. fold (toml_nested fuel q).
  destruct (toml_nested fuel q s) as [[n s1]| |] eqn:E; try done.
  intros [= _ <-]. unfold toml_nested in E.
  destruct (Toml.is_array (heap_table h q)); by apply (Hres _ _ tt _ _ _ E).
Qed.

Lemma toml_restores fuel : forall b p, restores (fun _ : unit => Toml.encode fuel h b p).
Proof.
  induction fuel as [|fuel IH]; intros b p x s y s' Hrun; [done|].
  destruct b; simpl in Hrun.
  - unfold Toml.encode_lua_array, bind in Hrun.
    destruct (for_each _ _ _) as [[ys s1]| |] eqn:El; try done.
    injection Hrun as _ <-.
    by destruct (for_each_inv _ _
      (fun i => toml_array_item_restores fuel IH (lua_rawgeti (heap_table h p) i)) _ _ _ El).
  - unfold Toml.encode_lua_table, bind, seen_count, seen_insert in Hrun.
    destruct (bool_decide (p ∈ s)) eqn:Hp; [done|]. apply bool_decide_eq_false in Hp.
    destruct (while_next _ _ _ _ _) as [[o s1]| |] eqn:El; try done.
    unfold seen_erase, ret in Hrun. injection Hrun as _ <-.
    rewrite (while_next_restores _ _ _ _ _ _ _
               (fun acc => toml_table_entry_restores fuel acc IH) El).
    by apply restore_path.
Qed.

Hypothesis Htwin : twin_free_heap h.

Definition toml_enc (fuel : nat) (_ : unit) (p : positive) : Enc Toml.node :=
  Toml.encode fuel h false p.

Lemma toml_enc_guard f x p s r : toml_enc f x p s = Ok r -> p ∉ s.
Proof.
  destruct f as [|f]; [done|]. unfold toml_enc. simpl.
  unfold Toml.encode_lua_table, bind, seen_count.
  destruct (bool_decide (p ∈ s)) eqn:Hp; [done|]. by apply bool_decide_eq_false in Hp.
Qed.

Lemma toml_enc_kids f x p s r : toml_enc (S f) x p s = Ok r ->
  forall q, q ∈ toml_kids p -> exists x' r', toml_enc f x' q (s ∪ {[p]}) = Ok r'.
Proof.
  unfold toml_enc. simpl. unfold Toml.encode_lua_table, bind, seen_count, seen_insert.
  destruct (bool_decide (p ∈ s)) eqn:Hp; [done|].
  rewrite while_next_twin_free by (try apply toml_keeps_slot; apply Htwin).
  destruct (for_loop _ _ _ _) as [[o s1]| |] eqn:El; try done. intros _ q Hq.
  destruct (for_loop_inv _ _
    (fun acc => entry_step_restores _ acc (toml_table_entry_restores f acc (toml_restores f)))
    _ _ _ _ El) as [-> Hall].
  apply list_elem_of_omap in Hq as (v & Hv & Hvq).
  apply list_elem_of_fmap in Hv as (e & -> & He).
  destruct (Hall e He) as (a & a' & Hbody). unfold entry_step, Toml.table_entry, bind in Hbody.
  destruct (negb (lua_isstring (fst e))); [done|].
  destruct (snd e) as [| | | |q'|]; try done. simpl in Hvq.
  destruct (Toml.is_array (heap_table h q')); [done|]. injection Hvq as ->.
  destruct (Toml.encode f h false q (s ∪ {[p]})) as [r'| |] eqn:E; try done.
  by exists tt, r'.
Qed.

Lemma toml_array_mode_fuel f q s :
  Toml.is_array (heap_table h q) = true -> Toml.encode (S f) h true q s = Ok (Toml.array [], s).
Proof.
  rewrite toml_is_array_nil. destruct (heap_table h q) eqn:Et; [|done]. intros _.
  simpl. unfold Toml.encode_lua_array. by rewrite Et.
Qed.

Lemma toml_enc_fuel f x p s : toml_enc (S f) x p s = OutOfFuel ->
  (p ∉ s) /\ (p ∈ dom h) /\ exists x' q, toml_enc f x' q (s ∪ {[p]}) = OutOfFuel.
Proof.
  unfold toml_enc. simpl. unfold Toml.encode_lua_table, bind, seen_count, seen_insert.
  destruct (bool_decide (p ∈ s)) eqn:Hp; [done|]. apply bool_decide_eq_false in Hp.
  rewrite while_next_twin_free by (try apply toml_keeps_slot; apply Htwin).
  destruct (for_loop _ _ _ _) as [[o s1]| |] eqn:El; try done. intros _.
  destruct (for_loop_fuel _ _
    (fun acc => entry_step_restores _ acc (toml_table_entry_restores f acc (toml_restores f)))
    _ _ El)
    as (e & a & He & Hrun).
  split; [done|]. split; [by apply (heap_table_dom h p e)|]. exists tt.
  destruct f as [|f]; [by exists p|].
  unfold entry_step, Toml.table_entry, bind in Hrun.
  destruct (negb (lua_isstring (fst e))); [done|].
  destruct (snd e) as [| | | |q|]; try done;
    try (unfold ret in Hrun; cbn [fst snd] in Hrun; by destruct (lua_rawequal _ _) in Hrun).
  destruct (Toml.is_array (heap_table h q)) eqn:Earr.
  - rewrite (toml_array_mode_fuel f q _ Earr) in Hrun.
    unfold ret in Hrun. cbn [fst snd] in Hrun. by destruct (lua_rawequal _ _) in Hrun.
  - exists q. destruct (Toml.encode (S f) h false q (s ∪ {[p]})) as [[]| |]; try done.
    unfold ret in Hrun. cbn [fst snd] in Hrun. by destruct (lua_rawequal _ _) in Hrun.
Qed.

End TomlGuard.

Section XmlGuard.
Context `{Host}.
Variable h : gmap positive table.

(** The tables the XML encoder enters from an element: the entries of its
    [children]. *)
Definition xml_kids (p : positive) : list positive :=
  match table_get (heap_table h p) (LString "children") with
  | LTable pc =>
      omap as_table (map (lua_rawgeti (heap_table h pc)) (seqZ 1 (lua_objlen (heap_table h pc))))
  | _ => []
  end.

Lemma get_field_pure t key s r :
  Xml.get_field_string t key s = r ->
  match r with Ok (_, s') => s' = s | Error _ => True | OutOfFuel => False end.
Proof.
  intros <-. unfold Xml.get_field_string.
  destruct (lua_isnil _); [done|]. by destruct (lua_tolstring _).
Qed.

Lemma attribute_restores out : restores (Xml.attribute out).
Proof.
  intros e s y s'. unfold Xml.attribute.
  destruct (negb (lua_isstring (fst e))); [done|].
  destruct (negb (lua_isstring (snd e))); [done|]. by intros [= _ <-].
Qed.

(** The attribute loop enters no table. *)
Lemma emit_attributes_pure fuel attr out s r :
  Xml.emit_attributes fuel attr out s = r ->
  match r with Ok (_, s') => s' = s | _ => True end.
Proof.
  intros <-. unfold Xml.emit_attributes.
  destruct (while_next _ _ _ _ _) as [[o s1]| |] eqn:El; [|done|done].
  by apply (while_next_restores _ _ _ _ _ _ _ attribute_restores El).
Qed.

Lemma emit_attributes_ends fuel attr out s :
  twin_free attr = true -> Xml.emit_attributes fuel attr out s <> OutOfFuel.
Proof.
  intros Htwin. unfold Xml.emit_attributes.
  rewrite while_next_twin_free by (try apply xml_keeps_slot; done).
  intros El.
  destruct (for_loop_fuel _ _ (fun acc => entry_step_restores _ acc (attribute_restores acc))
              _ _ El) as (e & a & _ & Hrun).
  unfold entry_step, Xml.attribute, bind in Hrun.
  destruct (negb (lua_isstring (fst e))); [done|].
  destruct (negb (lua_isstring (snd e))); [done|].
  unfold ret in Hrun. cbn [fst snd] in Hrun. by destruct (lua_rawequal _ _) in Hrun.
Qed.

(** The body of [emit_element] on a table that is not being visited: an
    error, an attribute loop that does not end, a text written without
    entering any table, or the children loop and the closing tag. *)
Lemma xml_body_shape fuel enc p out depth s :
  p ∉ s ->
  (exists msg, Xml.emit_element_body fuel enc h p out depth s = Error msg) \/
  (Xml.emit_element_body fuel enc h p out depth s = OutOfFuel /\
   exists pa out0, table_get (heap_table h p) (LString "attr") = LTable pa /\
     Xml.emit_attributes fuel (heap_table h pa) out0 (s ∪ {[p]}) = OutOfFuel) \/
  (exists o, Xml.emit_element_body fuel enc h p out depth s = Ok (o, s) /\ xml_kids p = []) \/
  (exists pc out1 tag,
     table_get (heap_table h p) (LString "children") = LTable pc /\
     Xml.emit_element_body fuel enc h p out depth s
     = match Xml.emit_children enc (heap_table h pc) out1 (S depth) (s ∪ {[p]}) with
       | Ok (o, s') =>
           Ok (Xml.emit_indent o depth ++ "</" ++ tag ++ ">" ++ Xml.newline, s' ∖ {[p]})
       | Error msg => Error msg
       | OutOfFuel => OutOfFuel
       end).
Proof.
  intros Hp. remember (Xml.emit_element_body fuel enc h p out depth s) as r eqn:Er.
  unfold Xml.emit_element_body in Er. unfold xml_kids.
  unfold bind at 1 in Er. unfold seen_count in Er. rewrite bool_decide_eq_false_2 in Er by done.
  unfold bind at 1 in Er. unfold seen_insert in Er.
  unfold bind at 1 in Er.
  pose proof (get_field_pure (heap_table h p) "tag" (s ∪ {[p]}) _ eq_refl) as Htag.
  destruct (Xml.get_field_string (heap_table h p) "tag" (s ∪ {[p]})) as [[tag s1]| |];
    [subst s1|left; eauto|done].
  destruct tag as [tag|]; [|left; eauto].
  destruct (String.length tag =? 0)%nat; [left; eauto|].
  destruct (negb (lua_isnil (table_get (heap_table h p) (LString "attr"))) && _);
    [left; eauto|].
  unfold bind at 1 in Er.
  pose proof (get_field_pure (heap_table h p) "text" (s ∪ {[p]}) _ eq_refl) as Htext.
  destruct (Xml.get_field_string (heap_table h p) "text" (s ∪ {[p]})) as [[text s1]| |];
    [subst s1|left; eauto|done].
  destruct (negb (lua_isnil (table_get (heap_table h p) (LString "children"))) && _);
    [left; eauto|].
  unfold bind at 1 in Er.
  set (open := Xml.emit_indent out depth ++ "<" ++ tag) in Er.
  assert (Hattr : match (match table_get (heap_table h p) (LString "attr") with
                         | LTable pa => Xml.emit_attributes fuel (heap_table h pa) open
                         | _ => ret open
                         end) (s ∪ {[p]}) with
                  | Ok (_, s') => s' = s ∪ {[p]}
                  | Error _ => True
                  | OutOfFuel =>
                      exists pa out0, table_get (heap_table h p) (LString "attr") = LTable pa /\
                        Xml.emit_attributes fuel (heap_table h pa) out0 (s ∪ {[p]}) = OutOfFuel
                  end).
  { destruct (table_get (heap_table h p) (LString "attr")) as [| | | |pa|]; try done.
    pose proof (emit_attributes_pure fuel (heap_table h pa) open (s ∪ {[p]}) _ eq_refl) as Hpure.
    destruct (Xml.emit_attributes fuel (heap_table h pa) open (s ∪ {[p]})) as [[o s1]| |] eqn:Ea;
      [done|done|]. by exists pa, open. }
  destruct ((match table_get (heap_table h p) (LString "attr") with
             | LTable pa => Xml.emit_attributes fuel (heap_table h pa) open
             | _ => ret open
             end) (s ∪ {[p]})) as [[out0 s1]| |]; [subst s1|left; eauto|right; left; by split].
  destruct (table_get (heap_table h p) (LString "children")) as [| | | |pc|] eqn:Ech;
    cbn [negb andb] in Er;
    try solve [right; right; left; destruct (negb _) in Er;
               unfold bind, ret, seen_erase in Er; cbv beta iota in Er;
               rewrite restore_path in Er by done; eauto].
  destruct (lua_objlen (heap_table h pc) >? 0)%Z eqn:Elen; cbn [negb andb] in Er.
  - right; right; right.
    exists pc, ((if match text with
                    | Some s0 => negb (String.length s0 =? 0)%nat
                    | None => false
                    end
                 then Xml.xml_escape_append (out0 ++ ">") (default "" text)
                 else out0 ++ ">") ++ Xml.newline), tag.
    split; [done|].
    unfold bind at 1 in Er. unfold bind at 1 in Er. unfold bind at 1 in Er.
    rewrite Er. destruct (Xml.emit_children _ _ _ _ _) as [[o s1]| |]; done.
  - right; right; left.
    assert (Hnone : seqZ 1 (lua_objlen (heap_table h pc)) = []).
    { apply seqZ_nil. rewrite Z.gtb_ltb in Elen. apply Z.ltb_ge in Elen. lia. }
    rewrite Hnone. destruct (negb _) in Er;
      unfold bind, ret, seen_erase in Er; cbv beta iota in Er;
      rewrite restore_path in Er by done; eauto.
Qed.

Definition xml_enc (fuel : nat) (x : string * nat) (p : positive) : Enc string :=
  Xml.emit_element fuel h p (fst x) (snd x).

Lemma xml_child_restores enc depth tc :
  (forall q out d, restores (fun _ : unit => enc q out d)) ->
  forall out, restores (fun i => Xml.child enc depth out (lua_rawgeti tc i)).
Proof.
  intros Hres out i s y s'. unfold Xml.child.
  destruct (lua_rawgeti tc i); try done. intros Hrun. by apply (Hres _ _ _ tt _ _ _ Hrun).
Qed.

Lemma xml_restores fuel : forall p out d, restores (fun _ : unit => Xml.emit_element fuel h p out d).
Proof.
  induction fuel as [|fuel IH]; intros p out d x s y s' Hrun; [done|].
  simpl in Hrun.
  destruct (decide (p ∈ s)) as [Hin|Hp].
  { unfold Xml.emit_element_body, bind, seen_count in Hrun.
    by rewrite bool_decide_eq_true_2 in Hrun. }
  destruct (xml_body_shape fuel (Xml.emit_element fuel h) p out d s Hp)
    as [(msg & Hb)|[(Hb & _)|[(o & Hb & _)|(pc & out1 & tag & _ & Hb)]]];
    rewrite Hb in Hrun; [done|done|by injection Hrun as _ <-|].
  unfold Xml.emit_children in Hrun.
  destruct (for_loop _ _ _ _) as [[o s1]| |] eqn:El; try done.
  injection Hrun as _ <-.
  destruct (for_loop_inv _ _ (xml_child_restores _ (S d) (heap_table h pc) IH) _ _ _ _ El)
    as [-> _].
  by apply restore_path.
Qed.

Lemma xml_enc_guard f x p s r : xml_enc f x p s = Ok r -> p ∉ s.
Proof.
  destruct f as [|f]; [done|]. unfold xml_enc. simpl.
  unfold Xml.emit_element_body, bind, seen_count.
  destruct (bool_decide (p ∈ s)) eqn:Hp; [done|]. by apply bool_decide_eq_false in Hp.
Qed.

Lemma xml_enc_kids f x p s r : xml_enc (S f) x p s = Ok r ->
  forall q, q ∈ xml_kids p -> exists x' r', xml_enc f x' q (s ∪ {[p]}) = Ok r'.
Proof.
  intros Hrun q Hq. pose proof (xml_enc_guard _ _ _ _ _ Hrun) as Hp.
  unfold xml_enc in Hrun. simpl in Hrun.
  destruct (xml_body_shape f (Xml.emit_element f h) p (fst x) (snd x) s Hp)
    as [(msg & Hb)|[(Hb & _)|[(o & Hb & Hk)|(pc & out1 & tag & Hpc & Hb)]]].
  - by rewrite Hb in Hrun.
  - by rewrite Hb in Hrun.
  - rewrite Hk in Hq. by apply elem_of_nil in Hq.
  - rewrite Hb in Hrun. unfold Xml.emit_children in Hrun.
    destruct (for_loop _ _ _ _) as [[o s1]| |] eqn:El; try done.
    destruct (for_loop_inv _ _
      (xml_child_restores _ (S (snd x)) (heap_table h pc) (xml_restores f)) _ _ _ _ El)
      as [-> Hall].
    unfold xml_kids in Hq. rewrite Hpc in Hq.
    apply list_elem_of_omap in Hq as (v & Hv & Hvq).
    apply list_elem_of_fmap in Hv as (i & -> & Hi).
    destruct (Hall i Hi) as (a & a' & Hbody). unfold Xml.child in Hbody.
    destruct (lua_rawgeti (heap_table h pc) i); try done. injection Hvq as ->.
    by exists (a, S (snd x)), (a', s ∪ {[p]}).
Qed.

Hypothesis Htwin : twin_free_heap h.

Lemma xml_enc_fuel f x p s : xml_enc (S f) x p s = OutOfFuel ->
  (p ∉ s) /\ (p ∈ dom h) /\ exists x' q, xml_enc f x' q (s ∪ {[p]}) = OutOfFuel.
Proof.
  unfold xml_enc. simpl. intros Hrun.
  destruct (decide (p ∈ s)) as [Hin|Hp].
  { unfold Xml.emit_element_body, bind, seen_count in Hrun.
    by rewrite bool_decide_eq_true_2 in Hrun. }
  destruct (xml_body_shape f (Xml.emit_element f h) p (fst x) (snd x) s Hp)
    as [(msg & Hb)|[(_ & pa & out0 & _ & Hb)|[(o & Hb & Hk)|(pc & out1 & tag & Hpc & Hb)]]].
  - by rewrite Hb in Hrun.
  - by apply emit_attributes_ends in Hb.
  - by rewrite Hb in Hrun.
  - rewrite Hb in Hrun. split; [done|]. split.
    { assert (Hnn : lua_isnil (table_get (heap_table h p) (LString "children")) = false)
        by (by rewrite Hpc).
      destruct (table_get_entry _ _ Hnn) as (e & He & _). by apply (heap_table_dom h p e). }
    unfold Xml.emit_children in Hrun.
    destruct (for_loop _ _ _ _) as [[o s1]| |] eqn:El; try done.
    destruct (for_loop_fuel _ _
      (xml_child_restores _ (S (snd x)) (heap_table h pc) (xml_restores f)) _ _ El)
      as (i & a & _ & Hbody).
    unfold Xml.child in Hbody. destruct (lua_rawgeti (heap_table h pc) i); try done.
    by exists (a, S (snd x)); eexists.
Qed.

End XmlGuard.

(** [t = {self = t}], [t = {tag = "a", self = t}], [t = {tag = "a",
    children = {t}}] and [{a = x, b = x}] with [x = {}]. *)
Definition self_heap : gmap positive table :=
  {[1%positive := [(LString "self", LTable 1)]]}.
Definition xml_extra_field_heap : gmap positive table :=
  {[1%positive := [(LString "tag", LString "a"); (LString "self", LTable 1)]]}.
Definition xml_self_child_heap : gmap positive table :=
  {[1%positive := [(LString "tag", LString "a"); (LString "children", LTable 2)];
    2%positive := [(LNumber 1, LTable 1)]]}.
Definition sibling_heap : gmap positive table :=
  {[1%positive := [(LString "a", LTable 2); (LString "b", LTable 2)];
    2%positive := []]}.

Definition outcome {A} (fuel bound : nat) (r : result A) : Prop :=
  match r with
  | Ok _ => False
  | Error _ => True
  | OutOfFuel => (fuel <= bound)%nat
  end.

Section CycleGuard.
Context `{Host}.
Variable h : gmap positive table.

Lemma outcome_serialize {A B} fuel (r : result (A * B)) :
  outcome fuel (size (dom h ∖ ∅)) r ->
  outcome fuel (size (dom h))
    match r with Ok (a, _) => Ok a | Error msg => Error msg | OutOfFuel => OutOfFuel end.
Proof. rewrite difference_empty_L. by destruct r as [[]| |]. Qed.

(** C6, as the code has it.  In each of the four encoders: entering a table
    that is being visited is the cyclic-structure error.  In a heap where no
    table has a number key together with the string the number converts to,
    a table that is met again below itself, along the entries the encoder
    traverses, is never serialized, and the call fails as soon as the
    recursion may be as deep as the heap has tables (with that error unless
    another one comes first).  A table that was encoded leaves the set of
    visited tables as it found it, so that a second, sibling reference to it
    is encoded as the first was. *)
Theorem cycle_guard :
  (forall fuel p seen, p ∈ seen ->
     Json.encode_value (S fuel) h (LTable p) seen = Error "cannot serialize cyclic table" /\
     Yaml.encode_lua_value (S fuel) h (LTable p) seen
       = Error "cannot serialize cyclic table to yaml" /\
     Toml.encode (S fuel) h false p seen = Error "cyclic tables not allowed in toml" /\
     forall out depth,
       Xml.emit_element (S fuel) h p out depth seen
       = Error "cannot serialize cyclic table to xml") /\
  (forall fuel p k, twin_free_heap h -> k ∈ json_kids h p -> reaches (json_kids h) k p ->
     outcome fuel (size (dom h)) (Json.jsonserialize_tree fuel h (LTable p))) /\
  (forall fuel p k, twin_free_heap h -> k ∈ yaml_kids h p -> reaches (yaml_kids h) k p ->
     outcome fuel (size (dom h)) (Yaml.yamlserialize_node fuel h (LTable p))) /\
  (forall fuel p k, twin_free_heap h -> k ∈ toml_kids h p -> reaches (toml_kids h) k p ->
     outcome fuel (size (dom h)) (Toml.tomlserialize_node fuel h (LTable p))) /\
  (forall fuel p k, twin_free_heap h -> k ∈ xml_kids h p -> reaches (xml_kids h) k p ->
     outcome fuel (size (dom h)) (Xml.xmlserialize fuel h (LTable p))) /\
  (forall fuel v seen j seen',
     Json.encode_value fuel h v seen = Ok (j, seen') ->
     seen' = seen /\ Json.encode_value fuel h v seen' = Ok (j, seen')) /\
  (forall fuel v seen n seen',
     Yaml.encode_lua_value fuel h v seen = Ok (n, seen') ->
     seen' = seen /\ Yaml.encode_lua_value fuel h v seen' = Ok (n, seen')) /\
  (forall fuel b p seen n seen',
     Toml.encode fuel h b p seen = Ok (n, seen') ->
     seen' = seen /\ Toml.encode fuel h b p seen' = Ok (n, seen')) /\
  (forall fuel p out depth seen out' seen',
     Xml.emit_element fuel h p out depth seen = Ok (out', seen') ->
     seen' = seen /\ Xml.emit_element fuel h p out depth seen' = Ok (out', seen')).
Proof.
  split; [|split; [|split; [|split; [|split; [|split; [|split; [|split]]]]]]].
  - intros fuel p seen Hp. repeat split; try intros out depth; simpl;
      unfold Json.encode_table, Yaml.encode_lua_table, Toml.encode_lua_table,
        Xml.emit_element_body, bind, seen_count;
      by rewrite bool_decide_eq_true_2.
  - intros fuel p k Htwin Hk Hreach. unfold Json.jsonserialize_tree. simpl lua_type. cbv iota.
    apply outcome_serialize.
    exact (cycle_outcome (json_enc h) (json_kids h) (dom h) (json_enc_guard h Htwin)
             (json_enc_kids h Htwin) (json_enc_fuel h Htwin) (fun _ _ _ _ => ltac:(done))
             fuel tt p ∅ k Hk Hreach).
  - intros fuel p k Htwin Hk Hreach. unfold Yaml.yamlserialize_node. simpl lua_type. cbv iota.
    apply outcome_serialize.
    exact (cycle_outcome (yaml_enc h) (yaml_kids h) (dom h) (yaml_enc_guard h Htwin)
             (yaml_enc_kids h Htwin) (yaml_enc_fuel h Htwin) (fun _ _ _ _ => ltac:(done))
             fuel tt p ∅ k Hk Hreach).
  - intros fuel p k Htwin Hk Hreach. unfold Toml.tomlserialize_node.
    apply outcome_serialize.
    exact (cycle_outcome (toml_enc h) (toml_kids h) (dom h) (toml_enc_guard h)
             (toml_enc_kids h Htwin) (toml_enc_fuel h Htwin) (fun _ _ _ _ => ltac:(done))
             fuel tt p ∅ k Hk Hreach).
  - intros fuel p k Htwin Hk Hreach. unfold Xml.xmlserialize.
    apply outcome_serialize.
    exact (cycle_outcome (xml_enc h) (xml_kids h) (dom h) (xml_enc_guard h)
             (xml_enc_kids h) (xml_enc_fuel h Htwin) (fun _ _ _ _ => ltac:(done))
             fuel ("", 0%nat) p ∅ k Hk Hreach).
  - intros fuel v seen j seen' Hrun.
    pose proof (json_restores h fuel _ _ _ _ Hrun) as ->. by split.
  - intros fuel v seen n seen' Hrun.
    pose proof (yaml_restores h fuel _ _ _ _ Hrun) as ->. by split.
  - intros fuel b p seen n seen' Hrun.
    pose proof (toml_restores h fuel b p tt _ _ _ Hrun) as ->. by split.
  - intros fuel p out depth seen out' seen' Hrun.
    pose proof (xml_restores h fuel p out depth tt _ _ _ Hrun) as ->. by split.
Qed.

End CycleGuard.

(** A record that holds itself in a field the XML encoder does not read is
    serialized. *)
Lemma self_reference_not_cyclic_error :
  @Xml.xmlserialize Sample.host 1 xml_extra_field_heap (LTable 1)
    = Ok ("<a/>" ++ String "010"%char EmptyString).
Proof. vm_compute. reflexivity. Qed.

(** [t = {[1] = "x", k = t, ["1"] = "y"}], its entries visited in this
    order: the key 1 is converted where it lies, the traversal resumes after
    the key "1", and the entry that holds the table itself is passed over. *)
Definition resumed_heap : gmap positive table :=
  {[1%positive := [(LNumber 1, LString "x"); (LString "k", LTable 1);
                   (LString "1", LString "y")]]}.

Lemma resumed_traversal :
  @twin_free Sample.host (heap_table resumed_heap 1) = false /\
  (1%positive ∈ @json_kids Sample.host resumed_heap 1) /\
  @Json.jsonserialize_tree Sample.host 2 resumed_heap (LTable 1)
    = Ok (Json.JObject [("1", Json.JString "x")]).
Proof.
  split; [vm_compute; reflexivity|]. split; [vm_compute; set_solver|].
  vm_compute. reflexivity.
Qed.

Lemma cycle_guard_witness :
  @twin_free_heap Sample.host self_heap /\
  (1%positive ∈ @json_kids Sample.host self_heap 1) /\
  reaches (@json_kids Sample.host self_heap) 1 1 /\
  outcome 2 (size (dom self_heap)) (@Json.jsonserialize_tree Sample.host 2 self_heap (LTable 1)) /\
  @Json.jsonserialize_tree Sample.host 2 self_heap (LTable 1)
    = Error "cannot serialize cyclic table" /\
  @Yaml.yamlserialize_node Sample.host 2 self_heap (LTable 1)
    = Error "cannot serialize cyclic table to yaml" /\
  @Toml.tomlserialize_node Sample.host 2 self_heap (LTable 1)
    = Error "cyclic tables not allowed in toml" /\
  @Xml.xmlserialize Sample.host 2 xml_self_child_heap (LTable 1)
    = Error "cannot serialize cyclic table to xml" /\
  @Json.jsonserialize_tree Sample.host 2 sibling_heap (LTable 1)
    = Ok (Json.JObject [("a", Json.JObject []); ("b", Json.JObject [])]) /\
  @Yaml.yamlserialize_node Sample.host 2 sibling_heap (LTable 1)
    = Ok (Yaml.Map [(Yaml.Scalar "a", Yaml.Sequence []); (Yaml.Scalar "b", Yaml.Sequence [])]) /\
  @Toml.tomlserialize_node Sample.host 2 sibling_heap (LTable 1)
    = Ok (Toml.table_node [("a", Toml.array []); ("b", Toml.array [])]).
Proof.
  assert (Ht : @twin_free_heap Sample.host self_heap).
  { refine (heap_table_cases (fun t => @twin_free Sample.host t = true) _ eq_refl _).
    by apply map_Forall_singleton. }
  assert (Hk : 1%positive ∈ @json_kids Sample.host self_heap 1) by (vm_compute; left).
  assert (Hr : reaches (@json_kids Sample.host self_heap) 1 1) by constructor.
  split; [done|]. split; [done|]. split; [done|]. split.
  - destruct (@cycle_guard Sample.host self_heap) as (_ & Hjson & _).
    exact (Hjson 2%nat 1%positive 1%positive Ht Hk Hr).
  - repeat split; vm_compute; reflexivity.
Defined.

(** ** JSON round trip (C1) *)

(** The value model of section 3. *)
Inductive Value : Type :=
| VNil
| VBool (b : bool)
| VNumber (n : lua_Number)
| VString (s : string)
| VSequence (l : list Value)
| VMapping (l : list (string * Value)).

Lemma Value_induction (P : Value -> Prop) :
  P VNil -> (forall b, P (VBool b)) -> (forall n, P (VNumber n)) -> (forall s, P (VString s)) ->
  (forall l, Forall P l -> P (VSequence l)) ->
  (forall l, Forall (fun kx => P (snd kx)) l -> P (VMapping l)) ->
  forall x, P x.
Proof.
  intros Hnil Hbool Hnum Hstr Hseq Hmap. fix IH 1.
  intros [|b|n|s|l|l]; [exact Hnil|apply Hbool|apply Hnum|apply Hstr| |].
  - apply Hseq. induction l as [|x l IHl]; constructor; [apply IH|apply IHl].
  - apply Hmap. induction l as [|[k x] l IHl]; constructor; [apply IH|apply IHl].
Qed.

(** The entries [i], [i+1], ... of a table hold the elements of a
    Sequence; the entries under the keys of a Mapping hold its values. *)
Fixpoint seq_items (R : lua_value -> Value -> Prop) (t : table) (i : Z) (l : list Value) : Prop :=
  match l with
  | [] => True
  | x :: l' => R (lua_rawgeti t i) x /\ seq_items R t (i + 1)%Z l'
  end.

Fixpoint map_fields (R : lua_value -> Value -> Prop) (t : table)
    (l : list (string * Value)) : Prop :=
  match l with
  | [] => True
  | kx :: l' => R (table_get t (LString (fst kx))) (snd kx) /\ map_fields R t l'
  end.

(** The host value [v] holds the value [x]: a Sequence is a table whose keys
    are the integers 1..N, a Mapping one whose keys are the Mapping's
    strings, a nil entry being an absent key.  [D] holds the tables the
    value may be made of; a table's entries are made of the others, so no
    table is found again below itself and every table is in the heap when
    [D] is its domain. *)
Fixpoint holds (h : gmap positive table) (D : gset positive) (v : lua_value) (x : Value)
    {struct x} : Prop :=
  match x with
  | VNil => v = LNil
  | VBool b => v = LBoolean b
  | VNumber n => v = LNumber n
  | VString s => v = LString s
  | VSequence l =>
      exists p, v = LTable p /\ (p ∈ D) /\
        Forall (fun e => exists i, (1 <= i <= Z.of_nat (length l))%Z /\
                           lua_rawequal (fst e) (LNumber (inject_Z i)) = true)
               (heap_table h p) /\
        seq_items (holds h (D ∖ {[p]})) (heap_table h p) 1 l
  | VMapping l =>
      exists p, v = LTable p /\ (p ∈ D) /\ NoDup (map fst l) /\
        Forall (fun e => exists k, fst e = LString k /\ k ∈ map fst l /\
                           table_get (heap_table h p) (fst e) = snd e)
               (heap_table h p) /\
        map_fields (holds h (D ∖ {[p]})) (heap_table h p) l
  end.

(** The values the amended claim is about: no Nil, and strings that are C
    strings. *)
Fixpoint plain (x : Value) : bool :=
  match x with
  | VNil => false
  | VBool _ | VNumber _ => true
  | VString s => String.eqb (c_str s) s
  | VSequence l => forallb plain l
  | VMapping l => forallb (fun kx => String.eqb (c_str (fst kx)) (fst kx) && plain (snd kx)) l
  end.

Fixpoint depth (x : Value) : nat :=
  match x with
  | VSequence l => S (list_max (map depth l))
  | VMapping l => S (list_max (map (fun kx => depth (snd kx)) l))
  | _ => 0
  end.

Definition is_table (x : Value) : bool :=
  match x with VSequence _ | VMapping _ => true | _ => false end.

(** The values whose strings are UTF-8, which the emitter can write. *)
Definition is_utf8 (s : string) : bool :=
  match Json.string_error s with None => true | Some _ => false end.

Fixpoint utf8 (x : Value) : bool :=
  match x with
  | VString s => is_utf8 s
  | VSequence l => forallb utf8 l
  | VMapping l => forallb (fun kx => is_utf8 (fst kx) && utf8 (snd kx)) l
  | _ => true
  end.

Lemma seq_items_impl (R R' : lua_value -> Value -> Prop) t l :
  Forall (fun x => forall v, R v x -> R' v x) l ->
  forall i, seq_items R t i l -> seq_items R' t i l.
Proof.
  induction 1 as [|x l Hx _ IH]; intros i; simpl; [done|].
  intros [Hv Hrest]. split; [by apply Hx|by apply IH].
Qed.

Lemma map_fields_impl (R R' : lua_value -> Value -> Prop) t l :
  Forall (fun kx => forall v, R v (snd kx) -> R' v (snd kx)) l ->
  map_fields R t l -> map_fields R' t l.
Proof.
  induction 1 as [|x l Hx _ IH]; simpl; [done|].
  intros [Hv Hrest]. split; [by apply Hx|by apply IH].
Qed.

Lemma seq_items_table (R : lua_value -> Value -> Prop) t t' l :
  (forall i, lua_rawgeti t' i = lua_rawgeti t i) ->
  forall i, seq_items R t i l -> seq_items R t' i l.
Proof.
  intros Ht. induction l as [|x l IH]; intros i; simpl; [done|].
  intros [Hv Hrest]. rewrite Ht. split; [done|by apply IH].
Qed.

(** A value is made of the tables of [D] only: more tables, or other
    entries in the tables outside [D], change nothing. *)
Lemma holds_mono h x : forall D D' v, D ⊆ D' -> holds h D v x -> holds h D' v x.
Proof.
  induction x as [| | | |l IH|l IH] using Value_induction; intros D D' v HD; simpl; try done.
  - intros (p & -> & Hp & Hkeys & Hitems). exists p. repeat split; [set_solver|done|].
    eapply seq_items_impl; [|exact Hitems].
    eapply Forall_impl; [exact IH|]. intros x Hx v. apply Hx. set_solver.
  - intros (p & -> & Hp & Hnd & Hkeys & Hitems). exists p. repeat split; [set_solver|done|done|].
    eapply map_fields_impl; [|exact Hitems].
    eapply Forall_impl; [exact IH|]. intros x Hx v. apply Hx. set_solver.
Qed.

Lemma holds_frame h h' x : forall D v,
  (forall p, p ∈ D -> heap_table h' p = heap_table h p) ->
  holds h D v x -> holds h' D v x.
Proof.
  induction x as [| | | |l IH|l IH] using Value_induction; intros D v HD; simpl; try done.
  - intros (p & -> & Hp & Hkeys & Hitems). exists p. rewrite (HD p Hp).
    repeat split; [done|done|].
    eapply seq_items_impl; [|exact Hitems].
    eapply Forall_impl; [exact IH|]. intros x Hx v. apply Hx.
    intros q Hq. apply HD. set_solver.
  - intros (p & -> & Hp & Hnd & Hkeys & Hitems). exists p. rewrite (HD p Hp).
    repeat split; [done|done|done|].
    eapply map_fields_impl; [|exact Hitems].
    eapply Forall_impl; [exact IH|]. intros x Hx v. apply Hx.
    intros q Hq. apply HD. set_solver.
Qed.

Lemma holds_plain_not_nil h D v x : plain x = true -> holds h D v x -> lua_isnil v = false.
Proof.
  destruct x; simpl; try done; try (by intros _ ->); by intros _ (p & -> & _).
Qed.

(** *** Decoding the events of a tree *)

Open Scope list_scope.

(** Running the events of [j] pushes a value that holds [x], made of tables
    the run created, and gives it to [insert_value]; the tables that were
    there are as they were. *)
Definition decodes (j : Json.json) (x : Value) : Prop :=
  forall (L : Json.lua_State) (frames : list Json.Frame) (rest : list Json.sax_event),
  exists h' v,
    Json.sax_run (Json.sax_events j ++ rest) (L, frames)
      = match Json.insert_value (Json.mkState h' (v :: Json.st_stack L), frames) with
        | Ok s => Json.sax_run rest s
        | Error msg => Error msg
        | OutOfFuel => OutOfFuel
        end /\
    dom (Json.st_heap L) ⊆ dom h' /\
    (forall p, p ∈ dom (Json.st_heap L) -> h' !! p = Json.st_heap L !! p) /\
    holds h' (dom h' ∖ dom (Json.st_heap L)) v x /\
    lua_isnil v = false.

(** The table the array loop builds: [k+1], [k+2], ... in order. *)
Fixpoint seq_table (k : Z) (vs : list lua_value) : table :=
  match vs with
  | [] => []
  | v :: r => (LNumber (inject_Z (k + 1)), v) :: seq_table (k + 1) r
  end.

Lemma rawequal_inject i j : lua_rawequal (LNumber (inject_Z i)) (LNumber (inject_Z j)) = (i =? j)%Z.
Proof.
  simpl. destruct (Z.eqb_spec i j) as [->|Hne].
  - apply Qeq_eq_bool. reflexivity.
  - destruct (Qeq_bool (inject_Z i) (inject_Z j)) eqn:E; [|done].
    apply Qeq_bool_eq in E. unfold Qeq in E. simpl in E. lia.
Qed.

Lemma table_set_new t k v :
  lua_isnil v = false -> Forall (fun e => lua_rawequal (fst e) k = false) t ->
  table_set t k v = t ++ [(k, v)].
Proof.
  intros Hv. induction 1 as [|[k' v'] t Hk _ IH]; simpl.
  - by rewrite Hv.
  - simpl in Hk. by rewrite Hk, IH.
Qed.

Lemma table_get_app_new t k v k' :
  Forall (fun e => lua_rawequal (fst e) k' = false) t ->
  table_get (t ++ [(k, v)]) k' = if lua_rawequal k k' then v else LNil.
Proof.
  induction 1 as [|[k0 v0] t Hk _ IH]; simpl; [done|]. simpl in Hk. by rewrite Hk.
Qed.

Lemma table_get_app_old t t' k :
  lua_isnil (table_get t k) = false -> table_get (t ++ t') k = table_get t k.
Proof.
  induction t as [|[k0 v0] t IH]; simpl; [done|]. by destruct (lua_rawequal k0 k).
Qed.

Lemma table_get_absent t k :
  Forall (fun e => lua_rawequal (fst e) k = false) t -> table_get t k = LNil.
Proof. induction 1 as [|[k0 v0] t Hk _ IH]; simpl; [done|]. simpl in Hk. by rewrite Hk. Qed.

Lemma seq_table_keys k vs i :
  (i <= k)%Z -> Forall (fun e => lua_rawequal (fst e) (LNumber (inject_Z i)) = false) (seq_table k vs).
Proof.
  revert k. induction vs as [|v vs IH]; intros k Hi; simpl; constructor.
  - simpl fst. rewrite rawequal_inject. apply Z.eqb_neq. lia.
  - apply IH. lia.
Qed.

Lemma seq_table_app k vs v :
  seq_table k (vs ++ [v]) = seq_table k vs ++ [(LNumber (inject_Z (k + Z.of_nat (length vs) + 1)), v)].
Proof.
  revert k. induction vs as [|v0 vs IH]; intros k; simpl.
  - by rewrite Z.add_0_r.
  - rewrite IH.
    replace (k + 1 + Z.of_nat (length vs) + 1)%Z with (k + Z.of_nat (S (length vs)) + 1)%Z by lia.
    done.
Qed.

Lemma rawgeti_seq_table vs : forall k (i : nat) v,
  vs !! i = Some v -> lua_isnil v = false ->
  lua_rawgeti (seq_table k vs) (k + Z.of_nat i + 1) = v.
Proof.
  induction vs as [|v0 vs IH]; intros k i v Hi Hv; [done|].
  unfold lua_rawgeti. cbn [seq_table table_get fst snd]. rewrite rawequal_inject.
  destruct i as [|i]; simpl in Hi.
  - injection Hi as ->. rewrite Z.add_0_r, Z.eqb_refl. done.
  - destruct (Z.eqb_spec (k + 1) (k + Z.of_nat (S i) + 1)) as [Heq|_]; [lia|].
    replace (k + Z.of_nat (S i) + 1)%Z with ((k + 1) + Z.of_nat i + 1)%Z by lia.
    by apply IH.
Qed.

Lemma decodes_bool b : decodes (Json.JBool b) (VBool b).
Proof. intros [h stk] frames rest. exists h, (LBoolean b). simpl. by repeat split. Qed.

Lemma decodes_number n : decodes (Json.JNumber n) (VNumber n).
Proof. intros [h stk] frames rest. exists h, (LNumber n). simpl. by repeat split. Qed.

Lemma decodes_string s : decodes (Json.JString s) (VString s).
Proof. intros [h stk] frames rest. exists h, (LString s). simpl. by repeat split. Qed.

(** The array loop: each item's events append the item at the next index
    of the open table. *)
Lemma array_loop js xs :
  Forall2 decodes js xs ->
  forall h stk frames p k t rest,
    h !! p = Some t ->
    (forall i, (k < i)%Z ->
       Forall (fun e => lua_rawequal (fst e) (LNumber (inject_Z i)) = false) t) ->
    exists h' vs,
      Json.sax_run (concat (map Json.sax_events js) ++ rest)
          (Json.mkState h (LTable p :: stk), Json.mkFrame true k :: frames)
        = Json.sax_run rest (Json.mkState h' (LTable p :: stk),
                             Json.mkFrame true (k + Z.of_nat (length js)) :: frames) /\
      h' !! p = Some (t ++ seq_table k vs) /\
      dom h ⊆ dom h' /\
      (forall q, q ∈ dom h -> q <> p -> h' !! q = h !! q) /\
      Forall2 (fun v x => holds h' (dom h' ∖ dom h) v x /\ lua_isnil v = false) vs xs.
Proof.
  induction 1 as [|j x js xs Hd _ IH]; intros h stk frames p k t rest Hp Hkeys.
  - exists h, []. simpl. rewrite Z.add_0_r, app_nil_r. by repeat split.
  - simpl concat. rewrite <- app_assoc.
    destruct (Hd (Json.mkState h (LTable p :: stk)) (Json.mkFrame true k :: frames)
                (concat (map Json.sax_events js) ++ rest))
      as (h1 & v & Hrun & Hdom & Hold & Hh & Hv).
    simpl in Hdom, Hold, Hh. rewrite Hrun. clear Hrun.
    assert (Hp1 : h1 !! p = Some t).
    { rewrite Hold; [done|]. by apply elem_of_dom. }
    unfold Json.insert_value, Json.lua_rawseti. cbn [Json.isArray Json.index Json.st_stack Json.st_heap].
    unfold heap_table at 1. rewrite Hp1. cbn [default from_option].
    rewrite (table_set_new t _ v Hv) by (apply Hkeys; lia).
    set (t' := t ++ [(LNumber (inject_Z (k + 1)), v)]).
    destruct (IH (<[p := t']> h1) stk frames p (k + 1)%Z t' rest) as (h' & vs & Hrun & Hp' & Hdom' & Hold' & Hvs).
    { by rewrite lookup_insert_eq. }
    { intros i Hi. apply Forall_app. split; [apply Hkeys; lia|].
      constructor; [|constructor]. simpl fst. rewrite rawequal_inject. apply Z.eqb_neq. lia. }
    exists h', (v :: vs).
    assert (Hd2 : dom h1 ⊆ dom (<[p := t']> h1)) by (rewrite dom_insert; set_solver).
    repeat split.
    + etransitivity; [exact Hrun|]. do 4 f_equal. simpl length. lia.
    + rewrite Hp'. unfold t'. by rewrite <- app_assoc.
    + set_solver.
    + intros q Hq Hne. rewrite Hold' by (try done; set_solver).
      rewrite lookup_insert_ne by done. by apply Hold.
    + constructor.
      * split; [|done]. apply (holds_mono _ _ (dom h1 ∖ dom h)); [set_solver|].
        apply (holds_frame h1); [|done].
        intros q Hq. unfold heap_table. rewrite Hold'.
        -- rewrite lookup_insert_ne; [done|]. intros <-.
           apply elem_of_difference in Hq as [_ Hq]. apply Hq. by apply elem_of_dom.
        -- set_solver.
        -- intros ->. apply elem_of_difference in Hq as [_ Hq]. apply Hq. by apply elem_of_dom.
      * eapply Forall2_impl; [exact Hvs|]. intros v' x' [Hx' Hv']. split; [|done].
        eapply holds_mono; [|exact Hx']. set_solver.
Qed.

Lemma seq_items_seq_table R vs : forall xs,
  Forall2 (fun v x => R v x /\ lua_isnil v = false) vs xs ->
  forall t i, (forall (n : nat) v, vs !! n = Some v -> lua_isnil v = false ->
                 lua_rawgeti t (i + Z.of_nat n) = v) ->
  seq_items R t i xs.
Proof.
  induction vs as [|v vs IH]; intros xs Hall t i Ht.
  - by apply Forall2_nil_inv_l in Hall as ->.
  - apply Forall2_cons_inv_l in Hall as (x & xs' & [Hx Hv] & Hall & ->). simpl. split.
    + rewrite <- (Z.add_0_r i). change 0%Z with (Z.of_nat 0). by rewrite (Ht 0%nat v).
    + apply (IH _ Hall). intros n v' Hn Hv'.
      replace (i + 1 + Z.of_nat n)%Z with (i + Z.of_nat (S n))%Z by lia. by apply Ht.
Qed.

Lemma seq_table_key k vs e :
  e ∈ seq_table k vs ->
  exists i, (k + 1 <= i <= k + Z.of_nat (length vs))%Z /\ fst e = LNumber (inject_Z i).
Proof.
  revert k. induction vs as [|v vs IH]; intros k; simpl; [by intros ?%elem_of_nil|].
  intros [->|He]%elem_of_cons.
  - exists (k + 1)%Z. split; [lia|done].
  - destruct (IH _ He) as (i & Hi & Hk). exists i. split; [lia|done].
Qed.

Lemma decodes_array js xs : Forall2 decodes js xs -> decodes (Json.JArray js) (VSequence xs).
Proof.
  intros Hall [h stk] frames rest.
  set (p := fresh (dom h)).
  destruct (array_loop js xs Hall (<[p := []]> h) stk frames p 0 [] (Json.end_array :: rest))
    as (h' & vs & Hrun & Hp & Hdom & Hold & Hvs).
  { by rewrite lookup_insert_eq. }
  { intros. constructor. }
  assert (Hfresh : p ∉ dom h) by apply is_fresh.
  rewrite dom_insert in Hdom.
  exists h', (LTable p). cbn [Json.st_heap Json.st_stack]. repeat split.
  - cbn [Json.sax_events]. rewrite <- app_comm_cons, <- app_assoc.
    cbn [Json.sax_run Json.sax_handle]. etransitivity; [exact Hrun|]. reflexivity.
  - set_solver.
  - intros q Hq. rewrite Hold; [|rewrite dom_insert; set_solver|set_solver].
    rewrite lookup_insert_ne; [done|set_solver].
  - simpl. exists p. unfold heap_table. rewrite Hp. cbn [default from_option app].
    repeat split.
    + set_solver.
    + apply Forall_forall. intros e He. destruct (seq_table_key _ _ _ He) as (i & Hi & Hk).
      exists i. rewrite <- (Forall2_length _ _ _ Hvs). split; [lia|].
      rewrite Hk. rewrite rawequal_inject. apply Z.eqb_refl.
    + apply (seq_items_seq_table _ vs).
      * eapply Forall2_impl; [exact Hvs|]. intros v x [Hx Hv]. split; [|done].
        eapply holds_mono; [|exact Hx]. rewrite dom_insert. set_solver.
      * intros n v Hn Hv. rewrite <- (rawgeti_seq_table vs 0 n v Hn Hv). f_equal. lia.
Qed.

(** The table the object loop builds, in the order of the events. *)
Definition map_table (kvs : list (string * lua_value)) : table :=
  map (fun kv => (LString (fst kv), snd kv)) kvs.

Lemma rawequal_string a b : lua_rawequal (LString a) (LString b) = String.eqb a b.
Proof. reflexivity. Qed.

Lemma map_table_get kvs k v :
  NoDup (map fst kvs) -> (k, v) ∈ kvs -> table_get (map_table kvs) (LString k) = v.
Proof.
  induction kvs as [|[k0 v0] kvs IH]; simpl; intros Hnd Hin; [by apply elem_of_nil in Hin|].
  apply NoDup_cons in Hnd as [Hk0 Hnd]. apply elem_of_cons in Hin as [Heq|Hin].
  - injection Heq as -> ->. by rewrite String.eqb_refl.
  - destruct (String.eqb_spec k0 k) as [->|_]; [|by apply IH].
    exfalso. apply Hk0. apply list_elem_of_fmap. by exists (k, v).
Qed.

(** The object loop: each key and the events of its value append the pair
    to the open table. *)
Lemma object_loop o ol :
  Forall2 (fun e kx => fst e = fst kx /\ decodes (snd e) (snd kx)) o ol ->
  NoDup (map fst o) ->
  forall h stk frames p t rest,
    h !! p = Some t ->
    (forall k, k ∈ map fst o -> Forall (fun e => lua_rawequal (fst e) (LString k) = false) t) ->
    exists h' kvs,
      Json.sax_run (concat (map (fun e => Json.key (fst e) :: Json.sax_events (snd e)) o) ++ rest)
          (Json.mkState h (LTable p :: stk), Json.mkFrame false 0 :: frames)
        = Json.sax_run rest (Json.mkState h' (LTable p :: stk), Json.mkFrame false 0 :: frames) /\
      h' !! p = Some (t ++ map_table kvs) /\
      dom h ⊆ dom h' /\
      (forall q, q ∈ dom h -> q <> p -> h' !! q = h !! q) /\
      Forall2 (fun kv kx => fst kv = fst kx /\ holds h' (dom h' ∖ dom h) (snd kv) (snd kx) /\
                            lua_isnil (snd kv) = false) kvs ol.
Proof.
  induction 1 as [|[k j] [k' x] o ol [Hk Hd] _ IH]; intros Hnd h stk frames p t rest Hp Hkeys.
  - exists h, []. simpl. rewrite app_nil_r. by repeat split.
  - simpl in Hk, Hd. subst k'. simpl in Hnd. apply NoDup_cons in Hnd as [Hk Hnd].
    destruct (Hd (Json.mkState h (LString k :: LTable p :: stk)) (Json.mkFrame false 0 :: frames)
                (concat (map (fun e => Json.key (fst e) :: Json.sax_events (snd e)) o) ++ rest))
      as (h1 & v & Hrun1 & Hdom & Hold & Hh & Hv).
    simpl in Hdom, Hold, Hh.
    assert (Hp1 : h1 !! p = Some t).
    { rewrite Hold; [done|]. by apply elem_of_dom. }
    set (t' := t ++ [(LString k, v)]).
    destruct (IH Hnd (<[p := t']> h1) stk frames p t' rest) as (h' & kvs & Hrun & Hp' & Hdom' & Hold' & Hvs).
    { by rewrite lookup_insert_eq. }
    { intros k' Hk'. apply Forall_app. split; [apply Hkeys; simpl; by right|].
      constructor; [|constructor]. simpl fst. rewrite rawequal_string.
      apply String.eqb_neq. intros ->. by apply Hk. }
    exists h', ((k, v) :: kvs).
    assert (Hd2 : dom h1 ⊆ dom (<[p := t']> h1)) by (rewrite dom_insert; set_solver).
    repeat split.
    + cbn [map concat fst snd]. rewrite <- app_assoc, <- app_comm_cons.
      cbn [Json.sax_run Json.sax_handle]. unfold Json.lua_push. cbn [Json.st_heap Json.st_stack].
      etransitivity; [exact Hrun1|].
      unfold Json.insert_value, Json.lua_settable.
      cbn [Json.isArray Json.index Json.st_stack Json.st_heap lua_isnil].
      unfold heap_table at 1. rewrite Hp1. cbn [default from_option].
      rewrite (table_set_new t _ v Hv) by (apply Hkeys; simpl; by left).
      exact Hrun.
    + rewrite Hp'. unfold t'. by rewrite <- app_assoc.
    + set_solver.
    + intros q Hq Hne. rewrite Hold' by (try done; set_solver).
      rewrite lookup_insert_ne by done. by apply Hold.
    + constructor.
      * split; [done|]. split; [|done]. simpl snd.
        apply (holds_mono _ _ (dom h1 ∖ dom h)); [set_solver|].
        apply (holds_frame h1); [|done].
        intros q Hq. unfold heap_table. rewrite Hold'.
        -- rewrite lookup_insert_ne; [done|]. intros <-.
           apply elem_of_difference in Hq as [_ Hq]. apply Hq. by apply elem_of_dom.
        -- set_solver.
        -- intros ->. apply elem_of_difference in Hq as [_ Hq]. apply Hq. by apply elem_of_dom.
      * eapply Forall2_impl; [exact Hvs|]. intros kv kx (Hk' & Hx' & Hv'). split; [done|].
        split; [|done]. eapply holds_mono; [|exact Hx']. set_solver.
Qed.

Lemma map_fields_aligned (R : lua_value -> Value -> Prop) t kvs ol :
  Forall2 (fun kv kx => fst kv = fst kx /\ R (snd kv) (snd kx) /\ lua_isnil (snd kv) = false) kvs ol ->
  (forall kv, kv ∈ kvs -> table_get t (LString (fst kv)) = snd kv) ->
  map_fields R t ol.
Proof.
  induction 1 as [|kv kx kvs ol (Hk & Hx & _) _ IH]; intros Ht; simpl; [done|]. split.
  - rewrite <- Hk, Ht; [done|by left].
  - apply IH. intros kv' Hkv'. apply Ht. by right.
Qed.

Lemma decodes_object_aligned o ol :
  Forall2 (fun e kx => fst e = fst kx /\ decodes (snd e) (snd kx)) o ol ->
  NoDup (map fst o) ->
  decodes (Json.JObject o) (VMapping ol).
Proof.
  intros Hall Hnd [h stk] frames rest.
  set (p := fresh (dom h)).
  destruct (object_loop o ol Hall Hnd (<[p := []]> h) stk frames p [] (Json.end_object :: rest))
    as (h' & kvs & Hrun & Hp & Hdom & Hold & Hvs).
  { by rewrite lookup_insert_eq. }
  { intros. constructor. }
  assert (Hfresh : p ∉ dom h) by apply is_fresh.
  rewrite dom_insert in Hdom.
  assert (Hkeys : map fst kvs = map fst ol).
  { clear -Hvs. induction Hvs as [|kv kx kvs ol (Hk & _) _ IH]; simpl; [done|]. by rewrite Hk, IH. }
  assert (Hkeys' : map fst o = map fst ol).
  { clear -Hall. induction Hall as [|e kx o ol (Hk & _) _ IH]; simpl; [done|]. by rewrite Hk, IH. }
  assert (Hnd' : NoDup (map fst kvs)) by (by rewrite Hkeys, <- Hkeys').
  exists h', (LTable p). cbn [Json.st_heap Json.st_stack]. repeat split.
  - cbn [Json.sax_events]. rewrite <- app_comm_cons, <- app_assoc.
    cbn [Json.sax_run Json.sax_handle]. etransitivity; [exact Hrun|]. reflexivity.
  - set_solver.
  - intros q Hq. rewrite Hold; [|rewrite dom_insert; set_solver|set_solver].
    rewrite lookup_insert_ne; [done|set_solver].
  - simpl. exists p. unfold heap_table. rewrite Hp. cbn [default from_option app].
    repeat split.
    + set_solver.
    + by rewrite <- Hkeys'.
    + apply Forall_forall. intros e He. apply list_elem_of_fmap in He as ([k v] & -> & Hkv).
      exists k. simpl fst. simpl snd. repeat split.
      * rewrite <- Hkeys. apply list_elem_of_fmap. by exists (k, v).
      * by apply map_table_get.
    + apply (map_fields_aligned _ _ kvs).
      * eapply Forall2_impl; [exact Hvs|]. intros kv kx (Hk & Hx & Hv). split; [done|].
        split; [|done]. eapply holds_mono; [|exact Hx]. rewrite dom_insert. set_solver.
      * intros [k v] Hkv. by apply map_table_get.
Qed.

(** An empty table is written as an empty object; it reads back as an
    empty table, which is the empty sequence as well. *)
Lemma decodes_empty_sequence : decodes (Json.JObject []) (VSequence []).
Proof.
  intros [h stk] frames rest. set (p := fresh (dom h)).
  assert (Hfresh : p ∉ dom h) by apply is_fresh.
  exists (<[p := []]> h), (LTable p). cbn [Json.st_heap Json.st_stack]. repeat split.
  - rewrite dom_insert. set_solver.
  - intros q Hq. rewrite lookup_insert_ne; [done|set_solver].
  - simpl. exists p. unfold heap_table. rewrite lookup_insert_eq. simpl.
    repeat split; [rewrite dom_insert; set_solver|constructor].
Qed.

Lemma map_fields_forall (R : lua_value -> Value -> Prop) t l :
  map_fields R t l <-> Forall (fun kx => R (table_get t (LString (fst kx))) (snd kx)) l.
Proof.
  induction l as [|kx l IH]; simpl.
  - split; [constructor|done].
  - rewrite Forall_cons, IH. done.
Qed.

Lemma holds_mapping_perm h D v ol l :
  ol ≡ₚ l -> holds h D v (VMapping ol) -> holds h D v (VMapping l).
Proof.
  intros Hperm. simpl. intros (p & -> & Hp & Hnd & Hkeys & Hfields).
  exists p. repeat split; [done| |..].
  - by rewrite <- Hperm.
  - eapply Forall_impl; [exact Hkeys|]. intros e (k & Hk & Hin & Hget).
    exists k. repeat split; [done| |done]. by rewrite <- Hperm.
  - apply map_fields_forall. rewrite <- Hperm. by apply map_fields_forall.
Qed.

Lemma decodes_mapping_perm j ol l :
  ol ≡ₚ l -> decodes j (VMapping ol) -> decodes j (VMapping l).
Proof.
  intros Hperm Hd L frames rest.
  destruct (Hd L frames rest) as (h' & v & Hrun & Hdom & Hold & Hh & Hv).
  exists h', v. repeat split; try done. by apply (holds_mapping_perm _ _ _ ol).
Qed.

Lemma NoDup_fst_functional {A B} (l : list (A * B)) k x x' :
  NoDup (map fst l) -> (k, x) ∈ l -> (k, x') ∈ l -> x = x'.
Proof.
  induction l as [|[k0 x0] l IH]; simpl; intros Hnd H1 H2; [by apply elem_of_nil in H1|].
  apply NoDup_cons in Hnd as [Hk0 Hnd].
  apply elem_of_cons in H1 as [H1|H1], H2 as [H2|H2].
  - congruence.
  - injection H1 as -> ->. exfalso. apply Hk0. apply list_elem_of_fmap. by exists (k0, x').
  - injection H2 as -> ->. exfalso. apply Hk0. apply list_elem_of_fmap. by exists (k0, x).
  - by apply IH.
Qed.

(** An object whose keys are those of [l], each value decoding to the
    field of [l] under its key. *)
Lemma decodes_object o l :
  NoDup (map fst o) -> NoDup (map fst l) ->
  Forall (fun e => exists x, (fst e, x) ∈ l /\ decodes (snd e) x) o ->
  (forall kx, kx ∈ l -> fst kx ∈ map fst o) ->
  decodes (Json.JObject o) (VMapping l).
Proof.
  intros Hnd Hndl Hall Hcover.
  assert (Hol : exists ol, Forall2 (fun e kx => fst e = fst kx /\ decodes (snd e) (snd kx)) o ol /\
                           Forall (fun kx => kx ∈ l) ol).
  { clear -Hall. induction Hall as [|e o (x & Hx & Hd) _ (ol & Hol & Hin)].
    - exists []. split; constructor.
    - exists ((fst e, x) :: ol). split; constructor; done. }
  destruct Hol as (ol & Hol & Hin).
  assert (Hkeys : map fst o = map fst ol).
  { clear -Hol. induction Hol as [|e kx o ol (Hk & _) _ IH]; simpl; [done|]. by rewrite Hk, IH. }
  apply (decodes_mapping_perm _ ol); [|by apply decodes_object_aligned].
  apply NoDup_Permutation.
  - apply (NoDup_fmap_1 fst). change (NoDup (map fst ol)). by rewrite <- Hkeys.
  - by apply (NoDup_fmap_1 fst).
  - intros [k x]. split.
    + intros Hkx. by apply (proj1 (Forall_forall _ _) Hin).
    + intros Hkx. pose proof (Hcover _ Hkx) as Hk. simpl in Hk. rewrite Hkeys in Hk.
      apply list_elem_of_fmap in Hk as ([k' x'] & Hk' & Hin'). simpl in Hk'. subst k'.
      pose proof (proj1 (Forall_forall _ _) Hin _ Hin') as Hl.
      assert (x' = x) as ->; [|done].
      by apply (NoDup_fst_functional l k).
Qed.

(** *** The object a table is written as *)

Lemma compare_lt_trans a b c :
  String.compare a b = Lt -> String.compare b c = Lt -> String.compare a c = Lt.
Proof.
  intros Hab Hbc.
  assert (Hle : String.le a c).
  { transitivity b; unfold String.le, String.leb; [by rewrite Hab|by rewrite Hbc]. }
  unfold String.le, String.leb in Hle.
  destruct (String.compare a c) eqn:Hac; [|done|done].
  apply String.compare_eq_iff in Hac as ->.
  rewrite String.compare_antisym, Hbc in Hab. done.
Qed.

Lemma compare_refl a : String.compare a a = Eq.
Proof.
  induction a as [|c a IH]; simpl; [done|].
  unfold Ascii.compare. by rewrite N.compare_refl.
Qed.

(** The keys of a [std::map] are in strictly increasing order. *)
Fixpoint keys_sorted (o : list (string * Json.json)) : Prop :=
  match o with
  | [] => True
  | e :: r => Forall (fun e' => String.compare (fst e) (fst e') = Lt) r /\ keys_sorted r
  end.

Lemma obj_set_Forall (P : string * Json.json -> Prop) k v o :
  P (k, v) -> Forall P o -> Forall P (Json.obj_set k v o).
Proof.
  intros Hkv. induction 1 as [|[k' v'] r He Hr IH]; simpl.
  - by constructor.
  - destruct (String.compare k k'); repeat constructor; done.
Qed.

Lemma obj_set_keys k v o k' :
  k' = k \/ k' ∈ map fst o -> k' ∈ map fst (Json.obj_set k v o).
Proof.
  induction o as [|[k0 v0] r IH]; simpl.
  - intros [->|Hin]; [by left|by apply elem_of_nil in Hin].
  - destruct (String.compare k k0) eqn:E; simpl.
    + apply String.compare_eq_iff in E as ->.
      intros [->|[->|Hin]%elem_of_cons]; [by left|by left|by right].
    + intros [->|Hin]; [by left|by right].
    + intros [->|[->|Hin]%elem_of_cons]; [right; apply IH; by left|by left|right; apply IH; by right].
Qed.

Lemma obj_set_sorted k v o : keys_sorted o -> keys_sorted (Json.obj_set k v o).
Proof.
  induction o as [|[k0 v0] r IH]; simpl; [by split|].
  intros [Hk0 Hr]. destruct (String.compare k k0) eqn:E; simpl.
  - apply String.compare_eq_iff in E as ->. by split.
  - split; [|by split]. constructor; [done|].
    eapply Forall_impl; [exact Hk0|]. intros e He. simpl in *. by apply (compare_lt_trans _ k0).
  - split; [|by apply IH]. apply obj_set_Forall; [|done].
    simpl. rewrite String.compare_antisym, E. done.
Qed.

Lemma keys_sorted_NoDup o : keys_sorted o -> NoDup (map fst o).
Proof.
  induction o as [|e r IH]; simpl; [constructor|].
  intros [He Hr]. apply NoDup_cons. split; [|by apply IH].
  intros Hin. apply list_elem_of_fmap in Hin as (e' & Heq & Hin).
  pose proof (proj1 (Forall_forall _ _) He _ Hin) as Hlt. simpl in Hlt.
  rewrite Heq, compare_refl in Hlt. done.
Qed.

(** *** Encoding a value that holds a tree *)

Section JsonEncodes.
Context `{Host}.

Lemma c_str_plain s : String.eqb (c_str s) s = true -> lua_tostring (LString s) = s.
Proof. intros Hs. by apply String.eqb_eq in Hs. Qed.

(** The array loop over a table whose items hold [l]. *)
Lemma for_each_items (R : lua_value -> Value -> Prop) (Q : Json.json -> Value -> Prop)
    (enc : lua_value -> Enc Json.json) (t : table) (s : gset positive) l :
  Forall (fun x => forall v, R v x -> exists j, enc v s = Ok (j, s) /\ Q j x) l ->
  forall i, seq_items R t i l ->
  exists js, for_each (fun i => enc (lua_rawgeti t i)) (seqZ i (Z.of_nat (length l))) s = Ok (js, s) /\
             Forall2 Q js l.
Proof.
  induction 1 as [|x l Hx _ IH]; intros i Hitems.
  - exists []. by split; [|constructor].
  - simpl in Hitems. destruct Hitems as [Hv Hitems].
    destruct (Hx _ Hv) as (j & Hj & Hq). destruct (IH _ Hitems) as (js & Hjs & Hqs).
    exists (j :: js). split; [|by constructor].
    simpl length. rewrite Nat2Z.inj_succ, seqZ_cons by lia.
    replace (Z.pred (Z.succ (Z.of_nat (length l)))) with (Z.of_nat (length l)) by lia.
    cbn [for_each]. unfold bind. rewrite Hj. unfold Z.succ. rewrite Hjs. done.
Qed.

Lemma seq_items_present R t l : forall i,
  seq_items R t i l -> (forall v x, R v x -> x ∈ l -> lua_isnil v = false) ->
  forall n, (i <= n < i + Z.of_nat (length l))%Z -> lua_isnil (lua_rawgeti t n) = false.
Proof.
  induction l as [|x l IH]; intros i Hitems HR n Hn; simpl in Hn; [lia|].
  simpl in Hitems. destruct Hitems as [Hv Hitems].
  destruct (Z.eq_dec n i) as [->|Hne].
  - eapply HR; [exact Hv|by left].
  - apply (IH (i + 1)%Z); [done| |lia]. intros v x' Hx' Hin. eapply HR; [exact Hx'|by right].
Qed.

End JsonEncodes.

Section JsonClassifies.
Context `{Host}.

Lemma index_key_other k i n :
  lua_rawequal k (LNumber (inject_Z i)) = true -> i <> n ->
  lua_rawequal k (LNumber (inject_Z n)) = false.
Proof.
  destruct k as [| |q| | |]; simpl; try done. intros Hi Hne.
  destruct (Qeq_bool q (inject_Z n)) eqn:E; [|done].
  apply Qeq_bool_eq in Hi, E. rewrite Hi in E. unfold Qeq in E. simpl in E. lia.
Qed.

(** A table that holds a non-empty sequence is an array of its length. *)
Lemma sequence_is_array (R : lua_value -> Value -> Prop) t l :
  l <> [] ->
  Forall (fun e => exists i, (1 <= i <= Z.of_nat (length l))%Z /\
                             lua_rawequal (fst e) (LNumber (inject_Z i)) = true) t ->
  seq_items R t 1 l ->
  (forall v x, R v x -> x ∈ l -> lua_isnil v = false) ->
  Json.is_array t = (true, Z.of_nat (length l)).
Proof.
  intros Hl Hkeys Hitems HR. set (n := Z.of_nat (length l)) in *.
  assert (Hn : (1 <= n)%Z) by (destruct l; [done|unfold n; simpl length; lia]).
  assert (Hpres : forall i, (1 <= i <= n)%Z -> lua_isnil (lua_rawgeti t i) = false).
  { intros i Hi. eapply seq_items_present; [exact Hitems|exact HR|]. fold n. lia. }
  assert (Hlen : lua_objlen t = n).
  { apply objlen_unique; [lia|done|]. unfold lua_rawgeti. rewrite table_get_absent; [done|].
    eapply Forall_impl; [exact Hkeys|]. intros e (i & Hi & Hk).
    apply (index_key_other _ i); [done|lia]. }
  destruct t as [|e t].
  { specialize (Hpres 1%Z). unfold lua_rawgeti in Hpres. simpl in Hpres. discriminate Hpres. lia. }
  rewrite json_is_array_rule, Hlen. f_equal.
  apply forallb_forall. intros e' He'. apply list_elem_of_In in He'.
  destruct (proj1 (Forall_forall _ _) Hkeys _ He') as (i & Hi & Hk).
  destruct (rawequal_index _ _ Hk) as (q & -> & Hq & _). simpl. rewrite Hq.
  apply andb_true_intro. split; apply Z.leb_le; lia.
Qed.

(** A table whose keys are strings is an object. *)
Lemma mapping_is_object t :
  Forall (fun e => exists k, fst e = LString k) t -> fst (Json.is_array t) = false.
Proof.
  intros Hkeys. unfold Json.is_array.
  destruct t as [|e t]; [reflexivity|].
  rewrite andb_false_r. destruct (Json.has_hole _ _); [done|]. simpl.
  apply Forall_cons in Hkeys as [(k & Hk) _]. unfold Json.key_in_range. by rewrite Hk.
Qed.

(** The object loop over entries with string keys whose values hold fields
    of [l]. *)
Lemma while_next_entries (Q : Json.json -> Value -> Prop)
    (enc : lua_value -> Enc Json.json) (s : gset positive)
    (l : list (string * Value)) (t : table) :
  Forall (fun e => exists k x, fst e = LString k /\ c_str k = k /\ (k, x) ∈ l /\
                     exists j, enc (snd e) s = Ok (j, s) /\ Q j x) t ->
  forall acc, keys_sorted acc ->
    Forall (fun e => exists x, (fst e, x) ∈ l /\ Q (snd e) x) acc ->
    exists obj, for_loop (entry_step (Json.object_entry enc)) acc t s = Ok (obj, s) /\
      keys_sorted obj /\
      Forall (fun e => exists x, (fst e, x) ∈ l /\ Q (snd e) x) obj /\
      (forall k, k ∈ map fst acc \/ LString k ∈ map fst t -> k ∈ map fst obj).
Proof.
  induction 1 as [|[k0 v0] t (k & x & Hk & Hc & Hin & j & Hj & Hd) _ IH]; intros acc Hs Hacc.
  - exists acc. repeat split; try done. intros k [Hk|Hk]; [done|by apply elem_of_nil in Hk].
  - simpl in Hk, Hj. subst k0.
    destruct (IH (Json.obj_set k j acc)) as (obj & Hrun & Hs' & Hobj & Hcover).
    { by apply obj_set_sorted. }
    { apply obj_set_Forall; [|done]. by exists x. }
    exists obj. repeat split; try done.
    + cbn [for_loop]. unfold bind at 1. unfold entry_step, Json.object_entry, bind.
      cbn [fst snd lua_isstring negb]. rewrite Hj. unfold ret, lua_tostring.
      cbn [fst snd lua_tolstring after_tostring lua_rawequal]. rewrite String.eqb_refl, Hc.
      exact Hrun.
    + intros k' [Hk'|Hk']; apply Hcover.
      * left. apply obj_set_keys. by right.
      * simpl in Hk'. apply elem_of_cons in Hk' as [Hk'|Hk'].
        -- injection Hk' as ->. left. apply obj_set_keys. by left.
        -- by right.
Qed.

Lemma dump_error_array js :
  Forall (fun j => Json.dump_error j = None) js -> Json.dump_error (Json.JArray js) = None.
Proof.
  induction 1 as [|j js Hj _ IH]; [done|]. simpl. rewrite Hj. exact IH.
Qed.

Lemma dump_error_object obj :
  Forall (fun e => Json.string_error (fst e) = None /\ Json.dump_error (snd e) = None) obj ->
  Json.dump_error (Json.JObject obj) = None.
Proof.
  induction 1 as [|[k j] obj [Hk Hj] _ IH]; [done|]. simpl in *. rewrite Hk, Hj. exact IH.
Qed.

Lemma is_utf8_error s : is_utf8 s = true -> Json.string_error s = None.
Proof. unfold is_utf8. by destruct (Json.string_error s). Qed.

End JsonClassifies.

Section JsonEncodes2.
Context `{Host}.

Lemma depth_item x l : x ∈ l -> (depth x <= list_max (map depth l))%nat.
Proof.
  induction l as [|y l IH]; intros Hin; [by apply elem_of_nil in Hin|].
  simpl. apply elem_of_cons in Hin as [->|Hin]; [lia|]. specialize (IH Hin). lia.
Qed.

Lemma depth_field (kx : string * Value) l :
  kx ∈ l -> (depth (snd kx) <= list_max (map (fun kx => depth (snd kx)) l))%nat.
Proof.
  induction l as [|y l IH]; intros Hin; [by apply elem_of_nil in Hin|].
  simpl. apply elem_of_cons in Hin as [->|Hin]; [lia|]. specialize (IH Hin). lia.
Qed.

Lemma string_key_entry t k :
  lua_isnil (table_get t (LString k)) = false -> LString k ∈ map fst t.
Proof.
  intros Hv. destruct (table_get_entry _ _ Hv) as ([k0 v0] & He & Hk & _).
  apply list_elem_of_fmap. exists (k0, v0). split; [|done].
  destruct k0; simpl in Hk; try done. by apply String.eqb_eq in Hk as ->.
Qed.

(** A tree that decodes to a value, and that the emitter can write. *)
Definition writes (j : Json.json) (x : Value) : Prop :=
  decodes j x /\ Json.dump_error j = None.

(** The encoder on a value that holds a plain tree ends, leaves the path
    as it was, and writes a tree that decodes to the same. *)
Lemma encode_holds x :
  plain x = true -> utf8 x = true ->
  forall fuel h D v seen,
    holds h D v x -> D ## seen -> (depth x < fuel)%nat ->
    exists j, Json.encode_value fuel h v seen = Ok (j, seen) /\ writes j x.
Proof.
  induction x as [|b|n|s|l IH|l IH] using Value_induction;
    intros Hplain Hutf fuel h D v seen Hh Hdis Hfuel;
    (destruct fuel as [|fuel]; [simpl in Hfuel; lia|]); simpl in Hh.
  - done.
  - subst v. exists (Json.JBool b). split; [by destruct b|]. split; [apply decodes_bool|done].
  - subst v. exists (Json.JNumber n). split; [reflexivity|]. split; [apply decodes_number|done].
  - subst v. exists (Json.JString s). split; [|split; [apply decodes_string|]].
    + simpl in Hplain. cbn [Json.encode_value]. unfold ret. by rewrite c_str_plain.
    + simpl in Hutf. simpl. by apply is_utf8_error.
  - destruct Hh as (p & -> & Hp & Hkeys & Hitems).
    simpl in Hplain, Hutf, Hfuel. apply PeanoNat.lt_S_n in Hfuel.
    assert (Hseen : p ∉ seen) by set_solver.
    cbn [Json.encode_value]. unfold Json.encode_table, bind, seen_count, seen_insert.
    rewrite bool_decide_eq_false_2 by done.
    destruct (decide (l = [])) as [->|Hl].
    + assert (Ht : heap_table h p = []).
      { destruct (heap_table h p) as [|e t]; [done|].
        apply Forall_cons in Hkeys as [(i & Hi & _) _]. simpl in Hi. lia. }
      rewrite Ht. exists (Json.JObject []). split; [|split; [apply decodes_empty_sequence|done]].
      cbn. destruct fuel; cbn; unfold seen_erase, ret; by rewrite restore_path.
    + assert (HR : forall v x, holds h (D ∖ {[p]}) v x -> x ∈ l -> lua_isnil v = false).
      { intros v x Hv Hx. apply (holds_plain_not_nil _ _ _ _ (proj1 (forallb_forall _ _) Hplain _ (proj1 (list_elem_of_In _ _) Hx)) Hv). }
      rewrite (sequence_is_array (holds h (D ∖ {[p]})) _ l Hl Hkeys Hitems HR).
      destruct (for_each_items (holds h (D ∖ {[p]})) writes (Json.encode_value fuel h)
                  (heap_table h p) (seen ∪ {[p]}) l) with (i := 1%Z) as (js & Hjs & Hall).
      { apply Forall_forall. intros x Hx v Hv.
        apply (proj1 (Forall_forall _ _) IH x Hx) with (D := D ∖ {[p]}).
        - apply (proj1 (forallb_forall _ _) Hplain). by apply list_elem_of_In.
        - apply (proj1 (forallb_forall _ _) Hutf). by apply list_elem_of_In.
        - done.
        - set_solver.
        - pose proof (depth_item x l Hx). lia. }
      { exact Hitems. }
      cbv beta iota. rewrite Hjs. unfold seen_erase, ret. rewrite restore_path by done.
      exists (Json.JArray js). split; [done|]. split.
      * apply decodes_array. eapply Forall2_impl; [exact Hall|]. by intros j x [Hd _].
      * apply dump_error_array. clear -Hall.
        induction Hall as [|j x js l [_ Hj] _ IHa]; constructor; done.
  - destruct Hh as (p & -> & Hp & Hnd & Hkeys & Hfields).
    simpl in Hplain, Hutf, Hfuel. apply PeanoNat.lt_S_n in Hfuel.
    assert (Hseen : p ∉ seen) by set_solver.
    assert (Hpl : forall kx, kx ∈ l ->
              c_str (fst kx) = fst kx /\ plain (snd kx) = true /\
              is_utf8 (fst kx) = true /\ utf8 (snd kx) = true).
    { intros kx Hkx. apply list_elem_of_In in Hkx.
      pose proof (proj1 (forallb_forall _ _) Hplain _ Hkx) as Hb.
      pose proof (proj1 (forallb_forall _ _) Hutf _ Hkx) as Hu.
      apply andb_prop in Hb as [Hk Hx]. apply andb_prop in Hu as [Huk Hux].
      by apply String.eqb_eq in Hk. }
    cbn [Json.encode_value]. unfold Json.encode_table, bind, seen_count, seen_insert.
    rewrite bool_decide_eq_false_2 by done.
    destruct (Json.is_array (heap_table h p)) as [arr len] eqn:Earr.
    assert (Hstr : string_keys (heap_table h p)).
    { eapply Forall_impl; [exact Hkeys|]. intros e (k & Hk & _). by exists k. }
    assert (arr = false) as ->.
    { pose proof (mapping_is_object (heap_table h p)) as Hobj. rewrite Earr in Hobj.
      by apply Hobj. }
    apply map_fields_forall in Hfields.
    cbv beta iota.
    rewrite while_next_twin_free by (try apply json_keeps_slot; by apply string_keys_twin_free).
    destruct (while_next_entries
                (fun j x => writes j x /\ forall k, (k, x) ∈ l -> is_utf8 k = true)
                (Json.encode_value fuel h) (seen ∪ {[p]}) l (heap_table h p))
      with (acc := @nil (string * Json.json)) as (obj & Hrun & Hs & Hobj & Hcover).
    { eapply Forall_impl; [exact Hkeys|]. intros e (k & Hk & Hin & Hget).
      apply list_elem_of_fmap in Hin as ([k' x] & Hk' & Hin). simpl in Hk'. subst k'.
      destruct (Hpl _ Hin) as (Hc & Hx & Huk & Hux). simpl in Hc, Hx, Huk, Hux.
      pose proof (proj1 (Forall_forall _ _) Hfields _ Hin) as Hv. simpl in Hv.
      rewrite <- Hk, Hget in Hv.
      destruct (proj1 (Forall_forall _ _) IH _ Hin Hx Hux fuel h (D ∖ {[p]}) (snd e) (seen ∪ {[p]}))
        as (j & Hj & Hd); [done|set_solver|pose proof (depth_field _ l Hin); simpl in *; lia|].
      exists k, x. split; [done|]. split; [done|]. split; [done|].
      exists j. split; [done|]. split; [exact Hd|].
      intros k0 Hk0. by destruct (Hpl _ Hk0) as (_ & _ & Hu0 & _). }
    { done. }
    { constructor. }
    rewrite Hrun. unfold seen_erase, ret. rewrite restore_path by done.
    exists (Json.JObject obj). split; [done|]. split.
    + apply decodes_object; [by apply keys_sorted_NoDup|done| |].
      * eapply Forall_impl; [exact Hobj|]. intros e (x & Hin & [Hd _] & _). by exists x.
      * intros [k x] Hin. simpl. apply Hcover. right. apply string_key_entry.
        pose proof (proj1 (Forall_forall _ _) Hfields _ Hin) as Hv. simpl in Hv.
        destruct (Hpl _ Hin) as (_ & Hx & _). by apply (holds_plain_not_nil _ _ _ _ Hx Hv).
    + apply dump_error_object. eapply Forall_impl; [exact Hobj|].
      intros e (x & Hin & [_ Hj] & Hu). split; [|done].
      apply is_utf8_error. by apply (Hu _ Hin).
Qed.

End JsonEncodes2.

(** *** The round trip *)

(** [{"a", {k = true}}], and the tree it holds. *)
Definition nested_heap : gmap positive table :=
  {[1%positive := [(LNumber 1, LString "a"); (LNumber 2, LTable 2)];
    2%positive := [(LString "k", LBoolean true)]]}.
Definition nested_tree : Value :=
  VSequence [VString "a"; VMapping [("k", VBool true)]].

(** [{"a\0b"}], and [{"\255"}], whose string is the one byte 255. *)
Definition nul_string_heap : gmap positive table :=
  {[1%positive := [(LNumber 1, LString (String "a" (String NUL (String "b" EmptyString))))]]}.
Definition byte_string_heap : gmap positive table :=
  {[1%positive := [(LNumber 1, LString (String "255"%char EmptyString))]]}.

(** [deserialize(serialize(v))], the parser reporting the events of the
    tree that was written. *)
Definition deserialize_serialize `{Host} (dump_float : lua_Number -> string)
    (fuel : nat) (h : gmap positive table) (v : lua_value) :
    result (gmap positive table * lua_value) :=
  match Json.jsonserialize_tree fuel h v, Json.jsonserialize dump_float fuel h v with
  | Ok j, Ok text => Json.jsondeserialize (fun _ => Json.sax_events j) ∅ text
  | _, Error msg => Error msg
  | _, _ => OutOfFuel
  end.

Section JsonRoundTrip.
Context `{Host}.

Definition is_container (j : Json.json) : bool :=
  match j with Json.JArray _ | Json.JObject _ => true | _ => false end.

Lemma encode_table_shape fuel h p seen j s :
  Json.encode_value fuel h (LTable p) seen = Ok (j, s) -> is_container j = true.
Proof.
  destruct fuel as [|fuel]; [done|]. cbn [Json.encode_value].
  unfold Json.encode_table, bind, seen_count, seen_insert.
  destruct (bool_decide _); [done|].
  destruct (Json.is_array _) as [[|] len].
  - destruct (for_each _ _ _) as [[js s1]| |]; try done.
    unfold seen_erase, ret. by intros [= <- <-].
  - destruct (while_next _ _ _ _ _) as [[obj s1]| |]; try done.
    unfold seen_erase, ret. by intros [= <- <-].
Qed.

Lemma dump_container dump_float j :
  is_container j = true -> (String.length (Json.dump dump_float j) =? 0)%nat = false.
Proof. destruct j; try done; intros _; simpl; by rewrite append_cons. Qed.


End JsonRoundTrip.



(** * More of the converters *)

(** ** Tables under assignment *)

(** A table as the host keeps it: no key twice, no nil value. *)
Fixpoint well_formed (t : table) : Prop :=
  match t with
  | [] => True
  | e :: r =>
      lua_isnil (snd e) = false /\
      Forall (fun e' => lua_rawequal (fst e) (fst e') = false) r /\
      well_formed r
  end.

Lemma table_get_other t k :
  Forall (fun e => lua_rawequal k (fst e) = false) t -> table_get t k = LNil.
Proof.
  induction 1 as [|[k0 v0] t Hk _ IH]; simpl; [done|].
  simpl in Hk. by rewrite rawequal_sym, Hk.
Qed.

(** Reading after an assignment. *)
Lemma table_get_set t k v k' :
  well_formed t ->
  table_get (table_set t k v) k' = if lua_rawequal k k' then v else table_get t k'.
Proof.
  induction t as [|[k0 v0] r IH]; simpl.
  - intros _. destruct (lua_isnil v) eqn:Hv; simpl.
    + destruct (lua_rawequal k k'); [by destruct v|done].
    + done.
  - intros (_ & Hk0 & Hr). destruct (lua_rawequal k0 k) eqn:E0.
    + rewrite <- (rawequal_same _ _ k' E0).
      destruct (lua_isnil v) eqn:Hv; simpl.
      * destruct (lua_rawequal k0 k') eqn:E1; [|done].
        rewrite table_get_other; [by destruct v|].
        eapply Forall_impl; [exact Hk0|]. intros e He. simpl in He.
        rewrite rawequal_sym in E1. by rewrite (rawequal_same _ _ _ E1).
      * by destruct (lua_rawequal k0 k').
    + simpl. rewrite (IH Hr). destruct (lua_rawequal k0 k') eqn:E1; [|done].
      destruct (lua_rawequal k k') eqn:E2; [|done].
      rewrite rawequal_sym in E2. by rewrite (rawequal_trans _ _ _ E1 E2) in E0.
Qed.

Lemma table_set_Forall (P : lua_value * lua_value -> Prop) t k v :
  Forall P t -> P (k, v) ->
  (forall k0 v0, P (k0, v0) -> lua_rawequal k0 k = true -> P (k0, v)) ->
  Forall P (table_set t k v).
Proof.
  intros Ht Hkv Hsame. induction Ht as [|[k0 v0] r He Hr IH]; simpl.
  - destruct (lua_isnil v); by repeat constructor.
  - destruct (lua_rawequal k0 k) eqn:E0.
    + destruct (lua_isnil v); [done|]. constructor; [by apply (Hsame k0 v0)|done].
    + by constructor.
Qed.

Lemma table_set_well_formed t k v : well_formed t -> well_formed (table_set t k v).
Proof.
  induction t as [|[k0 v0] r IH]; simpl.
  - intros _. destruct (lua_isnil v) eqn:Hv; simpl; [done|]. by repeat split.
  - intros (Hv0 & Hk0 & Hr). destruct (lua_rawequal k0 k) eqn:E0.
    + destruct (lua_isnil v) eqn:Hv; simpl; [done|]. by repeat split.
    + simpl. split; [done|]. split; [|by apply IH].
      apply table_set_Forall; [done|done|]. by intros k1 v1 H1 _.
Qed.

Lemma well_formed_get t e : well_formed t -> e ∈ t -> table_get t (fst e) = snd e.
Proof.
  induction t as [|[k0 v0] r IH]; simpl; intros Hwf He; [by apply elem_of_nil in He|].
  destruct Hwf as (_ & Hk0 & Hr). apply elem_of_cons in He as [->|He].
  - simpl. by rewrite rawequal_refl.
  - rewrite (proj1 (Forall_forall _ _) Hk0 _ He). by apply IH.
Qed.

(** When a key is assigned more than once, the last assignment is the one
    that is read: the entries of [l] that no later entry overrides. *)
Fixpoint last_wins {A} (l : list (string * A)) : list (string * A) :=
  match l with
  | [] => []
  | kx :: r =>
      if existsb (String.eqb (fst kx)) (map fst r) then last_wins r else kx :: last_wins r
  end.

Lemma existsb_eqb k (l : list string) : existsb (String.eqb k) l = true <-> k ∈ l.
Proof.
  rewrite existsb_exists. split.
  - intros (k' & Hin & Hk). apply String.eqb_eq in Hk as ->. by apply list_elem_of_In.
  - intros Hin. exists k. split; [by apply list_elem_of_In|apply String.eqb_refl].
Qed.

Lemma last_wins_sub {A} (l : list (string * A)) kx : kx ∈ last_wins l -> kx ∈ l.
Proof.
  induction l as [|e r IH]; simpl; [done|].
  destruct (existsb _ _).
  - intros Hin. right. by apply IH.
  - intros [->|Hin]%elem_of_cons; [by left|right; by apply IH].
Qed.

Lemma last_wins_keys {A} (l : list (string * A)) k :
  k ∈ map fst (last_wins l) <-> k ∈ map fst l.
Proof.
  induction l as [|e r IH]; simpl; [done|].
  destruct (existsb _ _) eqn:E; simpl.
  - rewrite IH. split; [by right|]. intros [->|Hin]%elem_of_cons; [|done].
    by apply existsb_eqb.
  - rewrite !elem_of_cons, IH. done.
Qed.

Lemma last_wins_NoDup {A} (l : list (string * A)) : NoDup (map fst (last_wins l)).
Proof.
  induction l as [|e r IH]; simpl; [constructor|].
  destruct (existsb _ _) eqn:E; simpl; [done|].
  apply NoDup_cons. split; [|done]. rewrite last_wins_keys. intros Hin.
  apply existsb_eqb in Hin. congruence.
Qed.

(** Without a repeated key nothing is overridden. *)
Lemma last_wins_NoDup_id {A} (l : list (string * A)) : NoDup (map fst l) -> last_wins l = l.
Proof.
  induction l as [|e r IH]; simpl; [done|]. intros [Hk Hr]%NoDup_cons.
  destruct (existsb _ _) eqn:E; [by apply existsb_eqb in E|]. by rewrite IH.
Qed.

(** ** What the JSON decoder builds *)

Module Document.

(** Modelled from the spec: a JSON document as the library's parser reads
    it, the parser not being under src/.  A number written without
    fraction or exponent is reported as an integer, signed when it is
    negative and unsigned otherwise; an object is reported with its members
    in the order of the text, a repeated key as often as it is written. *)
Inductive document : Type :=
| DNull
| DBool (b : bool)
| DInteger (z : Z)
| DUnsigned (z : Z)
| DFloat (n : lua_Number)
| DString (s : string)
| DArray (l : list document)
| DObject (l : list (string * document)).

Fixpoint events (d : document) : list Json.sax_event :=
  match d with
  | DNull => [Json.null]
  | DBool b => [Json.boolean b]
  | DInteger z => [Json.number_integer z]
  | DUnsigned z => [Json.number_unsigned z]
  | DFloat n => [Json.number_float n]
  | DString s => [Json.string_ s]
  | DArray l => Json.start_array :: concat (map events l) ++ [Json.end_array]
  | DObject l =>
      Json.start_object :: concat (map (fun e => Json.key (fst e) :: events (snd e)) l)
        ++ [Json.end_object]
  end.

(** The value the handler builds from a document, read off its callbacks:
    a null is nil, an integer goes through [lua_pushinteger], an array is
    filled from index 1, an object is filled by assignment. *)
Fixpoint value (d : document) : Value :=
  match d with
  | DNull => VNil
  | DBool b => VBool b
  | DInteger z => VNumber (inject_Z (Json.to_int32 z))
  | DUnsigned z => VNumber (inject_Z (Json.to_int32 z))
  | DFloat n => VNumber n
  | DString s => VString s
  | DArray l => VSequence (map value l)
  | DObject l => VMapping (last_wins (map (fun e => (fst e, value (snd e))) l))
  end.

(** The document of a tree the encoder wrote. *)
Fixpoint of_json (j : Json.json) : document :=
  match j with
  | Json.JNull => DNull
  | Json.JBool b => DBool b
  | Json.JNumber n => DFloat n
  | Json.JString s => DString s
  | Json.JArray l => DArray (map of_json l)
  | Json.JObject l => DObject (map (fun e => (fst e, of_json (snd e))) l)
  end.

End Document.

Lemma document_induction (P : Document.document -> Prop) :
  P Document.DNull -> (forall b, P (Document.DBool b)) ->
  (forall z, P (Document.DInteger z)) -> (forall z, P (Document.DUnsigned z)) ->
  (forall n, P (Document.DFloat n)) -> (forall s, P (Document.DString s)) ->
  (forall l, Forall P l -> P (Document.DArray l)) ->
  (forall l, Forall (fun e => P (snd e)) l -> P (Document.DObject l)) ->
  forall d, P d.
Proof.
  intros Hnull Hbool Hint Huns Hfloat Hstr Harr Hobj. fix IH 1.
  intros [| | | | | |l|l].
  - exact Hnull.
  - apply Hbool.
  - apply Hint.
  - apply Huns.
  - apply Hfloat.
  - apply Hstr.
  - apply Harr. induction l as [|d l IHl]; constructor; [apply IH|exact IHl].
  - apply Hobj. induction l as [|[k d] l IHl]; constructor; [apply IH|exact IHl].
Qed.

(** Running the events of [d] pushes a value that holds [x], nil for a
    null, and gives it to [insert_value]. *)
Definition reads (d : Document.document) (x : Value) : Prop :=
  forall (L : Json.lua_State) (frames : list Json.Frame) (rest : list Json.sax_event),
  exists h' v,
    Json.sax_run (Document.events d ++ rest) (L, frames)
      = match Json.insert_value (Json.mkState h' (v :: Json.st_stack L), frames) with
        | Ok s => Json.sax_run rest s
        | Error msg => Error msg
        | OutOfFuel => OutOfFuel
        end /\
    dom (Json.st_heap L) ⊆ dom h' /\
    (forall p, p ∈ dom (Json.st_heap L) -> h' !! p = Json.st_heap L !! p) /\
    holds h' (dom h' ∖ dom (Json.st_heap L)) v x.

Lemma heap_table_lookup (h : gmap positive table) p (t : table) :
  h !! p = Some t -> heap_table h p = t.
Proof. intros Hp. exact (f_equal (default []) Hp). Qed.

Definition index_within (lo hi : Z) (e : lua_value * lua_value) : Prop :=
  exists i, (lo < i <= hi)%Z /\ lua_rawequal (fst e) (LNumber (inject_Z i)) = true.

Lemma index_within_weaken lo hi hi' t :
  (hi <= hi')%Z -> Forall (index_within lo hi) t -> Forall (index_within lo hi') t.
Proof.
  intros Hle Ht. eapply Forall_impl; [exact Ht|].
  intros e (i & Hi & Hk). exists i. split; [lia|done].
Qed.

Lemma index_within_set lo hi t v :
  (lo <= hi)%Z -> Forall (index_within lo hi) t ->
  Forall (index_within lo (hi + 1)) (table_set t (LNumber (inject_Z (hi + 1))) v).
Proof.
  intros Hle Ht. apply table_set_Forall.
  - by apply (index_within_weaken lo hi); [lia|].
  - exists (hi + 1)%Z. split; [lia|apply rawequal_refl].
  - intros k0 v0 (i & Hi & Hk) _. exists i. split; [lia|done].
Qed.

(** A value built before the rest of a loop ran still holds what it held:
    the loop assigns to the open table and creates tables, nothing else. *)
Lemma holds_later (h h1 h' : gmap positive table) (p : positive) v x :
  p ∈ dom h -> dom h ⊆ dom h1 -> dom h1 ⊆ dom h' ->
  (forall q, q ∈ dom h1 -> q <> p -> h' !! q = h1 !! q) ->
  holds h1 (dom h1 ∖ dom h) v x -> holds h' (dom h' ∖ dom h) v x.
Proof.
  intros Hp Hd1 Hd2 Hold Hv.
  apply (holds_mono _ _ (dom h1 ∖ dom h)); [set_solver|].
  apply (holds_frame h1); [|done].
  intros q Hq. unfold heap_table. rewrite Hold; [done|set_solver|set_solver].
Qed.

(** The array loop on any items: item [n] of the array is assigned to
    index [n], a nil included, which leaves the index without a value. *)
Lemma array_loop_reads ds xs :
  Forall2 reads ds xs ->
  forall (h : gmap positive table) stk frames p k (t : table) rest,
    h !! p = Some t -> well_formed t -> (0 <= k)%Z -> Forall (index_within 0 k) t ->
    exists h' t',
      Json.sax_run (concat (map Document.events ds) ++ rest)
          (Json.mkState h (LTable p :: stk), Json.mkFrame true k :: frames)
        = Json.sax_run rest (Json.mkState h' (LTable p :: stk),
                             Json.mkFrame true (k + Z.of_nat (length ds)) :: frames) /\
      h' !! p = Some t' /\ well_formed t' /\
      Forall (index_within 0 (k + Z.of_nat (length ds))) t' /\
      (forall i, (i <= k)%Z -> lua_rawgeti t' i = lua_rawgeti t i) /\
      dom h ⊆ dom h' /\
      (forall q, q ∈ dom h -> q <> p -> h' !! q = h !! q) /\
      seq_items (holds h' (dom h' ∖ dom h)) t' (k + 1) xs.
Proof.
  induction 1 as [|d x ds xs Hd _ IH]; intros h stk frames p k t rest Hp Hwf Hk Hkeys.
  - exists h, t. simpl. rewrite Z.add_0_r. by repeat split.
  - destruct (Hd (Json.mkState h (LTable p :: stk)) (Json.mkFrame true k :: frames)
                (concat (map Document.events ds) ++ rest))
      as (h1 & v & Hrun1 & Hdom & Hold & Hh).
    simpl in Hdom, Hold, Hh.
    assert (Hpd : p ∈ dom h) by (by apply elem_of_dom).
    assert (Hp1 : h1 !! p = Some t) by (by rewrite Hold).
    set (t1 := table_set t (LNumber (inject_Z (k + 1))) v).
    destruct (IH (<[p := t1]> h1) stk frames p (k + 1)%Z t1 rest)
      as (h' & t' & Hrun & Hp' & Hwf' & Hkeys' & Hget & Hdom' & Hold' & Hitems).
    { by rewrite lookup_insert_eq. }
    { by apply table_set_well_formed. }
    { lia. }
    { by apply index_within_set. }
    assert (Hd2 : dom h1 ⊆ dom (<[p := t1]> h1)) by (rewrite dom_insert; set_solver).
    exists h', t'. repeat split.
    + simpl concat. rewrite <- app_assoc. etransitivity; [exact Hrun1|].
      unfold Json.insert_value, Json.lua_rawseti.
      cbn [Json.isArray Json.index Json.st_stack Json.st_heap].
      rewrite (heap_table_lookup _ _ _ Hp1).
      etransitivity; [exact Hrun|]. do 4 f_equal. simpl length. lia.
    + done.
    + done.
    + eapply index_within_weaken; [|exact Hkeys']. simpl length. lia.
    + intros i Hi. rewrite Hget by lia. unfold lua_rawgeti, t1.
      rewrite table_get_set by done. rewrite rawequal_inject.
      by destruct (Z.eqb_spec (k + 1) i); [lia|].
    + set_solver.
    + intros q Hq Hne. rewrite Hold' by (try done; set_solver).
      rewrite lookup_insert_ne by done. by apply Hold.
    + rewrite Hget by lia. unfold lua_rawgeti, t1. rewrite table_get_set by done.
      rewrite rawequal_refl.
      apply (holds_later h h1 h' p); try done; [set_solver|].
      intros q Hq Hne. rewrite Hold' by (try done; set_solver).
      by rewrite lookup_insert_ne.
    + eapply seq_items_impl; [|exact Hitems].
      apply Forall_forall. intros x' _ v'. apply holds_mono. set_solver.
Qed.

Lemma reads_array ds xs :
  Forall2 reads ds xs -> reads (Document.DArray ds) (VSequence xs).
Proof.
  intros Hall [h stk] frames rest.
  set (p := fresh (dom h)).
  destruct (array_loop_reads ds xs Hall (<[p := []]> h) stk frames p 0 [] (Json.end_array :: rest))
    as (h' & t' & Hrun & Hp & Hwf & Hkeys & _ & Hdom & Hold & Hitems).
  { by rewrite lookup_insert_eq. }
  { done. }
  { done. }
  { constructor. }
  assert (Hfresh : p ∉ dom h) by apply is_fresh.
  rewrite dom_insert in Hdom.
  exists h', (LTable p). cbn [Json.st_heap Json.st_stack]. repeat split.
  - cbn [Document.events]. rewrite <- app_comm_cons, <- app_assoc.
    cbn [Json.sax_run Json.sax_handle]. etransitivity; [exact Hrun|]. reflexivity.
  - set_solver.
  - intros q Hq. rewrite Hold; [|rewrite dom_insert; set_solver|set_solver].
    rewrite lookup_insert_ne; [done|set_solver].
  - simpl. exists p. rewrite (heap_table_lookup _ _ _ Hp). repeat split.
    + set_solver.
    + rewrite <- (Forall2_length _ _ _ Hall). eapply Forall_impl; [exact Hkeys|].
      intros e (i & Hi & Hk). exists i. split; [lia|done].
    + eapply seq_items_impl; [|exact Hitems].
      apply Forall_forall. intros x _ v. apply holds_mono. rewrite dom_insert. set_solver.
Qed.

(** The object loop on any members: a member is assigned under its key, so
    a later member with the same key overrides an earlier one and a null
    removes the key. *)
Lemma object_loop_reads o kxs :
  Forall2 (fun e kx => fst e = fst kx /\ reads (snd e) (snd kx)) o kxs ->
  forall (Q : string -> Prop), (forall k, k ∈ map fst kxs -> Q k) ->
  forall (h : gmap positive table) stk frames p (t : table) rest,
    h !! p = Some t -> well_formed t ->
    Forall (fun e => exists k, fst e = LString k /\ Q k) t ->
    exists h' t',
      Json.sax_run (concat (map (fun e => Json.key (fst e) :: Document.events (snd e)) o) ++ rest)
          (Json.mkState h (LTable p :: stk), Json.mkFrame false 0 :: frames)
        = Json.sax_run rest (Json.mkState h' (LTable p :: stk), Json.mkFrame false 0 :: frames) /\
      h' !! p = Some t' /\ well_formed t' /\
      Forall (fun e => exists k, fst e = LString k /\ Q k) t' /\
      (forall k, k ∉ map fst kxs -> table_get t' (LString k) = table_get t (LString k)) /\
      dom h ⊆ dom h' /\
      (forall q, q ∈ dom h -> q <> p -> h' !! q = h !! q) /\
      Forall (fun kx => holds h' (dom h' ∖ dom h) (table_get t' (LString (fst kx))) (snd kx))
        (last_wins kxs).
Proof.
  induction 1 as [|[k d] [k' x] o kxs [Hk Hd] _ IH];
    intros Q HQ h stk frames p t rest Hp Hwf Hkeys.
  - exists h, t. simpl. repeat split; try done; constructor.
  - simpl in Hk, Hd. subst k'.
    destruct (Hd (Json.mkState h (LString k :: LTable p :: stk)) (Json.mkFrame false 0 :: frames)
                (concat (map (fun e => Json.key (fst e) :: Document.events (snd e)) o) ++ rest))
      as (h1 & v & Hrun1 & Hdom & Hold & Hh).
    simpl in Hdom, Hold, Hh.
    assert (Hpd : p ∈ dom h) by (by apply elem_of_dom).
    assert (Hp1 : h1 !! p = Some t) by (by rewrite Hold).
    set (t1 := table_set t (LString k) v).
    destruct (IH Q) with (h := <[p := t1]> h1) (stk := stk) (frames := frames) (p := p)
                         (t := t1) (rest := rest)
      as (h' & t' & Hrun & Hp' & Hwf' & Hkeys' & Hget & Hdom' & Hold' & Hfields).
    { intros k' Hk'. apply HQ. simpl. by right. }
    { by rewrite lookup_insert_eq. }
    { by apply table_set_well_formed. }
    { apply table_set_Forall; [done| |].
      - exists k. split; [done|]. apply HQ. simpl. by left.
      - by intros k0 v0 Hq _. }
    assert (Hd2 : dom h1 ⊆ dom (<[p := t1]> h1)) by (rewrite dom_insert; set_solver).
    assert (Hold2 : forall q, q ∈ dom h1 -> q <> p -> h' !! q = h1 !! q).
    { intros q Hq Hne. rewrite Hold' by (try done; set_solver). by rewrite lookup_insert_ne. }
    exists h', t'. repeat split; try done.
    + cbn [map concat fst snd]. rewrite <- app_assoc, <- app_comm_cons.
      cbn [Json.sax_run Json.sax_handle]. unfold Json.lua_push. cbn [Json.st_heap Json.st_stack].
      etransitivity; [exact Hrun1|].
      unfold Json.insert_value, Json.lua_settable.
      cbn [Json.isArray Json.index Json.st_stack Json.st_heap lua_isnil].
      rewrite (heap_table_lookup _ _ _ Hp1). exact Hrun.
    + intros k' Hk'. simpl in Hk'. rewrite not_elem_of_cons in Hk'. destruct Hk' as [Hne Hk'].
      rewrite (Hget _ Hk'). unfold t1. rewrite table_get_set by done.
      rewrite rawequal_string. by destruct (String.eqb_spec k k'); [congruence|].
    + set_solver.
    + intros q Hq Hne. rewrite Hold2 by (try done; set_solver). by apply Hold.
    + assert (Hrest : Forall (fun kx => holds h' (dom h' ∖ dom h)
                                 (table_get t' (LString (fst kx))) (snd kx)) (last_wins kxs)).
      { eapply Forall_impl; [exact Hfields|]. intros kx. apply holds_mono. set_solver. }
      cbn [last_wins fst]. destruct (existsb _ _) eqn:E; [done|].
      constructor; [|done]. cbn [fst snd].
      rewrite Hget by (intros Hin; apply existsb_eqb in Hin; congruence).
      unfold t1. rewrite table_get_set by done. rewrite rawequal_refl.
      apply (holds_later h h1 h' p); try done; set_solver.
Qed.

Lemma reads_object o kxs :
  Forall2 (fun e kx => fst e = fst kx /\ reads (snd e) (snd kx)) o kxs ->
  reads (Document.DObject o) (VMapping (last_wins kxs)).
Proof.
  intros Hall [h stk] frames rest.
  set (p := fresh (dom h)).
  destruct (object_loop_reads o kxs Hall (fun k => k ∈ map fst (last_wins kxs)))
    with (h := <[p := []]> h) (stk := stk) (frames := frames) (p := p) (t := @nil (lua_value * lua_value))
         (rest := Json.end_object :: rest)
    as (h' & t' & Hrun & Hp & Hwf & Hkeys & _ & Hdom & Hold & Hfields).
  { intros k Hk. by apply last_wins_keys. }
  { by rewrite lookup_insert_eq. }
  { done. }
  { constructor. }
  assert (Hfresh : p ∉ dom h) by apply is_fresh.
  rewrite dom_insert in Hdom.
  exists h', (LTable p). cbn [Json.st_heap Json.st_stack]. repeat split.
  - cbn [Document.events]. rewrite <- app_comm_cons, <- app_assoc.
    cbn [Json.sax_run Json.sax_handle]. etransitivity; [exact Hrun|]. reflexivity.
  - set_solver.
  - intros q Hq. rewrite Hold; [|rewrite dom_insert; set_solver|set_solver].
    rewrite lookup_insert_ne; [done|set_solver].
  - simpl. exists p. rewrite (heap_table_lookup _ _ _ Hp). repeat split.
    + set_solver.
    + apply last_wins_NoDup.
    + apply Forall_forall. intros e He.
      destruct (proj1 (Forall_forall _ _) Hkeys _ He) as (k & Hk & Hin).
      exists k. repeat split; [done|done|]. by apply well_formed_get.
    + apply map_fields_forall. eapply Forall_impl; [exact Hfields|].
      intros kx. apply holds_mono. rewrite dom_insert. set_solver.
Qed.

Lemma reads_value d : reads d (Document.value d).
Proof.
  induction d as [|b|z|z|n|s|l IH|l IH] using document_induction.
  - intros [h stk] frames rest. exists h, LNil. simpl. by repeat split.
  - intros [h stk] frames rest. exists h, (LBoolean b). simpl. by repeat split.
  - intros [h stk] frames rest. exists h, (LNumber (inject_Z (Json.to_int32 z))).
    simpl. by repeat split.
  - intros [h stk] frames rest. exists h, (LNumber (inject_Z (Json.to_int32 z))).
    simpl. by repeat split.
  - intros [h stk] frames rest. exists h, (LNumber n). simpl. by repeat split.
  - intros [h stk] frames rest. exists h, (LString s). simpl. by repeat split.
  - cbn [Document.value]. apply reads_array.
    induction IH as [|d l Hd _ IHl]; simpl; by constructor.
  - cbn [Document.value]. apply reads_object.
    induction IH as [|[k d] l Hd _ IHl]; simpl; by constructor.
Qed.

Lemma events_of_json j : Document.events (Document.of_json j) = Json.sax_events j.
Proof.
  revert j. fix IH 1. intros [| | | |l|l]; simpl; try done.
  - do 2 f_equal. f_equal. induction l as [|j l IHl]; simpl; [done|]. by rewrite IH, IHl.
  - do 2 f_equal. f_equal. induction l as [|[k j] l IHl]; simpl; [done|]. by rewrite IH, IHl.
Qed.

(** [[1, null, {"a": 2, "a": null, "b": 4294967297}]] *)
Definition sample_document : Document.document :=
  Document.DArray
    [Document.DUnsigned 1; Document.DNull;
     Document.DObject [("a", Document.DUnsigned 2); ("a", Document.DNull);
                       ("b", Document.DUnsigned 4294967297)]].

(** X1: the JSON decoder on any document its parser reads.  It ends
    without an error, leaves the tables of the heap as they were and
    returns the value of the document: an array is a table filled from
    index 1, a null in it leaving its index without a value; an object is
    a table with its keys, the last member of a repeated key being the one
    read, a null member being an absent key; an integer is its low 32
    bits. *)
Theorem json_decodes_document (sax_parse : string -> list Json.sax_event)
    (h : gmap positive table) (s : string) (d : Document.document) :
  String.length s <> 0%nat -> sax_parse s = Document.events d ->
  exists h' v,
    Json.jsondeserialize sax_parse h s = Ok (h', v) /\
    dom h ⊆ dom h' /\
    (forall p, p ∈ dom h -> h' !! p = h !! p) /\
    holds h' (dom h' ∖ dom h) v (Document.value d).
Proof.
  intros Hs Hparse.
  destruct (reads_value d (Json.mkState h []) [] []) as (h' & v & Hrun & Hdom & Hold & Hv).
  rewrite app_nil_r in Hrun. simpl in Hrun, Hdom, Hold, Hv.
  exists h', v. repeat split; try done.
  unfold Json.jsondeserialize. apply Nat.eqb_neq in Hs. by rewrite Hs, Hparse, Hrun.
Qed.

Lemma json_decodes_document_witness :
  String.length "x" <> 0%nat /\
  Document.value sample_document
    = VSequence [VNumber 1%Q; VNil; VMapping [("a", VNil); ("b", VNumber 1%Q)]] /\
  Json.jsondeserialize (fun _ => Document.events sample_document) ∅ "x"
    = Ok ({[1%positive := [(LNumber 1, LNumber 1); (LNumber 3, LTable 2)];
            2%positive := [(LString "b", LNumber 1)]]}, LTable 1) /\
  exists h' v,
    Json.jsondeserialize (fun _ => Document.events sample_document) ∅ "x" = Ok (h', v) /\
    (∅ : gset positive) ⊆ dom h' /\
    (forall p, p ∈ dom (∅ : gmap positive table) -> h' !! p = (∅ : gmap positive table) !! p) /\
    holds h' (dom h' ∖ dom (∅ : gmap positive table)) v (Document.value sample_document).
Proof.
  split; [done|]. split; [reflexivity|]. split; [vm_compute; reflexivity|].
  destruct (json_decodes_document (fun _ => Document.events sample_document) ∅ "x"
              sample_document) as (h' & v & Hrun & Hdom & Hold & Hv); [done|done|].
  exists h', v. repeat split; try done; set_solver.
Defined.

(** X2: [lua_pushinteger] takes an [int].  The number pushed for a JSON
    integer is within the 32-bit range, differs from the integer by a
    multiple of 2^32, and is the integer itself exactly when the integer is
    within the range. *)
Theorem json_integer_wraps (z : Z) (L : Json.lua_State) :
  Json.sax_handle (Json.number_integer z) (L, [])
    = Ok (Json.lua_push (LNumber (inject_Z (Json.to_int32 z))) L, []) /\
  Json.sax_handle (Json.number_unsigned z) (L, [])
    = Ok (Json.lua_push (LNumber (inject_Z (Json.to_int32 z))) L, []) /\
  (- 2 ^ 31 <= Json.to_int32 z < 2 ^ 31)%Z /\
  (exists q, Json.to_int32 z = z - q * 2 ^ 32)%Z /\
  (Json.to_int32 z = z <-> - 2 ^ 31 <= z < 2 ^ 31)%Z.
Proof.
  split; [done|]. split; [done|]. unfold Json.to_int32.
  pose proof (Z.mod_pos_bound (z + 2 ^ 31) (2 ^ 32) ltac:(lia)) as Hb.
  pose proof (Z.div_mod (z + 2 ^ 31) (2 ^ 32) ltac:(lia)) as Hd.
  split; [lia|]. split.
  - exists ((z + 2 ^ 31) / 2 ^ 32)%Z. lia.
  - split; [lia|]. intros Hz. rewrite Z.mod_small; lia.
Qed.

(** ** What the YAML, TOML and XML decoders build *)

Import Yaml.

(** A decoder step that ends, leaves the tables of the heap as they were
    and returns a value that holds [x], made of tables it created. *)
Definition builds (m : Dec lua_value) (x : Value) : Prop :=
  forall h, exists v h',
    m h = Ok (v, h') /\
    dom h ⊆ dom h' /\
    (forall p, p ∈ dom h -> h' !! p = h !! p) /\
    holds h' (dom h' ∖ dom h) v x.

(** The loop that fills a table by key, as [push_yaml_map],
    [push_toml_table] and [push_attrs] have it. *)
Fixpoint set_loop {A} (push : A -> Dec lua_value) (p : positive) (l : list (string * A)) : Dec unit :=
  match l with
  | [] => dret tt
  | (k, n) :: r =>
      dbind (push n) (fun x => dbind (settable p (LString k) x) (fun _ => set_loop push p r))
  end.

Lemma seq_loop_builds {A} (push : A -> Dec lua_value) (l : list A) xs :
  Forall2 (fun n x => builds (push n) x) l xs ->
  forall (h : gmap positive table) p k (t : table),
    h !! p = Some t -> well_formed t -> (0 <= k)%Z -> Forall (index_within 0 k) t ->
    exists h' t',
      seq_loop push p k l h = Ok (tt, h') /\
      h' !! p = Some t' /\ well_formed t' /\
      Forall (index_within 0 (k + Z.of_nat (length l))) t' /\
      (forall i, (i <= k)%Z -> lua_rawgeti t' i = lua_rawgeti t i) /\
      dom h ⊆ dom h' /\
      (forall q, q ∈ dom h -> q <> p -> h' !! q = h !! q) /\
      seq_items (holds h' (dom h' ∖ dom h)) t' (k + 1) xs.
Proof.
  induction 1 as [|n x l xs Hn _ IH]; intros h p k t Hp Hwf Hk Hkeys.
  - exists h, t. simpl. rewrite Z.add_0_r. by repeat split.
  - destruct (Hn h) as (v & h1 & Hrun1 & Hdom & Hold & Hh).
    assert (Hpd : p ∈ dom h) by (by apply elem_of_dom).
    assert (Hp1 : h1 !! p = Some t) by (by rewrite Hold).
    set (t1 := table_set t (LNumber (inject_Z (k + 1))) v).
    destruct (IH (<[p := t1]> h1) p (k + 1)%Z t1)
      as (h' & t' & Hrun & Hp' & Hwf' & Hkeys' & Hget & Hdom' & Hold' & Hitems).
    { by rewrite lookup_insert_eq. }
    { by apply table_set_well_formed. }
    { lia. }
    { by apply index_within_set. }
    assert (Hd2 : dom h1 ⊆ dom (<[p := t1]> h1)) by (rewrite dom_insert; set_solver).
    assert (Hold2 : forall q, q ∈ dom h1 -> q <> p -> h' !! q = h1 !! q).
    { intros q Hq Hne. rewrite Hold' by (try done; set_solver). by rewrite lookup_insert_ne. }
    exists h', t'. repeat split; try done.
    + cbn [seq_loop]. unfold dbind at 1. rewrite Hrun1. unfold dbind at 1, settable.
      rewrite (heap_table_lookup _ _ _ Hp1). exact Hrun.
    + eapply index_within_weaken; [|exact Hkeys']. simpl length. lia.
    + intros i Hi. rewrite Hget by lia. unfold lua_rawgeti, t1.
      rewrite table_get_set by done. rewrite rawequal_inject.
      by destruct (Z.eqb_spec (k + 1) i); [lia|].
    + set_solver.
    + intros q Hq Hne. rewrite Hold2 by (try done; set_solver). by apply Hold.
    + rewrite Hget by lia. unfold lua_rawgeti, t1. rewrite table_get_set by done.
      rewrite rawequal_refl. apply (holds_later h h1 h' p); try done; set_solver.
    + eapply seq_items_impl; [|exact Hitems].
      apply Forall_forall. intros x' _ v'. apply holds_mono. set_solver.
Qed.

Lemma set_loop_builds {A} (push : A -> Dec lua_value) (l : list (string * A)) kxs :
  Forall2 (fun e kx => fst e = fst kx /\ builds (push (snd e)) (snd kx)) l kxs ->
  forall (Q : string -> Prop), (forall k, k ∈ map fst kxs -> Q k) ->
  forall (h : gmap positive table) p (t : table),
    h !! p = Some t -> well_formed t ->
    Forall (fun e => exists k, fst e = LString k /\ Q k) t ->
    exists h' t',
      set_loop push p l h = Ok (tt, h') /\
      h' !! p = Some t' /\ well_formed t' /\
      Forall (fun e => exists k, fst e = LString k /\ Q k) t' /\
      (forall k, k ∉ map fst kxs -> table_get t' (LString k) = table_get t (LString k)) /\
      dom h ⊆ dom h' /\
      (forall q, q ∈ dom h -> q <> p -> h' !! q = h !! q) /\
      Forall (fun kx => holds h' (dom h' ∖ dom h) (table_get t' (LString (fst kx))) (snd kx))
        (last_wins kxs).
Proof.
  induction 1 as [|[k n] [k' x] l kxs [Hk Hn] _ IH]; intros Q HQ h p t Hp Hwf Hkeys.
  - exists h, t. simpl. repeat split; try done; constructor.
  - simpl in Hk, Hn. subst k'.
    destruct (Hn h) as (v & h1 & Hrun1 & Hdom & Hold & Hh).
    assert (Hpd : p ∈ dom h) by (by apply elem_of_dom).
    assert (Hp1 : h1 !! p = Some t) by (by rewrite Hold).
    set (t1 := table_set t (LString k) v).
    destruct (IH Q) with (h := <[p := t1]> h1) (p := p) (t := t1)
      as (h' & t' & Hrun & Hp' & Hwf' & Hkeys' & Hget & Hdom' & Hold' & Hfields).
    { intros k' Hk'. apply HQ. simpl. by right. }
    { by rewrite lookup_insert_eq. }
    { by apply table_set_well_formed. }
    { apply table_set_Forall; [done| |].
      - exists k. split; [done|]. apply HQ. simpl. by left.
      - by intros k0 v0 Hq _. }
    assert (Hd2 : dom h1 ⊆ dom (<[p := t1]> h1)) by (rewrite dom_insert; set_solver).
    assert (Hold2 : forall q, q ∈ dom h1 -> q <> p -> h' !! q = h1 !! q).
    { intros q Hq Hne. rewrite Hold' by (try done; set_solver). by rewrite lookup_insert_ne. }
    exists h', t'. repeat split; try done.
    + cbn [set_loop]. unfold dbind at 1. rewrite Hrun1. unfold dbind at 1, settable.
      rewrite (heap_table_lookup _ _ _ Hp1). exact Hrun.
    + intros k' Hk'. simpl in Hk'. rewrite not_elem_of_cons in Hk'. destruct Hk' as [Hne Hk'].
      rewrite (Hget _ Hk'). unfold t1. rewrite table_get_set by done.
      rewrite rawequal_string. by destruct (String.eqb_spec k k'); [congruence|].
    + set_solver.
    + intros q Hq Hne. rewrite Hold2 by (try done; set_solver). by apply Hold.
    + assert (Hrest : Forall (fun kx => holds h' (dom h' ∖ dom h)
                                 (table_get t' (LString (fst kx))) (snd kx)) (last_wins kxs)).
      { eapply Forall_impl; [exact Hfields|]. intros kx. apply holds_mono. set_solver. }
      cbn [last_wins fst]. destruct (existsb _ _) eqn:E; [done|].
      constructor; [|done]. cbn [fst snd].
      rewrite Hget by (intros Hin; apply existsb_eqb in Hin; congruence).
      unfold t1. rewrite table_get_set by done. rewrite rawequal_refl.
      apply (holds_later h h1 h' p); try done; set_solver.
Qed.

Lemma builds_ext (m m' : Dec lua_value) x : (forall h, m h = m' h) -> builds m' x -> builds m x.
Proof.
  intros Heq Hm h. destruct (Hm h) as (v & h' & Hrun & Hrest).
  exists v, h'. by rewrite Heq.
Qed.

Lemma new_sequence_builds {A} (push : A -> Dec lua_value) (l : list A) xs :
  Forall2 (fun n x => builds (push n) x) l xs ->
  builds (dbind newtable (fun p => dbind (seq_loop push p 0 l) (fun _ => dret (LTable p))))
    (VSequence xs).
Proof.
  intros Hall h. set (p := fresh (dom h)).
  assert (Hfresh : p ∉ dom h) by apply is_fresh.
  destruct (seq_loop_builds push l xs Hall (<[p := []]> h) p 0 [])
    as (h' & t' & Hrun & Hp & Hwf & Hkeys & _ & Hdom & Hold & Hitems).
  { by rewrite lookup_insert_eq. }
  { done. }
  { done. }
  { constructor. }
  rewrite dom_insert in Hdom.
  exists (LTable p), h'. repeat split.
  - unfold dbind at 1, newtable. fold p. unfold dbind. by rewrite Hrun.
  - set_solver.
  - intros q Hq. rewrite Hold; [|rewrite dom_insert; set_solver|set_solver].
    rewrite lookup_insert_ne; [done|set_solver].
  - simpl. exists p. rewrite (heap_table_lookup _ _ _ Hp). repeat split.
    + set_solver.
    + rewrite <- (Forall2_length _ _ _ Hall). eapply Forall_impl; [exact Hkeys|].
      intros e (i & Hi & Hk). exists i. split; [lia|done].
    + eapply seq_items_impl; [|exact Hitems].
      apply Forall_forall. intros x _ v. apply holds_mono. rewrite dom_insert. set_solver.
Qed.

Lemma new_mapping_builds {A} (push : A -> Dec lua_value) (l : list (string * A)) kxs :
  Forall2 (fun e kx => fst e = fst kx /\ builds (push (snd e)) (snd kx)) l kxs ->
  builds (dbind newtable (fun p => dbind (set_loop push p l) (fun _ => dret (LTable p))))
    (VMapping (last_wins kxs)).
Proof.
  intros Hall h. set (p := fresh (dom h)).
  assert (Hfresh : p ∉ dom h) by apply is_fresh.
  destruct (set_loop_builds push l kxs Hall (fun k => k ∈ map fst (last_wins kxs)))
    with (h := <[p := []]> h) (p := p) (t := @nil (lua_value * lua_value))
    as (h' & t' & Hrun & Hp & Hwf & Hkeys & _ & Hdom & Hold & Hfields).
  { intros k Hk. by apply last_wins_keys. }
  { by rewrite lookup_insert_eq. }
  { done. }
  { constructor. }
  rewrite dom_insert in Hdom.
  exists (LTable p), h'. repeat split.
  - unfold dbind at 1, newtable. fold p. unfold dbind. by rewrite Hrun.
  - set_solver.
  - intros q Hq. rewrite Hold; [|rewrite dom_insert; set_solver|set_solver].
    rewrite lookup_insert_ne; [done|set_solver].
  - simpl. exists p. rewrite (heap_table_lookup _ _ _ Hp). repeat split.
    + set_solver.
    + apply last_wins_NoDup.
    + apply Forall_forall. intros e He.
      destruct (proj1 (Forall_forall _ _) Hkeys _ He) as (k & Hk & Hin).
      exists k. repeat split; [done|done|]. by apply well_formed_get.
    + apply map_fields_forall. eapply Forall_impl; [exact Hfields|].
      intros kx. apply holds_mono. rewrite dom_insert. set_solver.
Qed.

(** *** TOML *)

Lemma node_induction (P : Toml.node -> Prop) :
  (forall s, P (Toml.string_value s)) -> (forall z, P (Toml.integer_value z)) ->
  (forall n, P (Toml.float_value n)) -> (forall b, P (Toml.boolean_value b)) ->
  (forall s, P (Toml.date_time_value s)) -> P Toml.other_value ->
  (forall l, Forall P l -> P (Toml.array l)) ->
  (forall l, Forall (fun e => P (snd e)) l -> P (Toml.table_node l)) ->
  forall n, P n.
Proof.
  intros Hs Hi Hf Hb Hd Ho Ha Ht. fix IH 1. intros [s|z|n|b|s| |l|l].
  - apply Hs.
  - apply Hi.
  - apply Hf.
  - apply Hb.
  - apply Hd.
  - exact Ho.
  - apply Ha. induction l as [|d l IHl]; constructor; [apply IH|exact IHl].
  - apply Ht. induction l as [|[k d] l IHl]; constructor; [apply IH|exact IHl].
Qed.

(** The value [push_toml_value] builds from a node: the strings are read
    as C strings, an integer is cast to a double, a node of no known kind is
    nil (a date-time has none: the decoder fails on it). *)
Fixpoint toml_value (n : Toml.node) : Value :=
  match n with
  | Toml.string_value s => VString (c_str s)
  | Toml.integer_value z => VNumber (int2num z)
  | Toml.float_value x => VNumber x
  | Toml.boolean_value b => VBool b
  | Toml.date_time_value _ => VNil
  | Toml.other_value => VNil
  | Toml.array l => VSequence (map toml_value l)
  | Toml.table_node l => VMapping (last_wins (map (fun e => (fst e, toml_value (snd e))) l))
  end.

(** No date-time anywhere in the node. *)
Fixpoint undated (n : Toml.node) : bool :=
  match n with
  | Toml.date_time_value _ => false
  | Toml.array l => forallb undated l
  | Toml.table_node l => forallb (fun e => undated (snd e)) l
  | _ => true
  end.

Definition toml_fails (n : Toml.node) : Prop :=
  forall h, Toml.push_toml_value n h = Error Toml.bad_optional_access.
Definition toml_settles (n : Toml.node) : Prop :=
  forall h, (exists v h', Toml.push_toml_value n h = Ok (v, h')) \/
            Toml.push_toml_value n h = Error Toml.bad_optional_access.

Lemma toml_table_loop (l : list (string * Toml.node)) h :
  Toml.push_toml_value (Toml.table_node l) h
  = dbind newtable (fun p => dbind (set_loop Toml.push_toml_value p l)
                               (fun _ => dret (LTable p))) h.
Proof.
  cbn [Toml.push_toml_value]. unfold dbind, newtable, dret, settable. cbv beta iota.
  generalize (<[fresh (dom h) := []]> h). generalize (fresh (dom h)). intros p.
  induction l as [|[k v] r IH]; intros h1; [done|].
  cbn [set_loop]. unfold dbind, settable. cbv beta iota fix.
  destruct (Toml.push_toml_value v h1) as [[x h2]| |]; [apply IH|done|done].
Qed.

Lemma toml_seq_loop_fails (l : list Toml.node) :
  Forall toml_settles l -> Exists toml_fails l ->
  forall p k h, seq_loop Toml.push_toml_value p k l h = Error Toml.bad_optional_access.
Proof.
  induction 1 as [|n l Hn _ IH]; intros Hex p k h; [by apply Exists_nil in Hex|].
  cbn [seq_loop]. unfold dbind at 1.
  apply Exists_cons in Hex as [Hf|Hex]; [by rewrite Hf|].
  destruct (Hn h) as [(v & h' & ->)| ->]; [|done].
  unfold dbind at 1, settable. by apply IH.
Qed.

Lemma toml_set_loop_fails (l : list (string * Toml.node)) :
  Forall (fun e => toml_settles (snd e)) l -> Exists (fun e => toml_fails (snd e)) l ->
  forall p h, set_loop Toml.push_toml_value p l h = Error Toml.bad_optional_access.
Proof.
  induction 1 as [|[k n] l Hn _ IH]; intros Hex p h; [by apply Exists_nil in Hex|].
  cbn [set_loop]. unfold dbind at 1. simpl in Hn.
  apply Exists_cons in Hex as [Hf|Hex]; [simpl in Hf; by rewrite Hf|].
  destruct (Hn h) as [(v & h' & ->)| ->]; [|done].
  unfold dbind at 1, settable. by apply IH.
Qed.

(** A node without a date-time is decoded; the decoder fails on any
    other. *)
Lemma toml_outcome n :
  (undated n = true -> builds (Toml.push_toml_value n) (toml_value n)) /\
  (undated n = false -> toml_fails n).
Proof.
  induction n as [s|z|x|b|s| |l IH|l IH] using node_induction;
    try (split; [intros _ h; eexists _, h; simpl; by repeat split|done]).
  - split; [done|]. by intros _ h.
  - split.
    + intros Hl. cbn [toml_value]. apply new_sequence_builds.
      simpl in Hl. induction IH as [|n l Hn _ IHl]; simpl; [constructor|].
      simpl in Hl. apply andb_prop in Hl as [Hn' Hl]. constructor; [by apply Hn|by apply IHl].
    + intros Hl h. cbn [Toml.push_toml_value]. unfold dbind at 1, newtable. unfold dbind at 1.
      rewrite toml_seq_loop_fails; [done| |].
      * eapply Forall_impl; [exact IH|]. intros n [Hok Hbad] h1.
        destruct (undated n); [|right; by apply Hbad].
        left. destruct (Hok eq_refl h1) as (v & h' & Hrun & _). by exists v, h'.
      * simpl in Hl. clear -IH Hl. induction IH as [|n l Hn _ IHl]; [done|].
        simpl in Hl. destruct (undated n) eqn:En.
        -- right. by apply IHl.
        -- left. by apply Hn.
  - split.
    + intros Hl. simpl in Hl.
      apply (builds_ext _ _ _ (toml_table_loop l)). cbn [toml_value].
      apply new_mapping_builds.
      induction IH as [|[k n] l Hn _ IHl]; simpl; [constructor|].
      simpl in Hl. apply andb_prop in Hl as [Hn' Hl].
      constructor; [|by apply IHl]. split; [done|]. simpl. by apply Hn.
    + intros Hl h. rewrite toml_table_loop. unfold dbind at 1, newtable. unfold dbind at 1.
      rewrite toml_set_loop_fails; [done| |].
      * eapply Forall_impl; [exact IH|]. intros [k n] [Hok Hbad] h1. simpl in *.
        destruct (undated n); [|right; by apply Hbad].
        left. destruct (Hok eq_refl h1) as (v & h' & Hrun & _). by exists v, h'.
      * simpl in Hl. clear -IH Hl. induction IH as [|[k n] l Hn _ IHl]; [done|].
        simpl in Hl, Hn. destruct (undated n) eqn:En.
        -- right. by apply IHl.
        -- left. by apply Hn.
Qed.

Lemma toml_builds n : undated n = true -> builds (Toml.push_toml_value n) (toml_value n).
Proof. apply toml_outcome. Qed.

(** X3: the TOML decoder on what [toml::parse] returns.  A parse error is
    raised with its description.  A parsed document without a date-time is
    decoded into a new table that holds the document's value, an integer
    cast to the nearest double, the tables of the heap left as they were;
    the empty document is no exception.  On a document with a date-time the
    decoder reads the string the node does not have, and the call fails. *)
Theorem toml_decodes (parse : string -> string + list (string * Toml.node))
    (src : string) (h : gmap positive table) :
  match parse src with
  | inl description => Toml.tomldeserialize parse src h = Error description
  | inr tbl =>
      if undated (Toml.table_node tbl)
      then exists p h',
        Toml.tomldeserialize parse src h = Ok (LTable p, h') /\
        (p ∉ dom h) /\ dom h ⊆ dom h' /\
        (forall q, q ∈ dom h -> h' !! q = h !! q) /\
        holds h' (dom h' ∖ dom h) (LTable p) (toml_value (Toml.table_node tbl))
      else Toml.tomldeserialize parse src h = Error Toml.bad_optional_access
  end.
Proof.
  unfold Toml.tomldeserialize, Toml.push_toml_table.
  destruct (parse src) as [description|tbl]; [done|].
  destruct (undated (Toml.table_node tbl)) eqn:Eu.
  - destruct (toml_builds (Toml.table_node tbl) Eu h) as (v & h' & Hrun & Hdom & Hold & Hv).
    pose proof Hv as Hv'. simpl in Hv'. destruct Hv' as (p & -> & Hp & _).
    exists p, h'. repeat split; try done. set_solver.
  - by apply (proj2 (toml_outcome (Toml.table_node tbl)) Eu).
Qed.

(** A document with an integer beyond 53 bits, and one with a date-time. *)
Lemma toml_decodes_examples :
  Toml.tomldeserialize (fun _ => inr [("n", Toml.integer_value 9007199254740993)]) "n" ∅
    = Ok (LTable 1, {[1%positive := [(LString "n", LNumber 9007199254740992)]]}) /\
  Toml.tomldeserialize (fun _ => inr [("d", Toml.date_time_value "1979-05-27T07:32:00Z")]) "d" ∅
    = Error "bad optional access".
Proof. split; vm_compute; reflexivity. Qed.

(** *** YAML *)

Lemma Node_induction (P : Node -> Prop) :
  P Null -> (forall s, P (Scalar s)) -> (forall b, P (OfBool b)) -> (forall n, P (OfDouble n)) ->
  (forall l, Forall P l -> P (Sequence l)) ->
  (forall l, Forall (fun e => P (snd e)) l -> P (Map l)) ->
  forall n, P n.
Proof.
  intros Hn Hs Hb Hd Hq Hm. fix IH 1. intros [|s|b|n|l|l].
  - exact Hn.
  - apply Hs.
  - apply Hb.
  - apply Hd.
  - apply Hq. induction l as [|d l IHl]; constructor; [apply IH|exact IHl].
  - apply Hm. induction l as [|[k d] l IHl]; constructor; [apply IH|exact IHl].
Qed.

Definition key_error : string :=
  "YAML mapping keys must be scalars (string/number/bool); got non-scalar key".

Section YamlDecodes.
Variable strtod : string -> lua_Number * nat.
Variable scalar_text : Node -> string.

Local Notation "'push'" := (push_yaml_node strtod scalar_text).

(** Every key of every map of the node is a scalar. *)
Fixpoint scalar_keys (n : Node) : bool :=
  match n with
  | Sequence l => forallb scalar_keys l
  | Map l => forallb (fun e => IsScalar (fst e) && scalar_keys (snd e)) l
  | _ => true
  end.

Definition scalar_value (v : lua_value) : Value :=
  match v with
  | LBoolean b => VBool b
  | LNumber n => VNumber n
  | LString s => VString s
  | _ => VNil
  end.

(** The value [push_yaml_node] builds from a node: a scalar is typed by its
    text, a map is filled by assignment under the text of each key. *)
Fixpoint yaml_value (n : Node) : Value :=
  match n with
  | Null => VNil
  | Sequence l => VSequence (map yaml_value l)
  | Map l =>
      VMapping (last_wins (map (fun e => (Scalar_of scalar_text (fst e), yaml_value (snd e))) l))
  | _ => scalar_value (push_scalar strtod (Scalar_of scalar_text n))
  end.

Definition fails (n : Node) : Prop := forall h, push n h = Error key_error.
Definition settles (n : Node) : Prop :=
  forall h, (exists v h', push n h = Ok (v, h')) \/ push n h = Error key_error.

Lemma scalar_builds s : builds (dret (push_scalar strtod s)) (scalar_value (push_scalar strtod s)).
Proof.
  intros h. exists (push_scalar strtod s), h. repeat split; try done.
  unfold push_scalar. destruct (_ || _); [done|]. destruct (_ || _); [done|].
  by destruct (parse_number strtod s).
Qed.

Lemma yaml_map_loop (l : list (Node * Node)) h :
  Forall (fun e => IsScalar (fst e) = true) l ->
  push (Map l) h
  = dbind newtable (fun p =>
      dbind (set_loop push p (map (fun e => (Scalar_of scalar_text (fst e), snd e)) l))
        (fun _ => dret (LTable p))) h.
Proof.
  intros Hl. cbn [push_yaml_node]. unfold dbind, newtable, dret, settable. cbv beta iota.
  generalize (<[fresh (dom h) := []]> h). generalize (fresh (dom h)). intros p.
  induction Hl as [|[k v] r Hk _ IH]; intros h1; [done|].
  simpl in Hk. cbn [set_loop map fst snd]. unfold dbind, settable, derror. cbv beta iota fix.
  rewrite Hk. cbn [negb].
  destruct (push v h1) as [[x h2]| |]; [apply IH|done|done].
Qed.

Lemma seq_loop_fails (l : list Node) :
  Forall settles l -> Exists fails l ->
  forall p k h, seq_loop push p k l h = Error key_error.
Proof.
  induction 1 as [|n l Hn _ IH]; intros Hex p k h; [by apply Exists_nil in Hex|].
  cbn [seq_loop]. unfold dbind at 1.
  apply Exists_cons in Hex as [Hf|Hex]; [by rewrite Hf|].
  destruct (Hn h) as [(v & h' & ->)| ->]; [|done].
  unfold dbind at 1, settable. by apply IH.
Qed.

Lemma map_loop_fails (l : list (Node * Node)) :
  Forall (fun e => settles (snd e)) l ->
  Exists (fun e => IsScalar (fst e) = false \/ fails (snd e)) l ->
  forall h, push (Map l) h = Error key_error.
Proof.
  intros Hall Hex h. cbn [push_yaml_node]. unfold dbind, newtable, dret, settable, derror.
  cbv beta iota.
  generalize (<[fresh (dom h) := []]> h). generalize (fresh (dom h)). intros p.
  induction Hall as [|[k v] l Hn _ IH]; intros h1; [by apply Exists_nil in Hex|].
  cbv beta iota fix. simpl in Hn.
  apply Exists_cons in Hex as [[Hk|Hf]|Hex]; simpl in *.
  - by rewrite Hk.
  - destruct (IsScalar k); [|done]. cbn [negb]. by rewrite Hf.
  - destruct (IsScalar k); [|done]. cbn [negb].
    destruct (Hn h1) as [(x & h2 & ->)| ->]; [|done]. by apply IH.
Qed.

Lemma yaml_outcome n :
  (scalar_keys n = true -> builds (push n) (yaml_value n)) /\
  (scalar_keys n = false -> fails n).
Proof.
  induction n as [|s|b|x|l IH|l IH] using Node_induction;
    try (split; [intros _; try apply scalar_builds|done]).
  - intros h. exists LNil, h. by repeat split.
  - split.
    + intros Hl. cbn [yaml_value]. apply new_sequence_builds.
      simpl in Hl. induction IH as [|n l Hn _ IHl]; simpl; [constructor|].
      simpl in Hl. apply andb_prop in Hl as [Hn' Hl]. constructor; [by apply Hn|by apply IHl].
    + intros Hl h. cbn [push_yaml_node]. unfold dbind at 1, newtable. unfold dbind at 1.
      rewrite seq_loop_fails; [done| |].
      * eapply Forall_impl; [exact IH|]. intros n [Hok Hbad] h1.
        destruct (scalar_keys n); [|right; by apply Hbad].
        left. destruct (Hok eq_refl h1) as (v & h' & Hrun & _). by exists v, h'.
      * simpl in Hl. clear -IH Hl. induction IH as [|n l Hn _ IHl]; [done|].
        simpl in Hl. destruct (scalar_keys n) eqn:En.
        -- right. by apply IHl.
        -- left. by apply Hn.
  - split.
    + intros Hl. simpl in Hl.
      assert (Hkeys : Forall (fun e => IsScalar (fst e) = true) l).
      { apply Forall_forall. intros e He.
        pose proof (proj1 (forallb_forall _ _) Hl e (proj1 (list_elem_of_In _ _) He)) as Hb.
        by apply andb_prop in Hb as [Hb _]. }
      apply (builds_ext _ _ _ (fun h => yaml_map_loop l h Hkeys)). cbn [yaml_value].
      apply new_mapping_builds.
      clear Hkeys. induction IH as [|[k n] l Hn _ IHl]; simpl; [constructor|].
      simpl in Hl. apply andb_prop in Hl as [Hn' Hl]. apply andb_prop in Hn' as [_ Hn'].
      constructor; [|by apply IHl]. split; [done|]. simpl. by apply Hn.
    + intros Hl h. apply map_loop_fails.
      * eapply Forall_impl; [exact IH|]. intros [k n] [Hok Hbad] h1. simpl in *.
        destruct (scalar_keys n); [|right; by apply Hbad].
        left. destruct (Hok eq_refl h1) as (v & h' & Hrun & _). by exists v, h'.
      * simpl in Hl. clear -IH Hl. induction IH as [|[k n] l Hn _ IHl]; [done|].
        simpl in Hl, Hn. destruct (IsScalar k) eqn:Ek; [|left; by left].
        destruct (scalar_keys n) eqn:En.
        -- right. by apply IHl.
        -- left. right. by apply Hn.
Qed.

(** X4: the YAML decoder on a document whose map keys are all scalars.  It
    ends without an error, leaves the tables of the heap as they were and
    returns the value of the document: a sequence is a table filled from
    index 1, a map is a table filled by assignment under the text of each
    key, so the last of two keys with one text is the one read and a null
    leaves no key; a scalar is a boolean for the six spellings, a number
    when [parse_number] takes it, a string otherwise. *)
Theorem yaml_decodes (Load : string -> string + Node) (s : string) (doc : Node)
    (h : gmap positive table) :
  String.length s <> 0%nat -> Load s = inr doc -> scalar_keys doc = true ->
  exists v h',
    yamldeserialize strtod scalar_text Load s h = Ok (v, h') /\
    dom h ⊆ dom h' /\
    (forall p, p ∈ dom h -> h' !! p = h !! p) /\
    holds h' (dom h' ∖ dom h) v (yaml_value doc).
Proof.
  intros Hs Hload Hkeys. unfold yamldeserialize.
  apply Nat.eqb_neq in Hs. rewrite Hs, Hload.
  apply (proj1 (yaml_outcome doc) Hkeys).
Qed.

(** X5: the YAML decoder on a document that has, anywhere in it, a map key
    which is not a scalar (a null, a sequence or a map): the call fails
    with the error of the key, whatever else the document holds. *)
Theorem yaml_key_error (Load : string -> string + Node) (s : string) (doc : Node)
    (h : gmap positive table) :
  String.length s <> 0%nat -> Load s = inr doc -> scalar_keys doc = false ->
  yamldeserialize strtod scalar_text Load s h = Error key_error.
Proof.
  intros Hs Hload Hkeys. unfold yamldeserialize.
  apply Nat.eqb_neq in Hs. rewrite Hs, Hload.
  apply (proj2 (yaml_outcome doc) Hkeys).
Qed.

End YamlDecodes.

(** [{a: 1, a: TRUE, b: ~, c: [x, ~]}] and [{a: 1, []: 2}] *)
Definition yaml_sample : Node :=
  Map [(Scalar "a", Scalar "1"); (Scalar "a", Scalar "TRUE"); (Scalar "b", Null);
       (Scalar "c", Sequence [Scalar "x"; Null])].
Definition yaml_sequence_key : Node :=
  Map [(Scalar "a", Scalar "1"); (Sequence [], Scalar "2")].

Lemma yaml_decodes_witness :
  String.length "x" <> 0%nat /\
  scalar_keys yaml_sample = true /\
  yaml_value Sample.strtod (fun _ => EmptyString) yaml_sample
    = VMapping [("a", VBool true); ("b", VNil); ("c", VSequence [VString "x"; VNil])] /\
  yamldeserialize Sample.strtod (fun _ => EmptyString) (fun _ => inr yaml_sample) "x" ∅
    = Ok (LTable 1, {[1%positive := [(LString "a", LBoolean true); (LString "c", LTable 2)];
                      2%positive := [(LNumber 1, LString "x")]]}) /\
  exists v h',
    yamldeserialize Sample.strtod (fun _ => EmptyString) (fun _ => inr yaml_sample) "x" ∅
      = Ok (v, h') /\
    dom (∅ : gmap positive table) ⊆ dom h' /\
    (forall p, p ∈ dom (∅ : gmap positive table) -> h' !! p = (∅ : gmap positive table) !! p) /\
    holds h' (dom h' ∖ dom (∅ : gmap positive table)) v
      (yaml_value Sample.strtod (fun _ => EmptyString) yaml_sample).
Proof.
  split; [done|]. split; [reflexivity|]. split; [vm_compute; reflexivity|].
  split; [vm_compute; reflexivity|].
  exact (yaml_decodes Sample.strtod (fun _ => EmptyString) (fun _ => inr yaml_sample) "x"
           yaml_sample ∅ ltac:(done) eq_refl eq_refl).
Defined.

Lemma yaml_key_error_witness :
  String.length "x" <> 0%nat /\
  scalar_keys yaml_sequence_key = false /\
  yamldeserialize Sample.strtod (fun _ => EmptyString) (fun _ => inr yaml_sequence_key) "x" ∅
    = Error key_error.
Proof.
  split; [done|]. split; [reflexivity|].
  exact (yaml_key_error Sample.strtod (fun _ => EmptyString) (fun _ => inr yaml_sequence_key) "x"
           yaml_sequence_key ∅ ltac:(done) eq_refl eq_refl).
Defined.

(** *** XML *)

Lemma XMLElement_induction (P : Xml.XMLElement -> Prop) :
  (forall name attributes txt children,
     Forall P children -> P (Xml.Element name attributes txt children)) ->
  forall el, P el.
Proof.
  intros Hstep. fix IH 1. intros [name attributes txt children]. apply Hstep.
  induction children as [|c cs IHcs]; constructor; [apply IH|apply IHcs].
Qed.

Fixpoint distinct (l : list string) : bool :=
  match l with
  | [] => true
  | k :: r => negb (existsb (String.eqb k) r) && distinct r
  end.

(** The record [push_xml_element] builds for an element: the strings are
    read as C strings, a text is kept when it is not empty. *)
Fixpoint element_of (el : Xml.XMLElement) : element :=
  match el with
  | Xml.Element name attributes txt children =>
      Elem (c_str name)
        (map (fun a => (c_str (fst a), c_str (snd a))) attributes)
        (match txt with
         | Some s => if (String.length (c_str s) =? 0)%nat then None else Some (c_str s)
         | None => None
         end)
        (map element_of children)
  end.

(** An element as a parser of XML returns it: its name is not empty and
    no two of its attributes have one name; so for its children. *)
Fixpoint well_named (el : Xml.XMLElement) : bool :=
  match el with
  | Xml.Element name attributes txt children =>
      negb (String.length (c_str name) =? 0)%nat &&
      distinct (map (fun a => c_str (fst a)) attributes) &&
      forallb well_named children
  end.

(** The same record, the attributes of each element in another order. *)
Inductive reordered : element -> element -> Prop :=
| reordered_element tag attr attr' text children children' :
    attr ≡ₚ attr' -> Forall2 reordered children children' ->
    reordered (Elem tag attr text children) (Elem tag attr' text children').

Lemma reordered_refl e : reordered e e.
Proof.
  induction e as [tag attr text children IH] using element_induction.
  constructor; [done|]. induction IH; by constructor.
Qed.

Section XmlRecords.
Context `{Host}.

(** [represents] with the tables of the record counted: they are in [D],
    a child's are not its parent's. *)
Fixpoint records (h : gmap positive table) (D : gset positive) (p : positive)
    (e : element) {struct e} : Prop :=
  match e with
  | Elem tag attr text children =>
      let t := heap_table h p in
      (p ∈ D) /\
      table_get t (LString "tag") = LString tag /\
      String.length tag <> 0%nat /\
      (exists pa, table_get t (LString "attr") = LTable pa /\ (pa ∈ D ∖ {[p]}) /\
                  Forall2 attribute_of (heap_table h pa) attr) /\
      match text with
      | None => table_get t (LString "text") = LNil
      | Some s => table_get t (LString "text") = LString s /\ c_str s = s
      end /\
      (exists pc, table_get t (LString "children") = LTable pc /\ (pc ∈ D ∖ {[p]}) /\
                  lua_objlen (heap_table h pc) = Z.of_nat (length children) /\
                  items_at (records h (D ∖ {[p]})) (heap_table h pc) 1 children)
  end.

Lemma items_at_impl (R R' : positive -> element -> Prop) tc cs :
  Forall (fun c => forall q, R q c -> R' q c) cs ->
  forall i, items_at R tc i cs -> items_at R' tc i cs.
Proof.
  induction 1 as [|c cs Hc _ IH]; intros i; simpl; [done|].
  intros [(q & Hq & Hr) Hrest]. split; [exists q; split; [done|by apply Hc]|by apply IH].
Qed.

Lemma records_mono h e : forall D D' p, D ⊆ D' -> records h D p e -> records h D' p e.
Proof.
  induction e as [tag attr text children IH] using element_induction.
  intros D D' p HD. simpl.
  intros (Hp & Htag & Hlen & (pa & Ha & Hpa & Hattr) & Htext & (pc & Hc & Hpc & Hn & Hitems)).
  repeat split; try done; [set_solver| |].
  - exists pa. repeat split; [done|set_solver|done].
  - exists pc. repeat split; [done|set_solver|done|].
    eapply items_at_impl; [|exact Hitems].
    eapply Forall_impl; [exact IH|]. intros c Hc' q. apply Hc'. set_solver.
Qed.

Lemma records_frame h h' e : forall D p,
  (forall q, q ∈ D -> heap_table h' q = heap_table h q) ->
  records h D p e -> records h' D p e.
Proof.
  induction e as [tag attr text children IH] using element_induction.
  intros D p HD. simpl.
  intros (Hp & Htag & Hlen & (pa & Ha & Hpa & Hattr) & Htext & (pc & Hc & Hpc & Hn & Hitems)).
  rewrite (HD p Hp). repeat split; try done.
  - exists pa. repeat split; [done|done|]. rewrite HD; [done|set_solver].
  - exists pc. rewrite HD by set_solver. repeat split; [done|done|done|].
    eapply items_at_impl; [|exact Hitems].
    eapply Forall_impl; [exact IH|]. intros c Hc' q. apply Hc'.
    intros q' Hq'. apply HD. set_solver.
Qed.

Lemma records_later (h h1 h' : gmap positive table) (p q : positive) e :
  p ∈ dom h -> dom h ⊆ dom h1 -> dom h1 ⊆ dom h' ->
  (forall r, r ∈ dom h1 -> r <> p -> h' !! r = h1 !! r) ->
  records h1 (dom h1 ∖ dom h) q e -> records h' (dom h' ∖ dom h) q e.
Proof.
  intros Hp Hd1 Hd2 Hold Hv.
  apply (records_mono _ _ (dom h1 ∖ dom h)); [set_solver|].
  apply (records_frame h1); [|done].
  intros r Hr. unfold heap_table. rewrite Hold; [done|set_solver|set_solver].
Qed.

Lemma records_represents h e : forall D path p,
  records h D p e -> path ## D -> represents h path p e.
Proof.
  induction e as [tag attr text children IH] using element_induction.
  intros D path p. simpl.
  intros (Hp & Htag & Hlen & (pa & Ha & Hpa & Hattr) & Htext & (pc & Hc & Hpc & Hn & Hitems)) Hdis.
  rewrite Htag, Ha, Hc. repeat split; try done; [set_solver| |].
  - destruct text as [s|]; [|done]. destruct Htext as [-> Hs]. by split.
  - eapply items_at_impl; [|exact Hitems].
    eapply Forall_impl; [exact IH|]. intros c Hc' q Hq. apply (Hc' (D ∖ {[p]})); [done|set_solver].
Qed.

End XmlRecords.

Section XmlRoundTrip.
Context `{Host}.

Definition attribute_entry (a : string * string) : lua_value * lua_value :=
  (LString (c_str (fst a)), LString (c_str (snd a))).

Lemma push_attrs_spec (attributes : list (string * string)) :
  distinct (map (fun a => c_str (fst a)) attributes) = true ->
  forall (h : gmap positive table) pa (t : table),
    h !! pa = Some t ->
    Forall (fun e => forall a, a ∈ attributes ->
                       lua_rawequal (fst e) (LString (c_str (fst a))) = false) t ->
    Xml.push_attrs pa attributes h = Ok (tt, <[pa := t ++ map attribute_entry attributes]> h).
Proof.
  induction attributes as [|[name value] r IH]; intros Hd h pa t Hp Ht.
  - simpl. rewrite app_nil_r. unfold dret. by rewrite insert_id.
  - simpl in Hd. apply andb_prop in Hd as [Hname Hd]. apply negb_true_iff in Hname.
    cbn [Xml.push_attrs]. unfold dbind, settable. rewrite (heap_table_lookup _ _ _ Hp).
    rewrite table_set_new; [|done|].
    2:{ eapply Forall_impl; [exact Ht|]. intros e He. apply (He (name, value)). by left. }
    rewrite (IH Hd _ pa (t ++ [(LString (c_str name), LString (c_str value))])).
    + rewrite insert_insert_eq. cbn [map]. by rewrite <- app_assoc.
    + by rewrite lookup_insert_eq.
    + apply Forall_app. split.
      * eapply Forall_impl; [exact Ht|]. intros e He a Ha. apply He. by right.
      * constructor; [|constructor]. intros a Ha. simpl fst. rewrite rawequal_string.
        apply String.eqb_neq. intros Heq.
        assert (Hin : existsb (String.eqb (c_str name)) (map (fun a => c_str (fst a)) r) = true).
        { apply existsb_eqb. apply list_elem_of_fmap. by exists a. }
        congruence.
Qed.

Lemma attribute_entries attributes :
  Forall2 attribute_of (map attribute_entry attributes)
    (map (fun a => (c_str (fst a), c_str (snd a))) attributes).
Proof.
  induction attributes as [|a r IH]; simpl; constructor; [|done].
  unfold attribute_of. simpl. by rewrite !c_str_idem.
Qed.

(** An element is decoded into a new record, the tables of the heap left
    as they were. *)
Definition decoded (el : Xml.XMLElement) : Prop :=
  forall h, exists p h',
    Xml.push_xml_element el h = Ok (LTable p, h') /\
    dom h ⊆ dom h' /\
    (forall q, q ∈ dom h -> h' !! q = h !! q) /\
    records h' (dom h' ∖ dom h) p (element_of el).

Lemma children_loop (children : list Xml.XMLElement) :
  Forall decoded children ->
  forall (h : gmap positive table) pc k (t : table),
    h !! pc = Some t -> well_formed t -> (0 <= k)%Z -> Forall (index_within 0 k) t ->
    exists h' t',
      seq_loop Xml.push_xml_element pc k children h = Ok (tt, h') /\
      h' !! pc = Some t' /\ well_formed t' /\
      Forall (index_within 0 (k + Z.of_nat (length children))) t' /\
      (forall i, (i <= k)%Z -> lua_rawgeti t' i = lua_rawgeti t i) /\
      dom h ⊆ dom h' /\
      (forall q, q ∈ dom h -> q <> pc -> h' !! q = h !! q) /\
      items_at (records h' (dom h' ∖ dom h)) t' (k + 1) (map element_of children).
Proof.
  induction 1 as [|el l Hel _ IH]; intros h pc k t Hp Hwf Hk Hkeys.
  - exists h, t. simpl. rewrite Z.add_0_r. by repeat split.
  - destruct (Hel h) as (q & h1 & Hrun1 & Hdom & Hold & Hh).
    assert (Hpd : pc ∈ dom h) by (by apply elem_of_dom).
    assert (Hp1 : h1 !! pc = Some t) by (by rewrite Hold).
    set (t1 := table_set t (LNumber (inject_Z (k + 1))) (LTable q)).
    destruct (IH (<[pc := t1]> h1) pc (k + 1)%Z t1)
      as (h' & t' & Hrun & Hp' & Hwf' & Hkeys' & Hget & Hdom' & Hold' & Hitems).
    { by rewrite lookup_insert_eq. }
    { by apply table_set_well_formed. }
    { lia. }
    { by apply index_within_set. }
    assert (Hd2 : dom h1 ⊆ dom (<[pc := t1]> h1)) by (rewrite dom_insert; set_solver).
    assert (Hold2 : forall r, r ∈ dom h1 -> r <> pc -> h' !! r = h1 !! r).
    { intros r Hr Hne. rewrite Hold' by (try done; set_solver). by rewrite lookup_insert_ne. }
    exists h', t'. repeat split; try done.
    + cbn [seq_loop]. unfold dbind at 1. rewrite Hrun1. unfold dbind at 1, settable.
      rewrite (heap_table_lookup _ _ _ Hp1). exact Hrun.
    + eapply index_within_weaken; [|exact Hkeys']. simpl length. lia.
    + intros i Hi. rewrite Hget by lia. unfold lua_rawgeti, t1.
      rewrite table_get_set by done. rewrite rawequal_inject.
      by destruct (Z.eqb_spec (k + 1) i); [lia|].
    + set_solver.
    + intros r Hr Hne. rewrite Hold2 by (try done; set_solver). by apply Hold.
    + exists q. split.
      * rewrite Hget by lia. unfold lua_rawgeti, t1. rewrite table_get_set by done.
        by rewrite rawequal_refl.
      * apply (records_later h h1 h' pc); try done; set_solver.
    + eapply items_at_impl; [|exact Hitems].
      apply Forall_forall. intros c _ r. apply records_mono. set_solver.
Qed.

Lemma items_at_present (R : positive -> element -> Prop) tc cs : forall i,
  items_at R tc i cs ->
  forall n, (i <= n < i + Z.of_nat (length cs))%Z -> lua_isnil (lua_rawgeti tc n) = false.
Proof.
  induction cs as [|c cs IH]; intros i Hitems n Hn; simpl in Hn; [lia|].
  simpl in Hitems. destruct Hitems as [(q & Hq & _) Hitems].
  destruct (Z.eq_dec n i) as [->|Hne]; [by rewrite Hq|].
  apply (IH (i + 1)%Z); [done|lia].
Qed.

Lemma children_objlen (R : positive -> element -> Prop) tc cs :
  Forall (index_within 0 (Z.of_nat (length cs))) tc -> items_at R tc 1 cs ->
  lua_objlen tc = Z.of_nat (length cs).
Proof.
  intros Hkeys Hitems. apply objlen_unique; [lia| |].
  - intros i Hi. apply (items_at_present R tc cs 1); [done|lia].
  - unfold lua_rawgeti. rewrite table_get_absent; [done|].
    eapply Forall_impl; [exact Hkeys|]. intros e (i & Hi & Hk).
    apply (index_key_other _ i); [done|lia].
Qed.

Lemma xml_decoded el : well_named el = true -> decoded el.
Proof.
  induction el as [name attributes txt children IH] using XMLElement_induction.
  intros Hwn h. simpl in Hwn.
  apply andb_prop in Hwn as [Hwn Hch]. apply andb_prop in Hwn as [Hname Hattrs].
  apply negb_true_iff, Nat.eqb_neq in Hname.
  assert (Hdec : Forall decoded children).
  { apply Forall_forall. intros c Hc. apply (proj1 (Forall_forall _ _) IH c Hc).
    apply (proj1 (forallb_forall _ _) Hch). by apply list_elem_of_In. }
  set (p := fresh (dom h)). set (h1 := <[p := []]> h).
  set (T1 := [(LString "tag", LString (c_str name))] : table).
  set (h2 := <[p := T1]> h1).
  set (pa := fresh (dom h2)). set (h3 := <[pa := []]> h2).
  set (h4 := <[pa := map attribute_entry attributes]> h3).
  set (T2 := T1 ++ [(LString "attr", LTable pa)]).
  set (h5 := <[p := T2]> h4).
  set (T3 := match txt with
             | Some s => if (String.length (c_str s) =? 0)%nat then T2
                         else T2 ++ [(LString "text", LString (c_str s))]
             | None => T2
             end).
  set (h6 := <[p := T3]> h5).
  set (pc := fresh (dom h6)). set (h7 := <[pc := []]> h6).
  assert (Hp : p ∉ dom h) by apply is_fresh.
  assert (Hpa : pa ∉ dom h2) by apply is_fresh.
  assert (Hpc : pc ∉ dom h6) by apply is_fresh.
  assert (D1 : dom h1 = {[p]} ∪ dom h) by apply dom_insert_L.
  assert (D2 : dom h2 = {[p]} ∪ dom h1) by apply dom_insert_L.
  assert (D3 : dom h3 = {[pa]} ∪ dom h2) by apply dom_insert_L.
  assert (D4 : dom h4 = {[pa]} ∪ dom h3) by apply dom_insert_L.
  assert (D5 : dom h5 = {[p]} ∪ dom h4) by apply dom_insert_L.
  assert (D6 : dom h6 = {[p]} ∪ dom h5) by apply dom_insert_L.
  assert (D7 : dom h7 = {[pc]} ∪ dom h6) by apply dom_insert_L.
  assert (Hne1 : pa <> p) by set_solver.
  assert (Hne2 : pc <> p) by set_solver.
  assert (Hne3 : pc <> pa) by set_solver.
  destruct (children_loop children Hdec h7 pc 0 [])
    as (h8 & tc & Hrun & Htc & Hwf & Hkeys & _ & Hdom & Hold & Hitems).
  { by apply lookup_insert_eq. }
  { done. }
  { done. }
  { constructor. }
  set (T4 := T3 ++ [(LString "children", LTable pc)]).
  set (h9 := <[p := T4]> h8).
  assert (D9 : dom h9 = {[p]} ∪ dom h8) by apply dom_insert_L.
  assert (E2 : settable p (LString "tag") (LString (c_str name)) h1 = Ok (tt, h2)).
  { unfold settable, h1. rewrite heap_table_insert. unfold h2, h1.
    rewrite !insert_insert_eq. reflexivity. }
  assert (E4 : Xml.push_attrs pa attributes h3 = Ok (tt, h4)).
  { unfold h4. rewrite (push_attrs_spec attributes Hattrs h3 pa []); [| |constructor].
    - reflexivity.
    - by apply lookup_insert_eq. }
  assert (E5 : settable p (LString "attr") (LTable pa) h4 = Ok (tt, h5)).
  { unfold settable. replace (heap_table h4 p) with T1; [done|].
    unfold h4, h3, h2. by rewrite !heap_table_insert_ne, heap_table_insert by done. }
  assert (E6 : match txt with
               | Some s => if (String.length (c_str s) =? 0)%nat then dret tt
                           else settable p (LString "text") (LString (c_str s))
               | None => dret tt
               end h5 = Ok (tt, h6)).
  { assert (Hsame : <[p := T2]> h5 = h5) by (unfold h5; by rewrite insert_insert_eq).
    unfold h6, T3. destruct txt as [s|]; [|by rewrite Hsame].
    destruct (String.length (c_str s) =? 0)%nat; [by rewrite Hsame|].
    unfold settable. unfold h5 at 1. by rewrite heap_table_insert. }
  assert (HT3 : heap_table h8 p = T3).
  { unfold heap_table. rewrite Hold; [|set_solver|done].
    unfold h7. rewrite lookup_insert_ne by done. unfold h6. by rewrite lookup_insert_eq. }
  assert (E9 : settable p (LString "children") (LTable pc) h8 = Ok (tt, h9)).
  { unfold settable. rewrite HT3. unfold h9, T4, T3, T2, T1.
    destruct txt as [s|]; [|done]. by destruct (String.length (c_str s) =? 0)%nat. }
  exists p, h9. split; [|split; [|split]].
  - cbn [Xml.push_xml_element]. unfold dbind at 1. unfold newtable at 1. fold p h1.
    unfold dbind at 1. rewrite E2. unfold dbind at 1. unfold newtable at 1. fold pa h3.
    unfold dbind at 1. rewrite E4. unfold dbind at 1. rewrite E5.
    unfold dbind at 1. rewrite E6. unfold dbind at 1. unfold newtable at 1. fold pc h7.
    unfold dbind at 1. rewrite Hrun. unfold dbind at 1. by rewrite E9.
  - set_solver.
  - intros q Hq. unfold h9. rewrite lookup_insert_ne by set_solver.
    rewrite Hold by set_solver. unfold h7, h6, h5, h4, h3, h2, h1.
    rewrite !lookup_insert_ne by set_solver. done.
  - cbn [element_of records].
    assert (Ht9 : heap_table h9 p = T4) by apply heap_table_insert. rewrite Ht9.
    assert (Hget : forall k, table_get T4 (LString k)
               = if String.eqb "tag" k then LString (c_str name)
                 else if String.eqb "attr" k then LTable pa
                 else match txt with
                      | Some s => if (String.length (c_str s) =? 0)%nat
                                  then (if String.eqb "children" k then LTable pc else LNil)
                                  else if String.eqb "text" k then LString (c_str s)
                                  else if String.eqb "children" k then LTable pc else LNil
                      | None => if String.eqb "children" k then LTable pc else LNil
                      end).
    { intros k. unfold T4, T3, T2, T1. destruct txt as [s|]; [|done].
      by destruct (String.length (c_str s) =? 0)%nat. }
    rewrite !Hget. cbn [String.eqb Ascii.eqb Bool.eqb andb].
    split; [set_solver|]. split; [done|]. split; [done|]. split; [|split].
    + exists pa. split; [done|]. split; [set_solver|].
      replace (heap_table h9 pa) with (map attribute_entry attributes);
        [apply attribute_entries|].
      unfold heap_table, h9. rewrite lookup_insert_ne by done.
      rewrite Hold by (try done; set_solver). unfold h7, h6, h5, h4.
      by rewrite !lookup_insert_ne, lookup_insert_eq by done.
    + destruct txt as [s|]; [|done].
      destruct (String.length (c_str s) =? 0)%nat; [done|]. split; [done|apply c_str_idem].
    + exists pc. split.
      { destruct txt as [s|]; [|done]. by destruct (String.length (c_str s) =? 0)%nat. }
      split; [set_solver|].
      assert (Hpc9 : heap_table h9 pc = tc).
      { apply heap_table_lookup. unfold h9. by rewrite lookup_insert_ne. }
      rewrite Hpc9.
      assert (Hitems' : items_at (records h9 ((dom h9 ∖ dom h) ∖ {[p]})) tc 1
                          (map element_of children)).
      { eapply items_at_impl; [|exact Hitems]. apply Forall_forall. intros c _ q Hq.
        apply (records_mono _ _ (dom h8 ∖ dom h7)); [set_solver|].
        apply (records_frame h8); [|done].
        intros r Hr. unfold heap_table, h9. rewrite lookup_insert_ne; [done|set_solver]. }
      split; [|done].
      apply (children_objlen _ _ _ ltac:(rewrite length_map; exact Hkeys) Hitems').
Qed.

End XmlRoundTrip.

(** X6: serializing what the XML decoder built.  For a document whose
    root is an element as a parser returns it, the decoder builds a record
    in new tables, and the encoder, run on that record, ends without an
    error and writes the text of section 4.6 for the element: the same
    tags, texts and children in their order, and the attributes of each
    element, every one once, in the order the table gives them. *)
Theorem xml_reserializes `{Host} (Parse : string -> string + option Xml.XMLElement)
    (s : string) (root : Xml.XMLElement) (h : gmap positive table) (fuel : nat) :
  String.length s <> 0%nat -> Parse s = inr (Some root) -> well_named root = true ->
  (height (element_of root) <= fuel)%nat ->
  exists p h' e,
    Xml.xmldeserialize Parse s h = Ok (LTable p, h') /\
    (p ∉ dom h) /\
    (forall q, q ∈ dom h -> h' !! q = h !! q) /\
    reordered (element_of root) e /\
    Xml.xmlserialize fuel h' (LTable p) = Ok (emit_spec 0 e).
Proof.
  intros Hs Hparse Hroot Hfuel.
  destruct (xml_decoded root Hroot h) as (p & h' & Hrun & Hdom & Hold & Hrec).
  exists p, h', (element_of root). split; [|split; [|split; [|split]]].
  - unfold Xml.xmldeserialize. apply Nat.eqb_neq in Hs. by rewrite Hs, Hparse.
  - destruct (element_of root). simpl in Hrec. set_solver.
  - done.
  - apply reordered_refl.
  - unfold Xml.xmlserialize.
    rewrite (emit_element_refines h' (element_of root) ∅ p "" 0 fuel); [done| |done].
    apply (records_represents _ _ _ _ _ Hrec). set_solver.
Qed.

(** [<a id="1">x&lt;y<b/></a>] *)
Definition xml_sample : Xml.XMLElement :=
  Xml.Element "a" [("id", "1")] (Some "x<y") [Xml.Element "b" [] None []].

Lemma xml_reserializes_witness :
  String.length "x" <> 0%nat /\
  well_named xml_sample = true /\
  (height (element_of xml_sample) <= 2)%nat /\
  match Xml.xmldeserialize (fun _ => inr (Some xml_sample)) "x" ∅ with
  | Ok (v, h') => @Xml.xmlserialize Sample.host 2 h' v
  | Error msg => Error msg
  | OutOfFuel => OutOfFuel
  end = Ok ("<a id=" ++ Json.dquote ++ "1" ++ Json.dquote ++ ">x&lt;y" ++ Xml.newline
            ++ Xml.tabs 1 ++ "<b/>" ++ Xml.newline ++ "</a>" ++ Xml.newline)%string /\
  exists p h' e,
    Xml.xmldeserialize (fun _ => inr (Some xml_sample)) "x" ∅ = Ok (LTable p, h') /\
    (p ∉ dom (∅ : gmap positive table)) /\
    (forall q, q ∈ dom (∅ : gmap positive table) -> h' !! q = (∅ : gmap positive table) !! q) /\
    reordered (element_of xml_sample) e /\
    @Xml.xmlserialize Sample.host 2 h' (LTable p) = Ok (emit_spec 0 e).
Proof.
  assert (Hh : (height (element_of xml_sample) <= 2)%nat) by (vm_compute; lia).
  split; [done|]. split; [reflexivity|]. split; [done|]. split; [vm_compute; reflexivity|].
  exact (@xml_reserializes Sample.host (fun _ => inr (Some xml_sample)) "x" xml_sample ∅ 2
           ltac:(done) eq_refl eq_refl Hh).
Defined.

(** *** The escaping of XML text *)

(** The reader's side of the five entities, to say that the escaping loses
    nothing: an ampersand that begins an entity is read as the character
    the entity names. *)
Fixpoint unescape (s : string) : string :=
  match s with
  | EmptyString => EmptyString
  | String c r =>
      if Ascii.eqb c "&" then
        match r with
        | String "a" (String "m" (String "p" (String ";" r'))) => String "&" (unescape r')
        | String "l" (String "t" (String ";" r')) => String "<" (unescape r')
        | String "g" (String "t" (String ";" r')) => String ">" (unescape r')
        | String "q" (String "u" (String "o" (String "t" (String ";" r')))) =>
            String (ascii_of_nat 34) (unescape r')
        | String "a" (String "p" (String "o" (String "s" (String ";" r')))) =>
            String "'" (unescape r')
        | _ => String c (unescape r)
        end
      else String c (unescape r)
  end.

Fixpoint occurs (c : ascii) (s : string) : bool :=
  match s with
  | EmptyString => false
  | String c' r => Ascii.eqb c' c || occurs c r
  end.

Lemma occurs_app c a b : occurs c (a ++ b) = occurs c a || occurs c b.
Proof.
  induction a as [|x a IH]; [done|]. rewrite append_cons. simpl. by rewrite IH, orb_assoc.
Qed.

Lemma append_nil_l (s : string) : ("" ++ s)%string = s.
Proof. reflexivity. Qed.

Lemma escape_char_cases c :
  (c = "&"%char /\ Xml.xml_escape_char c = "&amp;") \/
  (c = "<"%char /\ Xml.xml_escape_char c = "&lt;") \/
  (c = ">"%char /\ Xml.xml_escape_char c = "&gt;") \/
  (c = ascii_of_nat 34 /\ Xml.xml_escape_char c = "&quot;") \/
  (c = "'"%char /\ Xml.xml_escape_char c = "&apos;") \/
  (c <> "&"%char /\ c <> "<"%char /\ c <> ">"%char /\ c <> ascii_of_nat 34 /\ c <> "'"%char /\
   Xml.xml_escape_char c = String c EmptyString).
Proof.
  unfold Xml.xml_escape_char.
  destruct (Ascii.eqb_spec c "&"); [by left|]. right.
  destruct (Ascii.eqb_spec c "<"); [by left|]. right.
  destruct (Ascii.eqb_spec c ">"); [by left|]. right.
  destruct (Ascii.eqb_spec c (ascii_of_nat 34)); [by left|]. right.
  destruct (Ascii.eqb_spec c "'"); [by left|]. right. done.
Qed.

(** X7: what [xml_escape_append] appends.  It has none of the characters
    [<], [>], the double and the single quote; read back entity by entity
    it is the C string that was escaped, so two strings escaped to the
    same text are the same up to their first NUL; and a string without
    the five characters is appended as it is. *)
Theorem xml_escape_lossless (out s : string) :
  Xml.xml_escape_append out s = (out ++ Xml.escape_loop s)%string /\
  occurs "<" (Xml.escape_loop s) = false /\
  occurs ">" (Xml.escape_loop s) = false /\
  occurs (ascii_of_nat 34) (Xml.escape_loop s) = false /\
  occurs "'" (Xml.escape_loop s) = false /\
  unescape (Xml.escape_loop s) = c_str s /\
  (forall s', Xml.escape_loop s = Xml.escape_loop s' -> c_str s = c_str s') /\
  (occurs "&" s || occurs "<" s || occurs ">" s || occurs (ascii_of_nat 34) s || occurs "'" s
   = false -> Xml.escape_loop s = c_str s).
Proof.
  assert (Hno : forall c, (c = "<" \/ c = ">" \/ c = ascii_of_nat 34 \/ c = "'")%char ->
                  occurs c (Xml.escape_loop s) = false).
  { intros c Hc. induction s as [|x s IH]; [done|]. simpl.
    destruct (Ascii.eqb x NUL); [done|]. rewrite occurs_app, IH, orb_false_r.
    destruct (escape_char_cases x) as [(-> & ->)|[(-> & ->)|[(-> & ->)|[(-> & ->)|[(-> & ->)|H]]]]];
      try (destruct Hc as [-> | [-> | [-> | ->]]]; reflexivity).
    destruct H as (H1 & H2 & H3 & H4 & H5 & ->). simpl. rewrite orb_false_r.
    apply Ascii.eqb_neq. destruct Hc as [-> | [-> | [-> | ->]]]; done. }
  assert (Hback : forall s, unescape (Xml.escape_loop s) = c_str s).
  { clear. induction s as [|x s IH]; [done|]. simpl.
    destruct (Ascii.eqb x NUL); [done|].
    destruct (escape_char_cases x) as [(-> & ->)|[(-> & ->)|[(-> & ->)|[(-> & ->)|[(-> & ->)|H]]]]];
      try (rewrite !append_cons, append_nil_l; simpl; by rewrite IH).
    destruct H as (H1 & H2 & H3 & H4 & H5 & ->). rewrite append_cons, append_nil_l. simpl.
    apply Ascii.eqb_neq in H1. by rewrite H1, IH. }
  split; [done|]. split; [by apply Hno; left|]. split; [by apply Hno; right; left|].
  split; [by apply Hno; right; right; left|]. split; [by apply Hno; right; right; right|].
  split; [apply Hback|]. split.
  - intros s' Heq. by rewrite <- !Hback, Heq.
  - clear. induction s as [|x s IH]; [done|]. simpl.
    destruct (Ascii.eqb x NUL); [done|]. intros Hs.
    repeat (apply orb_false_elim in Hs as [Hs ?]).
    repeat match goal with H : (_ || _) = false |- _ => apply orb_false_elim in H as [? ?] end.
    unfold Xml.xml_escape_char.
    repeat match goal with H : Ascii.eqb x _ = false |- _ => rewrite H; clear H end.
    rewrite append_cons. f_equal. apply IH.
    repeat (apply orb_false_intro; [|done]). done.
Qed.

(** ** Keys the encoders do not take *)

Definition is_ok {A} (r : result A) : bool :=
  match r with Ok _ => true | _ => false end.

Lemma for_loop_stops {A C} (body : C -> A -> Enc C) (l : list A) (e : A) :
  e ∈ l -> (forall acc s, is_ok (body acc e s) = false) ->
  forall acc s, is_ok (for_loop body acc l s) = false.
Proof.
  induction l as [|a l IH]; intros Hin Hbad acc s; [by apply elem_of_nil in Hin|].
  cbn [for_loop]. unfold bind. apply elem_of_cons in Hin as [<-|Hin].
  - specialize (Hbad acc s). by destruct (body acc e s) as [[acc' s']| |].
  - destruct (body acc a s) as [[acc' s']| |]; [by apply IH|done|done].
Qed.

(** [{[true] = 1}] *)
Definition bad_key_heap : gmap positive table :=
  {[1%positive := [(LBoolean true, LNumber 1)]]}.

Section KeyErrors.
Context `{Host}.

Lemma json_not_array_of (t : table) e :
  e ∈ t -> lua_isstring (fst e) = false -> fst (Json.is_array t) = false.
Proof.
  intros Hin Hkey. unfold Json.is_array.
  destruct (_ && _); [done|]. destruct (Json.has_hole _ _); [done|]. simpl.
  apply not_true_is_false. intros Hall.
  pose proof (proj1 (forallb_forall _ _) Hall e (proj1 (list_elem_of_In _ _) Hin)) as He.
  unfold Json.key_in_range in He. by destruct (fst e).
Qed.

Lemma yaml_not_array_of (t : table) e :
  e ∈ t -> lua_isstring (fst e) = false -> fst (Yaml.is_array t) = false.
Proof.
  intros Hin Hkey. unfold Yaml.is_array.
  destruct t as [|e0 t]; [by apply elem_of_nil in Hin|].
  destruct (Yaml.has_hole _ _); [done|]. cbn [fst].
  apply not_true_is_false. intros Hall.
  pose proof (proj1 (forallb_forall _ _) Hall e (proj1 (list_elem_of_In _ _) Hin)) as He.
  unfold Yaml.key_in_range in He. by destruct (fst e).
Qed.

(** X8: a table with a key that is neither a string nor a number (a
    boolean, a table, a function), and with no number key beside the string
    that number converts to, is not serialized by the JSON, the YAML or the
    TOML encoder, whatever its other entries are: such a key makes the table
    an object, the traversal visits every entry unless it fails before, and
    the body raises an error when it reaches the key. *)
Theorem key_is_refused (fuel : nat) (h : gmap positive table) (p : positive)
    (e : lua_value * lua_value) :
  twin_free (heap_table h p) = true ->
  e ∈ heap_table h p -> lua_isstring (fst e) = false ->
  is_ok (Json.jsonserialize_tree fuel h (LTable p)) = false /\
  is_ok (Yaml.yamlserialize_node fuel h (LTable p)) = false /\
  is_ok (Toml.tomlserialize_node fuel h (LTable p)) = false.
Proof.
  intros Htwin Hin Hkey. split; [|split].
  - unfold Json.jsonserialize_tree. cbn [lua_type].
    destruct fuel as [|fuel]; [done|]. cbn [Json.encode_value].
    unfold Json.encode_table, bind, seen_count, seen_insert.
    destruct (bool_decide _); [done|].
    pose proof (json_not_array_of _ _ Hin Hkey) as Harr.
    destruct (Json.is_array _) as [arr len]. simpl in Harr. subst arr.
    rewrite while_next_twin_free by (try apply json_keeps_slot; done).
    assert (Hbad : forall acc s,
              is_ok (entry_step (Json.object_entry (Json.encode_value fuel h)) acc e s) = false).
    { intros acc s0. unfold entry_step, Json.object_entry, bind. by rewrite Hkey. }
    match goal with
    | |- context [for_loop ?b ?a ?l ?s] =>
        pose proof (for_loop_stops b l e Hin Hbad a s) as Hstop
    end.
    by destruct (for_loop _ _ _ _) as [[obj s]| |].
  - unfold Yaml.yamlserialize_node. cbn [lua_type].
    destruct fuel as [|fuel]; [done|]. cbn [Yaml.encode_lua_value].
    unfold Yaml.encode_lua_table, bind, seen_count, seen_insert.
    destruct (bool_decide _); [done|].
    pose proof (yaml_not_array_of _ _ Hin Hkey) as Harr.
    destruct (Yaml.is_array _) as [arr len]. simpl in Harr. subst arr.
    rewrite while_next_twin_free by (try apply yaml_keeps_slot; done).
    assert (Hbad : forall acc s,
              is_ok (entry_step (Yaml.map_entry (Yaml.encode_lua_value fuel h)) acc e s) = false).
    { intros acc s0. unfold entry_step, Yaml.map_entry, bind. by rewrite Hkey. }
    match goal with
    | |- context [for_loop ?b ?a ?l ?s] =>
        pose proof (for_loop_stops b l e Hin Hbad a s) as Hstop
    end.
    by destruct (for_loop _ _ _ _) as [[obj s]| |].
  - unfold Toml.tomlserialize_node.
    destruct fuel as [|fuel]; [done|]. cbn [Toml.encode].
    unfold Toml.encode_lua_table, bind, seen_count, seen_insert.
    destruct (bool_decide _); [done|].
    rewrite while_next_twin_free by (try apply toml_keeps_slot; done).
    assert (Hbad : forall acc s,
              is_ok (entry_step (Toml.table_entry (Toml.encode fuel h true)
                                   (Toml.encode fuel h false) h) acc e s) = false).
    { intros acc s0. unfold entry_step, Toml.table_entry, bind. by rewrite Hkey. }
    match goal with
    | |- context [for_loop ?b ?a ?l ?s] =>
        pose proof (for_loop_stops b l e Hin Hbad a s) as Hstop
    end.
    by destruct (for_loop _ _ _ _) as [[obj s]| |].
Qed.

End KeyErrors.

Lemma key_is_refused_witness :
  @twin_free Sample.host (heap_table bad_key_heap 1) = true /\
  ((LBoolean true, LNumber 1) ∈ heap_table bad_key_heap 1) /\
  lua_isstring (LBoolean true) = false /\
  @Json.jsonserialize_tree Sample.host 2 bad_key_heap (LTable 1)
    = Error "json object keys must be strings" /\
  @Yaml.yamlserialize_node Sample.host 2 bad_key_heap (LTable 1)
    = Error "yaml mapping keys must be strings" /\
  @Toml.tomlserialize_node Sample.host 2 bad_key_heap (LTable 1)
    = Error "toml keys must be strings" /\
  is_ok (@Json.jsonserialize_tree Sample.host 2 bad_key_heap (LTable 1)) = false /\
  is_ok (@Yaml.yamlserialize_node Sample.host 2 bad_key_heap (LTable 1)) = false /\
  is_ok (@Toml.tomlserialize_node Sample.host 2 bad_key_heap (LTable 1)) = false.
Proof.
  assert (Hin : (LBoolean true, LNumber 1) ∈ heap_table bad_key_heap 1) by (vm_compute; by left).
  split; [reflexivity|]. split; [done|]. split; [done|].
  do 3 (split; [vm_compute; reflexivity|]).
  exact (@key_is_refused Sample.host 2 bad_key_heap 1 (LBoolean true, LNumber 1)
           eq_refl Hin eq_refl).
Defined.

(** ** What the TOML encoder writes *)

(** A node made of strings, floats, booleans, empty arrays and tables. *)
Fixpoint table_shaped (n : Toml.node) : bool :=
  match n with
  | Toml.string_value _ | Toml.float_value _ | Toml.boolean_value _ => true
  | Toml.array l => match l with [] => true | _ => false end
  | Toml.table_node l => forallb (fun e => table_shaped (snd e)) l
  | _ => false
  end.

Lemma insert_shaped k v tbl :
  table_shaped v = true -> forallb (fun e => table_shaped (snd e)) tbl = true ->
  forallb (fun e => table_shaped (snd e)) (Toml.insert k v tbl) = true.
Proof.
  intros Hv. induction tbl as [|[k' v'] r IH]; simpl; [by rewrite Hv|].
  intros [Hv' Hr]%andb_prop. destruct (String.compare k k'); simpl.
  - by rewrite Hv', Hr.
  - by rewrite Hv, Hv', Hr.
  - by rewrite Hv', IH.
Qed.

Section TomlShape.
Context `{Host}.

Lemma toml_array_of_nothing fuel h q s n s' :
  Toml.is_array (heap_table h q) = true ->
  Toml.encode fuel h true q s = Ok (n, s') -> n = Toml.array [].
Proof.
  rewrite toml_is_array_nil. destruct (heap_table h q) eqn:Et; [|done]. intros _.
  destruct fuel as [|fuel]; [done|]. cbn [Toml.encode].
  unfold Toml.encode_lua_array. rewrite Et. cbn. unfold ret. by intros [= <- <-].
Qed.

Lemma toml_encode_shaped fuel h : forall p s n s',
  Toml.encode fuel h false p s = Ok (n, s') -> table_shaped n = true.
Proof.
  induction fuel as [|fuel IH]; intros p s n s'; [done|]. cbn [Toml.encode].
  unfold Toml.encode_lua_table, bind, seen_count, seen_insert.
  destruct (bool_decide _); [done|].
  destruct (while_next _ _ _ _ _) as [[tbl s1]| |] eqn:E; try done.
  unfold seen_erase, ret. intros [= <- <-]. cbn [table_shaped].
  revert E.
  apply (while_next_invariant _
           (fun tbl _ => forallb (fun e => table_shaped (snd e)) tbl = true)); [|done].
  intros acc [k v] s0 acc' k' s0' Hacc. unfold Toml.table_entry. cbn [fst snd].
  destruct (lua_isstring k); [|done]. cbn [negb].
  destruct v as [|b|x|str|q|q]; try done; unfold ret, bind;
    try (intros [= <- _ _]; by apply insert_shaped).
  destruct (Toml.is_array (heap_table h q)) eqn:Earr.
  - destruct (Toml.encode fuel h true q s0) as [[n1 s1']| |] eqn:En; try done.
    intros [= <- _ _]. apply insert_shaped; [|done].
    by rewrite (toml_array_of_nothing _ _ _ _ _ _ Earr En).
  - destruct (Toml.encode fuel h false q s0) as [[n1 s1']| |] eqn:En; try done.
    intros [= <- _ _]. apply insert_shaped; [|done]. by apply (IH _ _ _ _ En).
Qed.

(** X9: what [tomlserialize] hands to the writer.  Its classifier takes
    only a table without keys for an array, so the document it writes has
    no array with an item; and a number is always written as a float, never
    as an integer or a date. *)
Theorem toml_writes_no_list (fuel : nat) (h : gmap positive table) (v : lua_value)
    (n : Toml.node) :
  Toml.tomlserialize_node fuel h v = Ok n -> table_shaped n = true.
Proof.
  unfold Toml.tomlserialize_node. destruct v as [| | | |p|]; try done.
  destruct (Toml.encode fuel h false p ∅) as [[n1 s1]| |] eqn:E; try done.
  intros [= <-]. by apply (toml_encode_shaped _ _ _ _ _ _ E).
Qed.

End TomlShape.

(** [{e = {}, n = 1, s = "a", t = {k = true}}] *)
Definition mixed_heap : gmap positive table :=
  {[1%positive := [(LString "e", LTable 2); (LString "n", LNumber 1);
                   (LString "s", LString "a"); (LString "t", LTable 3)];
    2%positive := [];
    3%positive := [(LString "k", LBoolean true)]]}.

Lemma toml_writes_no_list_witness :
  @Toml.tomlserialize_node Sample.host 3 mixed_heap (LTable 1)
    = Ok (Toml.table_node [("e", Toml.array []); ("n", Toml.float_value 1%Q);
                           ("s", Toml.string_value "a");
                           ("t", Toml.table_node [("k", Toml.boolean_value true)])]) /\
  table_shaped (Toml.table_node [("e", Toml.array []); ("n", Toml.float_value 1%Q);
                                 ("s", Toml.string_value "a");
                                 ("t", Toml.table_node [("k", Toml.boolean_value true)])]) = true.
Proof.
  assert (Hrun : @Toml.tomlserialize_node Sample.host 3 mixed_heap (LTable 1)
                 = Ok (Toml.table_node [("e", Toml.array []); ("n", Toml.float_value 1%Q);
                                        ("s", Toml.string_value "a");
                                        ("t", Toml.table_node [("k", Toml.boolean_value true)])]))
    by (vm_compute; reflexivity).
  split; [done|].
  exact (@toml_writes_no_list Sample.host 3 mixed_heap (LTable 1) _ Hrun).
Defined.

(** ** What the YAML encoder writes *)

Lemma for_each_all {A B} (body : A -> Enc B) (P : B -> Prop) (l : list A) :
  (forall x s y s', body x s = Ok (y, s') -> P y) ->
  forall s ys s', for_each body l s = Ok (ys, s') -> Forall P ys.
Proof.
  intros Hbody. induction l as [|a l IH]; intros s ys s'; cbn [for_each].
  - unfold ret. intros [= <- <-]. constructor.
  - unfold bind. destruct (body a s) as [[y s1]| |] eqn:E; try done.
    destruct (for_each body l s1) as [[ys1 s2]| |] eqn:El; try done.
    unfold ret. intros [= <- <-]. constructor; [by apply (Hbody _ _ _ _ E)|by apply (IH _ _ _ El)].
Qed.

Lemma map_set_scalar_keys k v m :
  scalar_keys v = true ->
  forallb (fun e => IsScalar (fst e) && scalar_keys (snd e)) m = true ->
  forallb (fun e => IsScalar (fst e) && scalar_keys (snd e)) (map_set k v m) = true.
Proof.
  intros Hv. induction m as [|[k' v'] r IH]; simpl; [by rewrite Hv|].
  intros [He Hr]%andb_prop. apply andb_prop in He as [Hk' Hv'].
  destruct k' as [|s'|b|x|l|l]; simpl in *; try done;
    try (by rewrite Hv', IH).
  destruct (String.eqb s' k); simpl; [by rewrite Hv, Hr|by rewrite Hv', IH].
Qed.

Section YamlWrites.
Context `{Host}.

Lemma yaml_encode_scalar_keys fuel h : forall v s n s',
  Yaml.encode_lua_value fuel h v s = Ok (n, s') -> scalar_keys n = true.
Proof.
  induction fuel as [|fuel IH]; intros v s n s'; [done|]. cbn [Yaml.encode_lua_value].
  destruct v as [|b|x|str|p|p]; try done; unfold ret; try (by intros [= <- <-]).
  unfold Yaml.encode_lua_table, bind, seen_count, seen_insert.
  destruct (bool_decide _); [done|].
  destruct (Yaml.is_array _) as [[|] len].
  - destruct (for_each _ _ _) as [[ns s1]| |] eqn:E; try done.
    unfold seen_erase, ret. intros [= <- <-]. cbn [scalar_keys].
    apply forallb_forall. intros n Hn.
    apply (proj1 (Forall_forall _ _) (for_each_all _ (fun n => scalar_keys n = true) _
             (fun x s y s' => IH _ s y s') _ _ _ E)).
    by apply list_elem_of_In.
  - destruct (while_next _ _ _ _ _) as [[m s1]| |] eqn:E; try done.
    unfold seen_erase, ret. intros [= <- <-]. cbn [scalar_keys].
    revert E.
    apply (while_next_invariant _
             (fun m _ => forallb (fun e => IsScalar (fst e) && scalar_keys (snd e)) m = true));
      [|done].
    intros acc [k v] s0 acc' k' s0' Hacc. unfold Yaml.map_entry. cbn [fst snd].
    destruct (lua_isstring k); [|done]. cbn [negb].
    destruct (lua_isnil v); [unfold ret; by intros [= <- _ _]|].
    unfold bind. destruct (Yaml.encode_lua_value fuel h v s0) as [[n1 s1']| |] eqn:En; try done.
    unfold ret. intros [= <- _ _]. apply map_set_scalar_keys; [|done]. by apply (IH _ _ _ _ En).
Qed.

(** X10: the node the YAML encoder hands to the emitter is one the YAML
    decoder takes: every key of every map in it is a scalar, the string
    the key of the table converts to, so decoding that node does not raise
    the error of the key and returns its value. *)
Theorem yaml_writes_scalar_keys (strtod : string -> lua_Number * nat)
    (scalar_text : Node -> string) (fuel : nat) (h : gmap positive table)
    (v : lua_value) (n : Node) :
  Yaml.yamlserialize_node fuel h v = Ok n ->
  scalar_keys n = true /\
  forall h0, exists v' h',
    push_yaml_node strtod scalar_text n h0 = Ok (v', h') /\
    (forall p, p ∈ dom h0 -> h' !! p = h0 !! p) /\
    holds h' (dom h' ∖ dom h0) v' (yaml_value strtod scalar_text n).
Proof.
  unfold Yaml.yamlserialize_node. destruct (lua_type v); try done.
  destruct (Yaml.encode_lua_value fuel h v ∅) as [[n1 s1]| |] eqn:E; try done.
  intros [= <-]. pose proof (yaml_encode_scalar_keys _ _ _ _ _ _ E) as Hkeys.
  split; [done|]. intros h0.
  destruct (proj1 (yaml_outcome strtod scalar_text n1) Hkeys h0) as (v' & h' & Hrun & _ & Hold & Hv).
  by exists v', h'.
Qed.

End YamlWrites.

(** [{["1"] = "a", k = {"x"}}] *)
Definition keyed_heap : gmap positive table :=
  {[1%positive := [(LString "1", LString "a"); (LString "k", LTable 2)];
    2%positive := [(LNumber 1, LString "x")]]}.

Lemma yaml_writes_scalar_keys_witness :
  @Yaml.yamlserialize_node Sample.host 3 keyed_heap (LTable 1)
    = Ok (Map [(Scalar "1", Scalar "a"); (Scalar "k", Sequence [Scalar "x"])]) /\
  push_yaml_node Sample.strtod (fun _ => EmptyString)
      (Map [(Scalar "1", Scalar "a"); (Scalar "k", Sequence [Scalar "x"])]) ∅
    = Ok (LTable 1, {[1%positive := [(LString "1", LString "a"); (LString "k", LTable 2)];
                      2%positive := [(LNumber 1, LString "x")]]}) /\
  scalar_keys (Map [(Scalar "1", Scalar "a"); (Scalar "k", Sequence [Scalar "x"])]) = true /\
  forall h0, exists v' h',
    push_yaml_node Sample.strtod (fun _ => EmptyString)
      (Map [(Scalar "1", Scalar "a"); (Scalar "k", Sequence [Scalar "x"])]) h0 = Ok (v', h') /\
    (forall p, p ∈ dom h0 -> h' !! p = h0 !! p) /\
    holds h' (dom h' ∖ dom h0) v'
      (yaml_value Sample.strtod (fun _ => EmptyString)
         (Map [(Scalar "1", Scalar "a"); (Scalar "k", Sequence [Scalar "x"])])).
Proof.
  assert (Hrun : @Yaml.yamlserialize_node Sample.host 3 keyed_heap (LTable 1)
                 = Ok (Map [(Scalar "1", Scalar "a"); (Scalar "k", Sequence [Scalar "x"])]))
    by (vm_compute; reflexivity).
  split; [done|]. split; [vm_compute; reflexivity|].
  exact (@yaml_writes_scalar_keys Sample.host Sample.strtod (fun _ => EmptyString) 3
           keyed_heap (LTable 1) _ Hrun).
Defined.
(** ** What a sequence keeps *)

Lemma table_get_rawequal t a b : lua_rawequal a b = true -> table_get t a = table_get t b.
Proof.
  intros Hab. induction t as [|[k v] r IH]; simpl; [done|].
  rewrite <- IH. rewrite (rawequal_sym k a), (rawequal_sym k b).
  by rewrite (rawequal_same _ _ _ Hab).
Qed.

Section SequenceKeeps.
Context `{Host}.

(** X11: a table the YAML classifier takes for a sequence loses nothing
    when it is written as one.  Its length is the length the host gives,
    every index from 1 to the length has a value, and every entry of the
    table is the value at one of these indices: the sequence loop, which
    reads the indices 1 to the length, reads every entry. *)
Theorem yaml_sequence_keeps_entries (t : table) (len : Z) :
  Yaml.is_array t = (true, len) -> well_formed t ->
  len = lua_objlen t /\
  (forall i, (1 <= i <= len)%Z -> lua_isnil (lua_rawgeti t i) = false) /\
  (forall e, e ∈ t ->
     exists i, (1 <= i <= len)%Z /\ lua_rawequal (fst e) (LNumber (inject_Z i)) = true /\
               lua_rawgeti t i = snd e).
Proof.
  unfold Yaml.is_array. destruct t as [|e0 t0] eqn:Et.
  { intros [= <-] _. change (lua_objlen []) with 0%Z. repeat split; [intros i Hi; lia|].
    intros e He. by apply elem_of_nil in He. }
  rewrite <- Et. clear Et.
  destruct (Yaml.has_hole t (lua_objlen t)) eqn:Eh; [done|].
  intros [= Hall <-] Hwf. repeat split.
  - intros i Hi. unfold Yaml.has_hole in Eh.
    destruct (lua_isnil (lua_rawgeti t i)) eqn:En; [|done].
    assert (Hex : existsb (fun i => lua_isnil (lua_rawgeti t i)) (seqZ 1 (lua_objlen t)) = true).
    { apply existsb_exists. exists i. split; [|done].
      apply list_elem_of_In, elem_of_seqZ. lia. }
    congruence.
  - intros e He.
    pose proof (proj1 (forallb_forall _ _) Hall e (proj1 (list_elem_of_In _ _) He)) as Hk.
    unfold Yaml.key_in_range in Hk. destruct (fst e) as [| |kn| | |] eqn:Ek; try done.
    cbn [lua_type lua_tonumber] in Hk.
    destruct (Qeq_bool (inject_Z (num2int kn)) kn) eqn:Eq; [|done]. cbn [negb] in Hk.
    apply negb_true_iff, orb_false_elim in Hk as [Hlo Hhi].
    apply Z.ltb_ge in Hlo. rewrite Z.gtb_ltb in Hhi. apply Z.ltb_ge in Hhi.
    assert (Hraw : lua_rawequal (LNumber kn) (LNumber (inject_Z (num2int kn))) = true).
    { rewrite rawequal_sym. exact Eq. }
    exists (num2int kn). split; [lia|]. split; [done|].
    unfold lua_rawgeti. rewrite <- (table_get_rawequal t _ _ Hraw), <- Ek.
    by apply well_formed_get.
Qed.

(** X12: on a table that has a key, and whose number keys are all
    integers, the JSON and the YAML classifier return the same answer and
    the same length: the two differ on the table without keys and on
    tables with a fractional key, and nowhere else. *)
Theorem classifiers_agree (t : table) :
  t <> [] -> integral_keys t = true -> Json.is_array t = Yaml.is_array t.
Proof.
  intros Ht Hint. unfold Json.is_array, Yaml.is_array.
  destruct t as [|e0 t0]; [done|]. clear Ht. cbv beta iota zeta. rewrite andb_false_r.
  change (Yaml.has_hole (e0 :: t0) (lua_objlen (e0 :: t0)))
    with (Json.has_hole (e0 :: t0) (lua_objlen (e0 :: t0))).
  destruct (Json.has_hole (e0 :: t0) (lua_objlen (e0 :: t0))); [done|]. f_equal.
  unfold integral_keys in Hint. rewrite forallb_forall in Hint.
  apply forallb_agree. intros [k v] Hin. specialize (Hint _ Hin). simpl in Hint.
  unfold Json.key_in_range, Yaml.key_in_range. destruct k; simpl; try done.
  unfold lua_tointeger. simpl. by rewrite Hint.
Qed.

End SequenceKeeps.

Lemma yaml_sequence_keeps_entries_witness :
  @Yaml.is_array Sample.host abc_table = (true, 3%Z) /\
  well_formed abc_table /\
  3%Z = lua_objlen abc_table /\
  (forall i, (1 <= i <= 3)%Z -> lua_isnil (lua_rawgeti abc_table i) = false) /\
  (forall e, e ∈ abc_table ->
     exists i, (1 <= i <= 3)%Z /\ lua_rawequal (fst e) (LNumber (inject_Z i)) = true /\
               lua_rawgeti abc_table i = snd e).
Proof.
  assert (Harr : @Yaml.is_array Sample.host abc_table = (true, 3%Z)) by (vm_compute; reflexivity).
  assert (Hwf : well_formed abc_table) by (vm_compute; repeat split; repeat constructor).
  split; [done|]. split; [done|].
  exact (@yaml_sequence_keeps_entries Sample.host abc_table 3 Harr Hwf).
Defined.

Lemma classifiers_agree_witness :
  hole_table <> [] /\ integral_keys hole_table = true /\
  @Json.is_array Sample.host hole_table = @Yaml.is_array Sample.host hole_table.
Proof.
  assert (Hne : hole_table <> []) by done.
  split; [done|]. split; [reflexivity|].
  exact (@classifiers_agree Sample.host hole_table Hne eq_refl).
Defined.

(** ** The TOML round trip *)

(** The trees the TOML encoder writes back as they are: no nil, no string
    with a NUL byte, no list with an item. *)
Fixpoint keyed (x : Value) : bool :=
  match x with
  | VNil => false
  | VBool _ | VNumber _ => true
  | VString s => String.eqb (c_str s) s
  | VSequence l => match l with [] => true | _ => false end
  | VMapping l => forallb (fun kx => String.eqb (c_str (fst kx)) (fst kx) && keyed (snd kx)) l
  end.

Fixpoint sorted_keys {A} (o : list (string * A)) : Prop :=
  match o with
  | [] => True
  | e :: r => Forall (fun e' => String.compare (fst e) (fst e') = Lt) r /\ sorted_keys r
  end.

Lemma sorted_keys_NoDup {A} (o : list (string * A)) : sorted_keys o -> NoDup (map fst o).
Proof.
  induction o as [|e r IH]; simpl; [constructor|].
  intros [He Hr]. apply NoDup_cons. split; [|by apply IH].
  intros Hin. apply list_elem_of_fmap in Hin as (e' & Heq & Hin).
  pose proof (proj1 (Forall_forall _ _) He _ Hin) as Hlt. simpl in Hlt.
  rewrite Heq, compare_refl in Hlt. done.
Qed.

Lemma toml_insert_Forall (P : string * Toml.node -> Prop) k v tbl :
  P (k, v) -> Forall P tbl -> Forall P (Toml.insert k v tbl).
Proof.
  intros Hkv. induction 1 as [|[k' v'] r He Hr IH]; simpl.
  - by constructor.
  - destruct (String.compare k k'); repeat constructor; done.
Qed.

Lemma toml_insert_keys k v tbl k' :
  k' = k \/ k' ∈ map fst tbl -> k' ∈ map fst (Toml.insert k v tbl).
Proof.
  induction tbl as [|[k0 v0] r IH]; simpl.
  - intros [->|Hin]; [by left|by apply elem_of_nil in Hin].
  - destruct (String.compare k k0) eqn:E; simpl.
    + apply String.compare_eq_iff in E as ->.
      intros [->|[->|Hin]%elem_of_cons]; [by left|by left|by right].
    + intros [->|Hin]; [by left|by right].
    + intros [->|[->|Hin]%elem_of_cons]; [right; apply IH; by left|by left|right; apply IH; by right].
Qed.

Lemma toml_insert_sorted k v tbl : sorted_keys tbl -> sorted_keys (Toml.insert k v tbl).
Proof.
  induction tbl as [|[k0 v0] r IH]; simpl; [by split|].
  intros [Hk0 Hr]. destruct (String.compare k k0) eqn:E; simpl.
  - by split.
  - split; [|by split]. constructor; [done|].
    eapply Forall_impl; [exact Hk0|]. intros e He. simpl in *. by apply (compare_lt_trans _ k0).
  - split; [|by apply IH]. apply toml_insert_Forall; [|done].
    simpl. rewrite String.compare_antisym, E. done.
Qed.

Lemma holds_empty_table h D v l :
  holds h D v (VSequence []) -> l = [] -> holds h D v (VMapping l).
Proof.
  intros (p & -> & Hp & Hkeys & _) ->. exists p. repeat split; try done; [constructor|].
  destruct (heap_table h p) as [|e t]; [constructor|].
  apply Forall_cons in Hkeys as [(i & Hi & _) _]. simpl in Hi. lia.
Qed.

Lemma builds_mapping_perm m ol l :
  ol ≡ₚ l -> builds m (VMapping ol) -> builds m (VMapping l).
Proof.
  intros Hperm Hm h. destruct (Hm h) as (v & h' & Hrun & Hdom & Hold & Hv).
  exists v, h'. repeat split; try done. by apply (holds_mapping_perm _ _ _ ol).
Qed.

(** A table node whose keys are those of [l], each value decoding to the
    field of [l] under its key. *)
Lemma builds_table tbl l :
  NoDup (map fst tbl) -> NoDup (map fst l) ->
  Forall (fun e => exists x, (fst e, x) ∈ l /\ builds (Toml.push_toml_value (snd e)) x) tbl ->
  (forall kx, kx ∈ l -> fst kx ∈ map fst tbl) ->
  builds (Toml.push_toml_value (Toml.table_node tbl)) (VMapping l).
Proof.
  intros Hnd Hndl Hall Hcover.
  assert (Hol : exists ol,
             Forall2 (fun e kx => fst e = fst kx /\ builds (Toml.push_toml_value (snd e)) (snd kx))
               tbl ol /\ Forall (fun kx => kx ∈ l) ol).
  { clear -Hall. induction Hall as [|e o (x & Hx & Hd) _ (ol & Hol & Hin)].
    - exists []. split; constructor.
    - exists ((fst e, x) :: ol). split; constructor; done. }
  destruct Hol as (ol & Hol & Hin).
  assert (Hkeys : map fst tbl = map fst ol).
  { clear -Hol. induction Hol as [|e kx o ol (Hk & _) _ IH]; simpl; [done|]. by rewrite Hk, IH. }
  assert (Hndol : NoDup (map fst ol)) by (by rewrite <- Hkeys).
  apply (builds_mapping_perm _ ol).
  - apply NoDup_Permutation.
    + by apply (NoDup_fmap_1 fst).
    + by apply (NoDup_fmap_1 fst).
    + intros [k x]. split.
      * intros Hkx. by apply (proj1 (Forall_forall _ _) Hin).
      * intros Hkx. pose proof (Hcover _ Hkx) as Hk. simpl in Hk. rewrite Hkeys in Hk.
        apply list_elem_of_fmap in Hk as ([k' x'] & Hk' & Hin'). simpl in Hk'. subst k'.
        pose proof (proj1 (Forall_forall _ _) Hin _ Hin') as Hl.
        assert (x' = x) as ->; [|done]. by apply (NoDup_fst_functional l k).
  - apply (builds_ext _ _ _ (toml_table_loop tbl)).
    rewrite <- (last_wins_NoDup_id ol Hndol). by apply new_mapping_builds.
Qed.

Lemma holds_no_entries h D v l :
  holds h D v (VMapping []) -> holds h D v (VSequence []) /\ (l = [] -> holds h D v (VMapping l)).
Proof.
  intros (p & -> & Hp & _ & Hkeys & _).
  assert (Ht : heap_table h p = []).
  { destruct (heap_table h p) as [|e t]; [done|].
    apply Forall_cons in Hkeys as [(k & _ & Hin & _) _]. by apply elem_of_nil in Hin. }
  split.
  - exists p. rewrite Ht. repeat split; try done; try constructor.
  - intros ->. exists p. rewrite Ht. repeat split; try done; try constructor.
Qed.

Lemma builds_empty_array x :
  x = VSequence [] \/ x = VMapping [] -> builds (Toml.push_toml_value (Toml.array [])) x.
Proof.
  intros Hx h. destruct (toml_builds (Toml.array []) eq_refl h) as (v & h' & Hrun & Hdom & Hold & Hv).
  exists v, h'. repeat split; try done. destruct Hx as [->| ->]; [done|].
  by apply holds_empty_table.
Qed.

Lemma holds_keyed_not_nil h D v x : keyed x = true -> holds h D v x -> lua_isnil v = false.
Proof.
  destruct x; simpl; try done; try (by intros _ ->); by intros _ (p & -> & _).
Qed.

Section TomlRoundTrip.
Context `{Host}.

Lemma toml_entries (enc_arr enc_tbl : positive -> Enc Toml.node) (h : gmap positive table)
    (s : gset positive) (l : list (string * Value)) (t : table) :
  Forall (fun e => exists k x n,
            fst e = LString k /\ (k, x) ∈ l /\ builds (Toml.push_toml_value n) x /\
            forall acc, Toml.table_entry enc_arr enc_tbl h acc e s
                        = Ok ((Toml.insert k n acc, fst e), s)) t ->
  forall acc, sorted_keys acc ->
    Forall (fun e => exists x, (fst e, x) ∈ l /\ builds (Toml.push_toml_value (snd e)) x) acc ->
    exists tbl, for_loop (entry_step (Toml.table_entry enc_arr enc_tbl h)) acc t s
                = Ok (tbl, s) /\
      sorted_keys tbl /\
      Forall (fun e => exists x, (fst e, x) ∈ l /\ builds (Toml.push_toml_value (snd e)) x) tbl /\
      (forall k, k ∈ map fst acc \/ LString k ∈ map fst t -> k ∈ map fst tbl).
Proof.
  induction 1 as [|e t (k & x & n & Hk & Hin & Hn & Hrun) _ IH]; intros acc Hs Hacc.
  - exists acc. repeat split; try done. intros k [Hk|Hk]; [done|by apply elem_of_nil in Hk].
  - destruct (IH (Toml.insert k n acc)) as (tbl & Hloop & Hs' & Htbl & Hcover).
    { by apply toml_insert_sorted. }
    { apply toml_insert_Forall; [|done]. by exists x. }
    exists tbl. repeat split; try done.
    + cbn [for_loop]. unfold entry_step, bind. rewrite Hrun. cbn [fst snd].
      by rewrite rawequal_refl.
    + intros k' [Hk'|Hk']; apply Hcover.
      * left. apply toml_insert_keys. by right.
      * simpl in Hk'. apply elem_of_cons in Hk' as [Hk'|Hk'].
        -- rewrite Hk in Hk'. injection Hk' as ->. left. apply toml_insert_keys. by left.
        -- by right.
Qed.

Lemma toml_encode_holds x :
  keyed x = true -> is_table x = true ->
  forall fuel h D q seen,
    holds h D (LTable q) x -> D ## seen -> (depth x < fuel)%nat ->
    exists n, Toml.encode fuel h false q seen = Ok (n, seen) /\
              builds (Toml.push_toml_value n) x.
Proof.
  induction x as [|b|n|s|l IH|l IH] using Value_induction;
    intros Hkeyed Htable fuel h D q seen Hh Hdis Hfuel; try done;
    (destruct fuel as [|fuel]; [simpl in Hfuel; lia|]); simpl in Hh.
  - destruct l; [|done]. destruct Hh as (p & [= <-] & Hp & Hkeys & _).
    assert (Ht : heap_table h q = []).
    { destruct (heap_table h q) as [|e t]; [done|].
      apply Forall_cons in Hkeys as [(i & Hi & _) _]. simpl in Hi. lia. }
    exists (Toml.table_node []). split.
    + cbn [Toml.encode]. unfold Toml.encode_lua_table, bind, seen_count, seen_insert.
      rewrite bool_decide_eq_false_2 by set_solver. rewrite Ht.
      destruct fuel; cbn; unfold seen_erase, ret; (rewrite restore_path; [done|set_solver]).
    + intros h0. destruct (toml_builds (Toml.table_node []) eq_refl h0) as (v & h' & Hrun & Hd & Ho & Hv).
      exists v, h'. repeat split; try done. by apply (holds_no_entries _ _ _ []).
  - destruct Hh as (p & [= <-] & Hp & Hnd & Hkeys & Hfields).
    simpl in Hkeyed, Hfuel. apply PeanoNat.lt_S_n in Hfuel.
    assert (Hseen : q ∉ seen) by set_solver.
    assert (Hpl : forall kx, kx ∈ l -> c_str (fst kx) = fst kx /\ keyed (snd kx) = true).
    { intros kx Hkx. apply list_elem_of_In in Hkx.
      pose proof (proj1 (forallb_forall _ _) Hkeyed _ Hkx) as Hb.
      apply andb_prop in Hb as [Hk Hx]. by apply String.eqb_eq in Hk. }
    apply map_fields_forall in Hfields.
    destruct (toml_entries (Toml.encode fuel h true) (Toml.encode fuel h false) h
                (seen ∪ {[q]}) l (heap_table h q))
      with (acc := @nil (string * Toml.node)) as (tbl & Hrun & Hs & Htbl & Hcover).
    { eapply Forall_impl; [exact Hkeys|]. intros [k0 v] (k & Hk & Hin & Hget).
      simpl in Hk. subst k0. simpl in Hget.
      apply list_elem_of_fmap in Hin as ([k' x] & Hk' & Hin). simpl in Hk'. subst k'.
      destruct (Hpl _ Hin) as [Hc Hx]. simpl in Hc, Hx.
      pose proof (proj1 (Forall_forall _ _) Hfields _ Hin) as Hv. simpl in Hv.
      rewrite Hget in Hv. clear Hget.
      pose proof (proj1 (Forall_forall _ _) IH _ Hin) as IHx. simpl in IHx.
      assert (Hkey : lua_tostring (LString k) = k) by (unfold lua_tostring; simpl; done).
      exists k, x. unfold Toml.table_entry. cbn [fst snd lua_isstring negb]. rewrite Hkey.
      destruct x as [|b|n|s|l'|l']; simpl in Hv; try done.
      - subst v. exists (Toml.boolean_value b). repeat split; try done.
        + intros h0. exists (LBoolean b), h0. by repeat split.
        + intros acc. unfold ret, Toml.encode_boolean. by destruct b.
      - subst v. exists (Toml.float_value n). repeat split; try done.
        intros h0. exists (LNumber n), h0. by repeat split.
      - subst v. simpl in Hx. apply String.eqb_eq in Hx.
        exists (Toml.string_value s). repeat split; try done.
        + intros h0. exists (LString s), h0. simpl. rewrite Hx. by repeat split.
        + intros acc. unfold ret, Toml.encode_string, lua_tostring. simpl. by rewrite Hx.
      - destruct l'; [|done]. pose proof Hv as (q' & -> & Hq' & Hk' & _).
        assert (Ht : heap_table h q' = []).
        { destruct (heap_table h q') as [|e t]; [done|].
          apply Forall_cons in Hk' as [(i & Hi & _) _]. simpl in Hi. lia. }
        exists (Toml.array []). split; [done|]. split; [done|]. split.
        + apply builds_empty_array. by left.
        + intros acc. rewrite toml_is_array_nil, Ht. unfold bind.
          destruct fuel as [|fuel']; [simpl in Hfuel; lia|]. cbn [Toml.encode].
          unfold Toml.encode_lua_array. rewrite Ht. reflexivity.
      - pose proof Hv as (q' & -> & Hq' & _).
        rewrite toml_is_array_nil.
        destruct (heap_table h q') as [|e0 t0] eqn:Et.
        + assert (Hl' : l' = []).
          { destruct l' as [|[k1 x1] r]; [done|]. exfalso.
            destruct Hv as (q'' & [= <-] & _ & _ & _ & Hf). simpl in Hf. destruct Hf as [Hf _].
            rewrite Et in Hf. simpl in Hf. simpl in Hx. apply andb_prop in Hx as [Hx _].
            apply andb_prop in Hx as [_ Hx].
            by pose proof (holds_keyed_not_nil _ _ _ _ Hx Hf). }
          subst l'. exists (Toml.array []). split; [done|]. split; [done|]. split.
          * apply builds_empty_array. by right.
          * intros acc. unfold bind.
            destruct fuel as [|fuel']; [simpl in Hfuel; lia|]. cbn [Toml.encode].
            unfold Toml.encode_lua_array. rewrite Et. reflexivity.
        + destruct (IHx Hx eq_refl fuel h (D ∖ {[q]}) q' (seen ∪ {[q]})) as (n & Hn & Hb);
            [done|set_solver|pose proof (depth_field _ l Hin); simpl in *; lia|].
          exists n. split; [done|]. split; [done|]. split; [done|].
          intros acc. unfold bind. by rewrite Hn. }
    { done. }
    { constructor. }
    exists (Toml.table_node tbl). split.
    + cbn [Toml.encode]. unfold Toml.encode_lua_table, bind, seen_count, seen_insert.
      rewrite bool_decide_eq_false_2 by done.
      rewrite while_next_twin_free; [|apply toml_keeps_slot|].
      * rewrite Hrun. unfold seen_erase, ret. by rewrite restore_path.
      * apply string_keys_twin_free. eapply Forall_impl; [exact Hkeys|].
        intros e (k & Hk & _). by exists k.
    + apply builds_table; [by apply sorted_keys_NoDup|done|done|].
      intros [k x] Hin. simpl. apply Hcover. right. apply string_key_entry.
      pose proof (proj1 (Forall_forall _ _) Hfields _ Hin) as Hv. simpl in Hv.
      destruct (Hpl _ Hin) as [_ Hx]. by apply (holds_keyed_not_nil _ _ _ _ Hx Hv).
Qed.

(** X13: the TOML round trip.  A table that holds a tree of booleans,
    numbers, strings without a NUL byte and tables with string keys (a
    table without keys included, a list with an item not) is serialized,
    and the document that was written, parsed back, is deserialized into
    a value that holds the same tree. *)
Theorem toml_round_trip (x : Value) (h : gmap positive table) (p : positive) (fuel : nat) :
  keyed x = true -> is_table x = true -> holds h (dom h) (LTable p) x ->
  (depth x < fuel)%nat ->
  exists tbl,
    Toml.tomlserialize_node fuel h (LTable p) = Ok (Toml.table_node tbl) /\
    forall (parse : string -> string + list (string * Toml.node)) (src : string)
           (h0 : gmap positive table),
      parse src = inr tbl ->
      exists v h1,
        Toml.tomldeserialize parse src h0 = Ok (v, h1) /\
        (forall q, q ∈ dom h0 -> h1 !! q = h0 !! q) /\
        holds h1 (dom h1 ∖ dom h0) v x.
Proof.
  intros Hkeyed Htable Hh Hfuel.
  destruct (toml_encode_holds x Hkeyed Htable fuel h (dom h) p ∅ Hh) as (n & Hn & Hb);
    [set_solver|done|].
  assert (Hshape : exists tbl, n = Toml.table_node tbl).
  { destruct fuel as [|fuel']; [done|]. cbn [Toml.encode] in Hn.
    unfold Toml.encode_lua_table, bind, seen_count, seen_insert in Hn.
    destruct (bool_decide _); [done|].
    destruct (while_next _ _ _ _ _) as [[tbl s1]| |]; try done.
    unfold seen_erase, ret in Hn. injection Hn as <- _. by exists tbl. }
  destruct Hshape as (tbl & ->). exists tbl. split.
  - unfold Toml.tomlserialize_node. by rewrite Hn.
  - intros parse src h0 Hparse. unfold Toml.tomldeserialize, Toml.push_toml_table.
    rewrite Hparse. destruct (Hb h0) as (v & h1 & Hrun & _ & Hold & Hv). by exists v, h1.
Qed.

End TomlRoundTrip.

(** [{name = "x", on = true, size = {w = 2, tags = {}}}] *)
Definition settings_heap : gmap positive table :=
  {[1%positive := [(LString "name", LString "x"); (LString "on", LBoolean true);
                   (LString "size", LTable 2)];
    2%positive := [(LString "w", LNumber 2); (LString "tags", LTable 3)];
    3%positive := []]}.
Definition settings_tree : Value :=
  VMapping [("name", VString "x"); ("on", VBool true);
            ("size", VMapping [("w", VNumber 2%Q); ("tags", VSequence [])])].

Lemma toml_round_trip_witness :
  keyed settings_tree = true /\ is_table settings_tree = true /\
  holds settings_heap (dom settings_heap) (LTable 1) settings_tree /\
  (depth settings_tree < 4)%nat /\
  @Toml.tomlserialize_node Sample.host 4 settings_heap (LTable 1)
    = Ok (Toml.table_node
            [("name", Toml.string_value "x"); ("on", Toml.boolean_value true);
             ("size", Toml.table_node [("tags", Toml.array []); ("w", Toml.float_value 2%Q)])]) /\
  exists tbl,
    @Toml.tomlserialize_node Sample.host 4 settings_heap (LTable 1) = Ok (Toml.table_node tbl) /\
    forall (parse : string -> string + list (string * Toml.node)) (src : string)
           (h0 : gmap positive table),
      parse src = inr tbl ->
      exists v h1,
        Toml.tomldeserialize parse src h0 = Ok (v, h1) /\
        (forall q, q ∈ dom h0 -> h1 !! q = h0 !! q) /\
        holds h1 (dom h1 ∖ dom h0) v settings_tree.
Proof.
  assert (Hkeyed : keyed settings_tree = true) by reflexivity.
  assert (Htable : is_table settings_tree = true) by reflexivity.
  assert (Hdepth : (depth settings_tree < 4)%nat) by (vm_compute; lia).
  assert (Hholds : holds settings_heap (dom settings_heap) (LTable 1) settings_tree).
  { simpl. exists 1%positive. split; [done|]. split; [by apply elem_of_dom|].
    split; [repeat constructor; set_solver|].
    split.
    { repeat constructor; simpl; [exists "name"%string|exists "on"%string|exists "size"%string];
        repeat split; set_solver. }
    split; [done|]. split; [done|]. split; [|done].
    exists 2%positive. split; [done|]. split.
    { apply elem_of_difference. split; [by apply elem_of_dom|set_solver]. }
    split; [repeat constructor; set_solver|].
    split.
    { repeat constructor; simpl; [exists "w"%string|exists "tags"%string];
        repeat split; set_solver. }
    split; [done|]. split; [|done].
    exists 3%positive. split; [done|]. split; [|split; [constructor|done]].
    apply elem_of_difference. split; [|set_solver].
    apply elem_of_difference. split; [by apply elem_of_dom|set_solver]. }
  split; [done|]. split; [done|]. split; [done|]. split; [done|].
  split; [vm_compute; reflexivity|].
  exact (@toml_round_trip Sample.host settings_tree settings_heap 1 4
           Hkeyed Htable Hholds Hdepth).
Defined.

(** ** The typing of a YAML scalar *)

Definition spells_true (s : string) : bool :=
  String.eqb s "true" || String.eqb s "True" || String.eqb s "TRUE".
Definition spells_false (s : string) : bool :=
  String.eqb s "false" || String.eqb s "False" || String.eqb s "FALSE".

(** X14: how [push_yaml_node] types a scalar.  It is a boolean exactly
    for the six spellings, whatever [strtod] makes of them; a text that is
    typed as a string is pushed as it is, with its length; and a text
    without a NUL byte that is none of the six spellings is a number
    exactly when [strtod] consumes all of it and it is not empty. *)
Theorem yaml_scalar_rule (strtod : string -> lua_Number * nat) (s : string) :
  (forall b, push_scalar strtod s = LBoolean b <->
             (if b then spells_true s else negb (spells_true s) && spells_false s) = true) /\
  (forall s', push_scalar strtod s = LString s' -> s' = s) /\
  (forall p, push_scalar strtod s <> LTable p) /\
  push_scalar strtod s <> LNil /\
  (c_str s = s -> spells_true s = false -> spells_false s = false ->
   push_scalar strtod s =
     if (snd (strtod s) =? String.length s)%nat && negb (snd (strtod s) =? 0)%nat
     then LNumber (fst (strtod s)) else LString s).
Proof.
  unfold push_scalar. fold (spells_true s) (spells_false s).
  split; [|split; [|split; [|split]]].
  - intros b. split.
    + destruct (spells_true s), (spells_false s); try (by intros [= <-]);
        destruct (parse_number strtod s); done.
    + destruct (spells_true s), (spells_false s), b; try done;
        destruct (parse_number strtod s); done.
  - intros s'. destruct (spells_true s); [done|]. destruct (spells_false s); [done|].
    destruct (parse_number strtod s); [done|]. by intros [= <-].
  - intros p. destruct (spells_true s); [done|]. destruct (spells_false s); [done|].
    by destruct (parse_number strtod s).
  - destruct (spells_true s); [done|]. destruct (spells_false s); [done|].
    by destruct (parse_number strtod s).
  - intros Hs Ht Hf. pose proof (scalar_typing strtod s Hs) as Hrule.
    unfold push_scalar in Hrule. fold (spells_true s) (spells_false s) in Hrule.
    by rewrite Ht, Hf in *.
Qed.

(** ** What the XML encoder takes *)

Lemma forallb_false {A} (f : A -> bool) (l : list A) :
  forallb f l = false -> exists x, x ∈ l /\ f x = false.
Proof.
  induction l as [|a l IH]; simpl; [done|].
  destruct (f a) eqn:Ea; simpl.
  - intros Hl. destruct (IH Hl) as (x & Hx & Hf). exists x. split; [by right|done].
  - intros _. exists a. split; [by left|done].
Qed.

Lemma for_loop_served {A C} (body : C -> A -> Enc C) (f : A -> bool) (l : list A) acc s r :
  (forall x, f x = false -> forall acc s, is_ok (body acc x s) = false) ->
  for_loop body acc l s = Ok r -> forallb f l = true.
Proof.
  intros Hbad Hrun. destruct (forallb f l) eqn:E; [done|].
  destruct (forallb_false _ _ E) as (x & Hx & Hf).
  pose proof (for_loop_stops body l x Hx (Hbad x Hf) acc s) as Hstop.
  by rewrite Hrun in Hstop.
Qed.

(** An attribute the loop writes and goes on from: the key a string, the
    value a string or a number. *)
Definition string_entry (e : lua_value * lua_value) : bool :=
  match fst e with
  | LString _ => lua_isstring (snd e)
  | _ => false
  end.

Section XmlAccepts.
Context `{Host}.

Lemma get_field_typed t key s x s' :
  Xml.get_field_string t key s = Ok (x, s') ->
  s' = s /\ lua_isnil (table_get t (LString key)) || lua_isstring (table_get t (LString key)) = true.
Proof.
  unfold Xml.get_field_string.
  destruct (table_get t (LString key)); simpl; unfold ret; try done; by intros [= _ <-].
Qed.

(** X15: the records the XML encoder takes.  When [xmlserialize] returns
    a text, the record it was given has a [tag] that is a string (or a
    number) and not empty; its [attr] is nil or a table, and when no number
    key of that table has the string it converts to among the keys, the
    keys of the table are all strings and its values strings (or numbers);
    its [text] is nil or a string (or a number); its [children] is nil or a
    table whose entries from 1 to its length are all tables. *)
Theorem xml_takes_records (fuel : nat) (h : gmap positive table) (p : positive) (out : string) :
  Xml.xmlserialize fuel h (LTable p) = Ok out ->
  let t := heap_table h p in
  (exists tag, lua_tolstring (table_get t (LString "tag")) = Some tag /\
               String.length tag <> 0%nat) /\
  match table_get t (LString "attr") with
  | LNil => True
  | LTable pa =>
      twin_free (heap_table h pa) = true -> forallb string_entry (heap_table h pa) = true
  | _ => False
  end /\
  (lua_isnil (table_get t (LString "text")) || lua_isstring (table_get t (LString "text")) = true) /\
  match table_get t (LString "children") with
  | LNil => True
  | LTable pc =>
      forallb (fun i => lua_istable (lua_rawgeti (heap_table h pc) i))
        (seqZ 1 (lua_objlen (heap_table h pc))) = true
  | _ => False
  end.
Proof.
  intros Hrun t. unfold Xml.xmlserialize in Hrun.
  destruct (Xml.emit_element fuel h p "" 0 ∅) as [[o s]| |] eqn:E; try done. clear Hrun.
  destruct fuel as [|fuel]; [done|]. cbn [Xml.emit_element] in E.
  unfold Xml.emit_element_body in E. fold t in E.
  unfold bind at 1 in E. unfold seen_count in E.
  rewrite bool_decide_eq_false_2 in E by set_solver.
  unfold bind at 1 in E. unfold seen_insert in E.
  unfold bind at 1 in E. unfold Xml.get_field_string at 1 in E.
  destruct (lua_isnil (table_get t (LString "tag"))) eqn:Etag; [done|].
  destruct (lua_tolstring (table_get t (LString "tag"))) as [tag|] eqn:Ets; [|done].
  unfold ret at 1 in E.
  destruct (String.length tag =? 0)%nat eqn:Elen; [done|]. apply Nat.eqb_neq in Elen.
  split; [by exists tag|].
  destruct (negb (lua_isnil (table_get t (LString "attr"))) &&
            negb (lua_istable (table_get t (LString "attr")))) eqn:Eattr; [done|].
  unfold bind at 1 in E.
  destruct (Xml.get_field_string t "text" (∅ ∪ {[p]})) as [[text s1]| |] eqn:Eg; try done.
  apply get_field_typed in Eg as [-> Htext].
  destruct (negb (lua_isnil (table_get t (LString "children"))) &&
            negb (lua_istable (table_get t (LString "children")))) eqn:Ech; [done|].
  unfold bind at 1 in E.
  match type of E with
  | match ?m with Ok _ => _ | Error _ => _ | OutOfFuel => _ end = _ =>
      destruct m as [[a s1]| |] eqn:Eat; try done
  end.
  split; [|split; [done|]].
  - destruct (table_get t (LString "attr")) as [| | | |pa|]; try done.
    intros Htwin. unfold Xml.emit_attributes in Eat.
    rewrite while_next_twin_free in Eat by (try apply xml_keeps_slot; done).
    apply (for_loop_served _ string_entry) in Eat; [done|].
    intros e He acc s0. unfold entry_step, Xml.attribute, bind, string_entry in *.
    destruct e as [k v]. cbn [fst snd] in *.
    destruct k; try done.
    + destruct (lua_isstring v); done.
    + by rewrite He.
  - destruct (table_get t (LString "children")) as [| | | |pc|]; try done.
    destruct (lua_objlen (heap_table h pc) >? 0)%Z eqn:En.
    + cbn [negb andb] in E. unfold bind in E.
      destruct (Xml.emit_children _ _ _ _ _) as [[o1 s2]| |] eqn:Ek; try done.
      unfold Xml.emit_children in Ek.
      apply (for_loop_served _ (fun i => lua_istable (lua_rawgeti (heap_table h pc) i))) in Ek;
        [done|].
      intros i Hi acc s0. unfold Xml.child. by destruct (lua_rawgeti (heap_table h pc) i).
    + rewrite Z.gtb_ltb in En. apply Z.ltb_ge in En. by rewrite seqZ_nil.
Qed.

End XmlAccepts.

(** [{tag = "a", attr = {[1] = "x"}}]: the number key is converted where it
    lies and the traversal cannot go on from it. *)
Definition number_attr_heap : gmap positive table :=
  {[1%positive := [(LString "tag", LString "a"); (LString "attr", LTable 2)];
    2%positive := [(LNumber 1, LString "x")]]}.

Lemma xml_takes_records_witness :
  @Xml.xmlserialize Sample.host 2 xml_ab (LTable 1)
    = Ok ("<a id=" ++ String (ascii_of_nat 34) "1" ++ String (ascii_of_nat 34) ">"
          ++ String "010"%char (String "009"%char "<b/>")
          ++ String "010"%char "</a>" ++ String "010"%char EmptyString)%string /\
  @Xml.xmlserialize Sample.host 2 {[1%positive := [(LString "tag", LBoolean true)]]} (LTable 1)
    = Error "xml.tag must be a string" /\
  @Xml.xmlserialize Sample.host 2
      {[1%positive := [(LString "tag", LString "a"); (LString "children", LTable 2)];
        2%positive := [(LNumber 1, LString "b")]]} (LTable 1)
    = Error "xml.children entries must be tables" /\
  @Xml.xmlserialize Sample.host 2 number_attr_heap (LTable 1) = Error "invalid key to 'next'" /\
  let t := heap_table xml_ab 1 in
  (exists tag, @lua_tolstring Sample.host (table_get t (LString "tag")) = Some tag /\
               String.length tag <> 0%nat) /\
  match table_get t (LString "attr") with
  | LNil => True
  | LTable pa =>
      @twin_free Sample.host (heap_table xml_ab pa) = true ->
      forallb string_entry (heap_table xml_ab pa) = true
  | _ => False
  end /\
  (lua_isnil (table_get t (LString "text")) || lua_isstring (table_get t (LString "text")) = true) /\
  match table_get t (LString "children") with
  | LNil => True
  | LTable pc =>
      forallb (fun i => lua_istable (lua_rawgeti (heap_table xml_ab pc) i))
        (seqZ 1 (lua_objlen (heap_table xml_ab pc))) = true
  | _ => False
  end.
Proof.
  assert (Hrun : @Xml.xmlserialize Sample.host 2 xml_ab (LTable 1)
                 = Ok ("<a id=" ++ String (ascii_of_nat 34) "1" ++ String (ascii_of_nat 34) ">"
                       ++ String "010"%char (String "009"%char "<b/>")
                       ++ String "010"%char "</a>" ++ String "010"%char EmptyString)%string)
    by (vm_compute; reflexivity).
  split; [done|]. do 3 (split; [vm_compute; reflexivity|]).
  exact (@xml_takes_records Sample.host 2 xml_ab 1 _ Hrun).
Defined.

(** ** A JSON text the parser gives up on *)

(** Modelled from the spec: the parser, which is not under src/, reports
    the events of what it has read and then the error.  [truncated d pre]:
    [pre] is what it reports of the document [d] when it stops inside it,
    before an item, inside an item, before a key or before the end of a
    container. *)
Inductive truncated : Document.document -> list Json.sax_event -> Prop :=
| truncated_start d : truncated d []
| truncated_array_item l1 d l2 pre :
    truncated d pre ->
    truncated (Document.DArray (l1 ++ d :: l2))
      (Json.start_array :: concat (map Document.events l1) ++ pre)
| truncated_array_end l :
    truncated (Document.DArray l) (Json.start_array :: concat (map Document.events l))
| truncated_object_key l1 l2 :
    truncated (Document.DObject (l1 ++ l2))
      (Json.start_object
         :: concat (map (fun e => Json.key (fst e) :: Document.events (snd e)) l1))
| truncated_object_value l1 k d l2 pre :
    truncated d pre ->
    truncated (Document.DObject (l1 ++ (k, d) :: l2))
      (Json.start_object
         :: concat (map (fun e => Json.key (fst e) :: Document.events (snd e)) l1)
         ++ Json.key k :: pre).

Lemma reads_all (l : list Document.document) : Forall2 reads l (map Document.value l).
Proof. induction l; simpl; constructor; [apply reads_value|done]. Qed.

Lemma reads_members (l : list (string * Document.document)) :
  Forall2 (fun e kx => fst e = fst kx /\ reads (snd e) (snd kx)) l
    (map (fun e => (fst e, Document.value (snd e))) l).
Proof. induction l; simpl; constructor; [split; [done|apply reads_value]|done]. Qed.

Lemma truncated_run d pre :
  truncated d pre ->
  forall L frames what rest,
    Json.sax_run (pre ++ Json.parse_error what :: rest) (L, frames) = Error what.
Proof.
  induction 1 as [d|l1 d l2 pre _ IH|l|l1 l2|l1 k d l2 pre _ IH]; intros [h stk] frames what rest.
  - done.
  - rewrite <- app_comm_cons, <- app_assoc. cbn [Json.sax_run Json.sax_handle].
    unfold Json.lua_createtable. cbn [Json.st_heap Json.st_stack].
    destruct (array_loop_reads l1 _ (reads_all l1) (<[fresh (dom h) := []]> h) stk frames
                (fresh (dom h)) 0 [] (pre ++ Json.parse_error what :: rest))
      as (h' & t' & Hrun & _); [by rewrite lookup_insert_eq|done|done|constructor|].
    etransitivity; [exact Hrun|]. apply IH.
  - rewrite <- app_comm_cons. cbn [Json.sax_run Json.sax_handle].
    unfold Json.lua_createtable. cbn [Json.st_heap Json.st_stack].
    destruct (array_loop_reads l _ (reads_all l) (<[fresh (dom h) := []]> h) stk frames
                (fresh (dom h)) 0 [] (Json.parse_error what :: rest))
      as (h' & t' & Hrun & _); [by rewrite lookup_insert_eq|done|done|constructor|].
    etransitivity; [exact Hrun|]. done.
  - rewrite <- app_comm_cons. cbn [Json.sax_run Json.sax_handle].
    unfold Json.lua_createtable. cbn [Json.st_heap Json.st_stack].
    destruct (object_loop_reads l1 _ (reads_members l1) (fun _ => True))
      with (h := <[fresh (dom h) := []]> h) (stk := stk) (frames := frames) (p := fresh (dom h))
           (t := @nil (lua_value * lua_value)) (rest := Json.parse_error what :: rest)
      as (h' & t' & Hrun & _); [done|by rewrite lookup_insert_eq|done|constructor|].
    etransitivity; [exact Hrun|]. done.
  - rewrite <- app_comm_cons, <- app_assoc. cbn [Json.sax_run Json.sax_handle].
    unfold Json.lua_createtable. cbn [Json.st_heap Json.st_stack].
    destruct (object_loop_reads l1 _ (reads_members l1) (fun _ => True))
      with (h := <[fresh (dom h) := []]> h) (stk := stk) (frames := frames) (p := fresh (dom h))
           (t := @nil (lua_value * lua_value))
           (rest := (Json.key k :: pre) ++ Json.parse_error what :: rest)
      as (h' & t' & Hrun & _); [done|by rewrite lookup_insert_eq|done|constructor|].
    etransitivity; [exact Hrun|]. rewrite <- app_comm_cons.
    cbn [Json.sax_run Json.sax_handle]. apply IH.
Qed.

(** X16: a JSON text the parser gives up on.  Whatever part of a document
    the handler has been given before the parser reports its error, tables
    half built included, [jsondeserialize] returns no value: it fails with
    the message of the parser. *)
Theorem json_parse_error_is_raised (sax_parse : string -> list Json.sax_event)
    (h : gmap positive table) (s : string) (d : Document.document)
    (pre : list Json.sax_event) (what : string) :
  String.length s <> 0%nat -> truncated d pre ->
  sax_parse s = pre ++ [Json.parse_error what] ->
  Json.jsondeserialize sax_parse h s = Error what.
Proof.
  intros Hs Hpre Hparse. unfold Json.jsondeserialize.
  apply Nat.eqb_neq in Hs. rewrite Hs, Hparse.
  by rewrite (truncated_run d pre Hpre (Json.mkState h []) [] what []).
Qed.

(** [[1, {"a": 2, "b": [tru] *)
Definition cut_events : list Json.sax_event :=
  [Json.start_array; Json.number_unsigned 1; Json.start_object; Json.key "a";
   Json.number_unsigned 2; Json.key "b"; Json.start_array].

Lemma json_parse_error_is_raised_witness :
  String.length "x" <> 0%nat /\
  truncated
    (Document.DArray
       [Document.DUnsigned 1;
        Document.DObject [("a", Document.DUnsigned 2);
                          ("b", Document.DArray [Document.DBool true])]])
    cut_events /\
  Json.jsondeserialize (fun _ => cut_events ++ [Json.parse_error "invalid literal"]) ∅ "x"
    = Error "invalid literal".
Proof.
  assert (Hcut : truncated
            (Document.DArray
               [Document.DUnsigned 1;
                Document.DObject [("a", Document.DUnsigned 2);
                                  ("b", Document.DArray [Document.DBool true])]])
            cut_events).
  { apply (truncated_array_item [Document.DUnsigned 1] _ []).
    apply (truncated_object_value [("a", Document.DUnsigned 2)] "b" _ []).
    apply (truncated_array_item [] (Document.DBool true) []). constructor. }
  split; [done|]. split; [done|].
  exact (json_parse_error_is_raised (fun _ => cut_events ++ [Json.parse_error "invalid literal"])
           ∅ "x" _ cut_events "invalid literal" ltac:(done) Hcut eq_refl).
Defined.
